(** * The AMQP 1.0 type-tagged codec of [serialization.go]

    A shallow embedding of the encoder and decoder of [serialization.go]:
    Go's mutable [reader] and [writer] become explicit state, every
    [(value, error)] return becomes a triple [(state, value, option error)],
    fixed-width integers are [Z] with their wrap-around written out, and
    octets are [Byte.byte], so that wire images read as in the AMQP
    documents ([xc1; x0b; x04; ...]). *)

From Stdlib Require Import ZArith List Lia Strings.Byte String Bool.
From stdpp Require Import base list.
Import ListNotations.
Open Scope Z_scope.

(** ** Octets and fixed-width integers *)

Definition byte_to_Z (b : byte) : Z := Z.of_N (Byte.to_N b).

(** The conversion [uint8(z)]: keep the low eight bits. *)
Definition byte_of_Z (z : Z) : byte :=
  match Byte.of_N (Z.to_N (z mod 256)) with
  | Some b => b
  | None => x00
  end.

Definition uint8 (z : Z) : Z := z mod 2 ^ 8.
Definition uint16 (z : Z) : Z := z mod 2 ^ 16.
Definition uint32 (z : Z) : Z := z mod 2 ^ 32.
Definition uint64 (z : Z) : Z := z mod 2 ^ 64.

(** Reinterpretation of the low [w] bits as a two's-complement number. *)
Definition signed (w : Z) (z : Z) : Z :=
  let u := z mod 2 ^ w in
  if u <? 2 ^ (w - 1) then u else u - 2 ^ w.

Definition int8 : Z -> Z := signed 8.
Definition int16 : Z -> Z := signed 16.
Definition int32 : Z -> Z := signed 32.
Definition int64 : Z -> Z := signed 64.
(** Go's [int] is 64 bits wide on every platform where the file compiles
    (it compares an [int] with [math.MaxUint32]). *)
Definition int : Z -> Z := signed 64.

Module math.
Definition MaxUint8 : Z := 255.
Definition MaxUint32 : Z := 4294967295.
End math.

(** Length of a slice as a Go [int]. *)
Definition len {A} (l : list A) : Z := Z.of_nat (length l).

(** ** Errors *)

(** The package-level sentinels are compared by identity in the source
    ([err == errNull]); they are constructors of their own.  [errorNew],
    [errorErrorf] and [errorWrapf] keep the message or the format with its
    numeric arguments, a [%T] argument is left out. *)
Inductive error : Type :=
  | errNull
  | errInvalidLength
  | errLimitReached
  | io_EOF
  | io_ErrUnexpectedEOF
  | errUnreadByte
  (* of the model only: the call depth given to [unmarshal] is used up *)
  | errDepth
  | errorNew (msg : string)
  | errorErrorf (format : string) (args : list Z)
  | errorWrapf (cause : error) (format : string) (args : list Z).

(** ** [encoding/binary], big endian *)

Module binary.
(** [BigEndian.Uint16/32/64]: the octets of [bs], most significant first. *)
Definition BigEndian_Uint (bs : list byte) : Z :=
  fold_left (fun acc b => acc * 256 + byte_to_Z b) bs 0.

(** [BigEndian.PutUint16/32/64]: the [n] low octets of [v]. *)
Fixpoint BigEndian_PutUint (n : nat) (v : Z) : list byte :=
  match n with
  | O => []
  | S n' => byte_of_Z (Z.shiftr v (8 * Z.of_nat n')) :: BigEndian_PutUint n' v
  end.
End binary.

(** ** [bytes.Buffer], as far as [reader] and [writer] use it *)

Module bytes.
(** [lastRead] is [true] for [opRead] and [false] for [opInvalid]. *)
Record Buffer : Type := mkBuffer {
  buf : list byte;
  off : nat;
  lastRead : bool
}.

Definition NewBuffer (data : list byte) : Buffer := mkBuffer data 0 false.

Definition empty (b : Buffer) : bool := (length (buf b) <=? off b)%nat.

Definition Len (b : Buffer) : Z := Z.of_nat (length (buf b) - off b).

Definition Bytes (b : Buffer) : list byte := drop (off b) (buf b).

Definition Reset (b : Buffer) : Buffer := mkBuffer [] 0 false.

(** [Read(p)] with [n = len(p)]; the octets copied into [p] are returned. *)
Definition Read (b : Buffer) (n : nat) : Buffer * list byte * option error :=
  if empty b then
    if (n =? 0)%nat then (Reset b, [], None) else (Reset b, [], Some io_EOF)
  else
    let data := take n (drop (off b) (buf b)) in
    (mkBuffer (buf b) (off b + length data)
              (if (0 <? length data)%nat then true else false),
     data, None).

Definition ReadByte (b : Buffer) : Buffer * byte * option error :=
  match buf b !! off b with
  | None => (Reset b, x00, Some io_EOF)
  | Some c => (mkBuffer (buf b) (off b + 1) true, c, None)
  end.

Definition UnreadByte (b : Buffer) : Buffer * option error :=
  if lastRead b then
    (mkBuffer (buf b) (if (0 <? off b)%nat then off b - 1 else off b)%nat false,
     None)
  else (b, Some errUnreadByte).

Definition Next (b : Buffer) (n : nat) : Buffer * list byte :=
  let m := (length (buf b) - off b)%nat in
  let n := if (m <? n)%nat then m else n in
  (mkBuffer (buf b) (off b + n) (if (0 <? n)%nat then true else false),
   take n (drop (off b) (buf b))).

(** [Write] and [WriteByte] of a buffer used as a [writer] append and
    never fail. *)
Definition Write (w : list byte) (p : list byte) : list byte := w ++ p.
Definition WriteByte (w : list byte) (c : byte) : list byte := w ++ [c].
End bytes.

(** ** [io.ReadFull] *)

Module io.
Section ReadFull.
Context {R : Type} (Read : R -> nat -> R * list byte * option error).

(** The loop of [io.ReadAtLeast]: [for n < min && err == nil].  Each
    round without an error reads at least one octet, so [S min] rounds
    are never exhausted. *)
Fixpoint ReadAtLeast_loop (rounds : nat) (r : R) (min : nat)
    (got : list byte) : R * list byte * option error :=
  match rounds with
  | O => (r, got, None)
  | S rounds' =>
      if (length got <? min)%nat then
        match Read r (min - length got) with
        | (r', data, None) => ReadAtLeast_loop rounds' r' min (got ++ data)
        | (r', data, Some e) => (r', got ++ data, Some e)
        end
      else (r, got, None)
  end.

(** [io.ReadFull(r, buf)] with [n = len(buf)]: the octets read (at most
    [n]) and the error. *)
Definition ReadFull (r : R) (n : nat) : R * list byte * option error :=
  match ReadAtLeast_loop (S n) r n [] with
  | (r', got, err) =>
      if (n <=? length got)%nat then (r', got, None)
      else
        match err with
        | Some io_EOF =>
            if (0 <? length got)%nat then (r', got, Some io_ErrUnexpectedEOF)
            else (r', got, Some io_EOF)
        | _ => (r', got, err)
        end
  end.
End ReadFull.
End io.


(** ** [unicode/utf8] *)

Module utf8.
Definition cont (b : byte) : bool :=
  (128 <=? byte_to_Z b) && (byte_to_Z b <=? 191).

Definition between (lo hi : Z) (b : byte) : bool :=
  (lo <=? byte_to_Z b) && (byte_to_Z b <=? hi).

(** [utf8.ValidString]: well-formed UTF-8, with the ranges the second octet
    is held to after [0xE0], [0xED], [0xF0] and [0xF4]. *)
Fixpoint ValidString (s : list byte) : bool :=
  match s with
  | [] => true
  | b0 :: s1 =>
      let c := byte_to_Z b0 in
      if c <? 128 then ValidString s1
      else if c <? 194 then false
      else if c <? 224 then
        match s1 with
        | b1 :: s2 => cont b1 && ValidString s2
        | _ => false
        end
      else if c <? 240 then
        match s1 with
        | b1 :: b2 :: s3 =>
            between (if c =? 224 then 160 else 128)
                    (if c =? 237 then 159 else 191) b1
            && cont b2 && ValidString s3
        | _ => false
        end
      else if c <? 245 then
        match s1 with
        | b1 :: b2 :: b3 :: s4 =>
            between (if c =? 240 then 144 else 128)
                    (if c =? 244 then 143 else 191) b1
            && cont b2 && cont b3 && ValidString s4
        | _ => false
        end
      else false
  end.
End utf8.

(** ** [time.Time], as an instant in UTC *)

Module time.
(** Seconds since the Unix epoch and the nanoseconds within that second. *)
Record Time : Type := mkTime { sec : Z; nsec : Z }.

(** The zero value [time.Time{}]: January 1, year 1, 00:00:00 UTC. *)
Definition zero : Time := mkTime (-62135596800) 0.

(** [time.Unix(sec, nsec)]; Go's [/] truncates toward zero. *)
Definition Unix (s n : Z) : Time :=
  if (n <? 0) || (1000000000 <=? n) then
    let q := Z.quot n 1000000000 in
    let s := int64 (s + q) in
    let n := int64 (n - q * 1000000000) in
    if n <? 0 then mkTime (int64 (s - 1)) (n + 1000000000)
    else mkTime s n
  else mkTime s n.

(** [t.UnixMilli()]: the offset of [t] from the epoch in milliseconds. *)
Definition UnixMilli (t : Time) : Z := sec t * 1000 + nsec t / 1000000.

(** The instant [ms] milliseconds from the epoch, [time.UnixMilli(ms)]. *)
Definition ofMilli (ms : Z) : Time :=
  Unix (Z.quot ms 1000) (Z.rem ms 1000 * 1000000).
End time.

(** ** Type codes *)

Definition amqpType : Type := byte.

Definition typeCodeNull : amqpType := x40.
Definition typeCodeBool : amqpType := x56.
Definition typeCodeBoolTrue : amqpType := x41.
Definition typeCodeBoolFalse : amqpType := x42.
Definition typeCodeUbyte : amqpType := x50.
Definition typeCodeUshort : amqpType := x60.
Definition typeCodeUint : amqpType := x70.
Definition typeCodeSmallUint : amqpType := x52.
Definition typeCodeUint0 : amqpType := x43.
Definition typeCodeUlong : amqpType := x80.
Definition typeCodeSmallUlong : amqpType := x53.
Definition typeCodeUlong0 : amqpType := x44.
Definition typeCodeByte : amqpType := x51.
Definition typeCodeShort : amqpType := x61.
Definition typeCodeInt : amqpType := x71.
Definition typeCodeSmallint : amqpType := x54.
Definition typeCodeLong : amqpType := x81.
Definition typeCodeSmalllong : amqpType := x55.
Definition typeCodeFloat : amqpType := x72.
Definition typeCodeDouble : amqpType := x82.
Definition typeCodeDecimal32 : amqpType := x74.
Definition typeCodeDecimal64 : amqpType := x84.
Definition typeCodeDecimal128 : amqpType := x94.
Definition typeCodeChar : amqpType := x73.
Definition typeCodeTimestamp : amqpType := x83.
Definition typeCodeUUID : amqpType := x98.
Definition typeCodeVbin8 : amqpType := xa0.
Definition typeCodeVbin32 : amqpType := xb0.
Definition typeCodeStr8 : amqpType := xa1.
Definition typeCodeStr32 : amqpType := xb1.
Definition typeCodeSym8 : amqpType := xa3.
Definition typeCodeSym32 : amqpType := xb3.
Definition typeCodeList0 : amqpType := x45.
Definition typeCodeList8 : amqpType := xc0.
Definition typeCodeList32 : amqpType := xd0.
Definition typeCodeMap8 : amqpType := xc1.
Definition typeCodeMap32 : amqpType := xd1.
Definition typeCodeArray8 : amqpType := xe0.
Definition typeCodeArray32 : amqpType := xf0.

(** ** The [reader] interface and its two implementations

    A [reader] is a [*bytes.Buffer] or a [*limitReader] around a reader.
    [limitReader] embeds the [reader] it wraps, so every method but [Read]
    is the wrapped reader's own; the wrapped reader is shared with the
    caller, which the model renders by handing it back. *)
Inductive reader : Type :=
  | BufferReader (b : bytes.Buffer)
  | limitReader (reader_ : reader) (limit : Z) (read : Z).

Fixpoint ReadByte (r : reader) : reader * byte * option error :=
  match r with
  | BufferReader b =>
      let '(b', c, err) := bytes.ReadByte b in (BufferReader b', c, err)
  | limitReader inner limit read =>
      let '(inner', c, err) := ReadByte inner in
      (limitReader inner' limit read, c, err)
  end.

Fixpoint UnreadByte (r : reader) : reader * option error :=
  match r with
  | BufferReader b =>
      let '(b', err) := bytes.UnreadByte b in (BufferReader b', err)
  | limitReader inner limit read =>
      let '(inner', err) := UnreadByte inner in
      (limitReader inner' limit read, err)
  end.

Fixpoint Len (r : reader) : Z :=
  match r with
  | BufferReader b => bytes.Len b
  | limitReader inner _ _ => Len inner
  end.

(** [Read]: a buffer reads by itself; [limitReader.Read] refuses once
    [read >= limit] and otherwise passes the whole request on, adding what
    was read to [read]. *)
Fixpoint Read (r : reader) (n : nat) : reader * list byte * option error :=
  match r with
  | BufferReader b =>
      let '(b', data, err) := bytes.Read b n in (BufferReader b', data, err)
  | limitReader inner limit read =>
      if limit <=? read then (r, [], Some errLimitReached)
      else
        let '(inner', data, err) := Read inner n in
        (limitReader inner' limit (uint32 (read + len data)), data, err)
  end.

(** The reader a [limitReader] was built on. *)
Definition underlying (r : reader) : reader :=
  match r with
  | BufferReader _ => r
  | limitReader inner _ _ => inner
  end.

(** [binary.Read(r, binary.BigEndian, &n)] for a fixed-width integer of
    [n] octets: the unsigned value read, [0] when the read fails. *)
Definition binary_Read (r : reader) (n : nat) : reader * Z * option error :=
  match io.ReadFull Read r n with
  | (r', bs, None) => (r', binary.BigEndian_Uint bs, None)
  | (r', _, Some e) => (r', 0, Some e)
  end.

(** ** Propagating errors

    [try m d k] is the Go idiom
    [v, err := m; if err != nil { return d, err }; k]. *)
Definition try {S A B : Type} (m : S * A * option error) (d : B)
    (k : S -> A -> S * B * option error) : S * B * option error :=
  match m with
  | (s, _, Some e) => (s, d, Some e)
  | (s, a, None) => k s a
  end.

Notation "'let?' ( s , a ) := m 'or' d 'in' k" :=
  (try m d (fun s a => k))
  (at level 10, s name, a name, m at level 100, d at level 9, k at level 200,
   format "'[v' 'let?'  ( s ,  a )  :=  m  'or'  d  'in' '/' k ']'").

(** ** Decoding the primitive types *)

Definition readVariableType (r : reader) (of_ : amqpType)
  : reader * list byte * option error :=
  let fill (r : reader) (n : Z) :=
    if Len r <? n then (r, [], Some errInvalidLength)
    else
      let '(r, got, err) := io.ReadFull Read r (Z.to_nat n) in
      (r, got ++ replicate (Z.to_nat n - length got) x00, err) in
  match of_ with
  | x40 (* Null *) => (r, [], None)
  | xa0 | xa1 | xa3 (* Vbin8, Str8, Sym8 *) =>
      let? (r, n) := ReadByte r or [] in
      fill r (byte_to_Z n)
  | xb0 | xb1 | xb3 (* Vbin32, Str32, Sym32 *) =>
      let? (r, n) := binary_Read r 4 or [] in
      fill r n
  | _ =>
      (r, [], Some (errorErrorf
         "type code %#00x is not a recognized variable length type"
         [byte_to_Z of_]))
  end.

Definition readString (r : reader) : reader * list byte * option error :=
  let? (r, b) := ReadByte r or [] in
  readVariableType r b.

Definition readBinary (r : reader) : reader * list byte * option error :=
  let? (r, b) := ReadByte r or [] in
  readVariableType r b.

(** [readHeaderSlice] returns [(elements, length)]. *)
Definition readHeaderSlice (r : reader) : reader * (Z * Z) * option error :=
  let? (r, b) := ReadByte r or (0, 0) in
  let check (r : reader) (elements length : Z) :=
    if Len r <? elements then (r, (0, 0), Some errInvalidLength)
    else (r, (elements, length), None) in
  match b with
  | x40 (* Null *) => (r, (0, 0), Some errNull)
  | x45 (* List0 *) => (r, (0, 0), None)
  | xc0 | xe0 (* List8, Array8 *) =>
      let? (r, lByte) := ReadByte r or (0, 0) in
      let? (r, elemByte) := ReadByte r or (0, 0) in
      check r (byte_to_Z elemByte) (byte_to_Z lByte)
  | xd0 | xf0 (* List32, Array32 *) =>
      let? (r, l) := binary_Read r 4 or (0, 0) in
      let? (r, elems) := binary_Read r 4 or (0, 0) in
      check r (int elems) (int l)
  | _ =>
      (r, (0, 0),
       Some (errorErrorf "type code %x is not a recognized list type"
                         [byte_to_Z b]))
  end.

(** The loop shared by [readStringArray] and [readSymbolArray]. *)
Fixpoint readArrayElems (lElems : nat) (r : reader) (b : amqpType)
    (strs : list (list byte)) : reader * list (list byte) * option error :=
  match lElems with
  | O => (r, strs, None)
  | S n =>
      let? (r, vari) := readVariableType r b or [] in
      readArrayElems n r b (strs ++ [vari])
  end.

Definition readStringArray (r : reader)
  : reader * list (list byte) * option error :=
  let? (r, h) := readHeaderSlice r or [] in
  let? (r, b) := ReadByte r or [] in
  readArrayElems (Z.to_nat (fst h)) r b [].

Definition readSymbolArray (r : reader)
  : reader * list (list byte) * option error :=
  let? (r, h) := readHeaderSlice r or [] in
  let? (r, b) := ReadByte r or [] in
  readArrayElems (Z.to_nat (fst h)) r b [].

Definition readTimestamp (r : reader) : reader * time.Time * option error :=
  let? (r, b) := ReadByte r or time.zero in
  match b with
  | x40 (* Null *) => (r, time.zero, Some errNull)
  | x83 (* Timestamp *) =>
      let '(r, n, err) := binary_Read r 8 in
      let rem := n mod 1000 in
      (r, time.Unix (Z.quot (int64 n) 1000) (int64 rem * 1000000), err)
  | t =>
      (r, time.zero,
       Some (errorErrorf "invalid type for timestamp %0x" [byte_to_Z t]))
  end.

Definition readInt (r : reader) : reader * Z * option error :=
  let? (r, b) := ReadByte r or 0 in
  match b with
  (* Unsigned *)
  | x43 | x44 (* Uint0, Ulong0 *) => (r, 0, None)
  | x50 | x52 | x53 (* Ubyte, SmallUint, SmallUlong *) =>
      let '(r, n, err) := ReadByte r in (r, int (byte_to_Z n), err)
  | x60 (* Ushort *) =>
      let '(r, n, err) := binary_Read r 2 in (r, int n, err)
  | x70 (* Uint *) =>
      let '(r, n, err) := binary_Read r 4 in (r, int n, err)
  | x80 (* Ulong *) =>
      let '(r, n, err) := binary_Read r 8 in (r, int n, err)
  (* Signed *)
  | x51 | x54 | x55 (* Byte, Smallint, Smalllong *) =>
      let '(r, n, err) := binary_Read r 1 in (r, int (int8 n), err)
  | x61 (* Short *) =>
      let '(r, n, err) := binary_Read r 2 in (r, int (int16 n), err)
  | x71 (* Int *) =>
      let '(r, n, err) := binary_Read r 4 in (r, int (int32 n), err)
  | x81 (* Long *) =>
      let '(r, n, err) := binary_Read r 8 in (r, int (int64 n), err)
  | _ =>
      (r, 0,
       Some (errorErrorf "type code %x is not a recognized number type"
                         [byte_to_Z b]))
  end.

Definition readBool (r : reader) : reader * bool * option error :=
  let? (r, b) := ReadByte r or false in
  match b with
  | x40 (* Null *) => (r, false, Some errNull)
  | x56 (* Bool *) =>
      let? (r, b) := ReadByte r or false in
      (r, negb (Byte.eqb b x00), None)
  | x41 (* BoolTrue *) => (r, true, None)
  | x42 (* BoolFalse *) => (r, false, None)
  | _ =>
      (r, false,
       Some (errorErrorf "type code %x is not a recognized bool type"
                         [byte_to_Z b]))
  end.

Definition readUint (r : reader) : reader * Z * option error :=
  let? (r, b) := ReadByte r or 0 in
  match b with
  | x40 (* Null *) => (r, 0, Some errNull)
  | x43 | x44 (* Uint0, Ulong0 *) => (r, 0, None)
  | x50 | x52 | x53 (* Ubyte, SmallUint, SmallUlong *) =>
      let '(r, n, err) := ReadByte r in (r, uint64 (byte_to_Z n), err)
  | x60 (* Ushort *) =>
      let '(r, n, err) := binary_Read r 2 in (r, uint64 n, err)
  | x70 (* Uint *) =>
      let '(r, n, err) := binary_Read r 4 in (r, uint64 n, err)
  | x80 (* Ulong *) =>
      let '(r, n, err) := binary_Read r 8 in (r, n, err)
  | _ =>
      (r, 0,
       Some (errorErrorf "type code %x is not a recognized number type"
                         [byte_to_Z b]))
  end.

(** ** Dynamic decoding *)

(** The values [readAny] can produce behind an [interface{}]. *)
Inductive any : Type :=
  | any_nil
  | any_bool (b : bool)
  | any_uint64 (n : Z)
  | any_int (n : Z)
  | any_bytes (bin : list byte)
  | any_string (s : list byte)
  | any_Time (t : time.Time).

Definition readAny (r : reader) : reader * any * option error :=
  let? (r, b) := ReadByte r or any_nil in
  if Byte.eqb b typeCodeNull then (r, any_nil, None)
  else
    match UnreadByte r with
    | (r, Some e) => (r, any_nil, Some e)
    | (r, None) =>
        match b with
        | x56 | x41 | x42 =>
            let '(r, v, err) := readBool r in (r, any_bool v, err)
        | x50 | x60 | x70 | x52 | x43 | x80 | x53 | x44 =>
            let '(r, v, err) := readUint r in (r, any_uint64 v, err)
        | x51 | x61 | x71 | x54 | x81 | x55 =>
            let '(r, v, err) := readInt r in (r, any_int v, err)
        | x72 | x82 | x74 | x84 | x94 | x73 | x98
        | x45 | xc0 | xd0 | xc1 | xd1 | xe0 | xf0 =>
            (r, any_nil, Some (errorErrorf "%0x not implemented" [byte_to_Z b]))
        | xa0 | xb0 =>
            let '(r, v, err) := readBinary r in (r, any_bytes v, err)
        | xa1 | xb1 | xa3 | xb3 =>
            let '(r, v, err) := readString r in (r, any_string v, err)
        | x83 =>
            let '(r, v, err) := readTimestamp r in (r, any_Time v, err)
        | _ => (r, any_nil, Some (errorErrorf "unknown type %0x" [byte_to_Z b]))
        end
    end.

(** ** Maps and the bounded reader *)

(** [mapReader.r] is always a [limitReader]. *)
Record mapReader : Type := mkMapReader {
  mr_r : reader;
  mr_count : Z;   (* elements (2 * # of pairs) *)
  mr_read : Z
}.

Definition pairs (mr : mapReader) : Z := Z.quot (mr_count mr) 2.

Definition more (mr : mapReader) : bool := mr_read mr <? mr_count mr.

(** [newMapReader] returns [nil] (here [None]) together with every error. *)
Definition newMapReader (r : reader) : reader * option mapReader * option error :=
  let? (r, b) := ReadByte r or None in
  let finish (r : reader) (n : Z) : reader * option mapReader * option error :=
    if Len r <? n then (r, None, Some errInvalidLength)
    else
      let? (r, b) := ReadByte r or None in
      (r, Some (mkMapReader (limitReader r n 0) (int (byte_to_Z b)) 0), None) in
  match b with
  | x40 (* Null *) => (r, None, Some errNull)
  | xc1 (* Map8 *) =>
      let? (r, bn) := ReadByte r or None in
      finish r (uint32 (byte_to_Z bn))
  | xd1 (* Map32 *) =>
      let? (r, n) := binary_Read r 4 or None in
      finish r n
  | _ => (r, None, Some (errorErrorf "invalid map type %x" [byte_to_Z b]))
  end.

(** Go map assignment [mm[key] = value] on an association list. *)
Fixpoint map_set {K V : Type} (eqb : K -> K -> bool) (k : K) (v : V)
    (m : list (K * V)) : list (K * V) :=
  match m with
  | [] => [(k, v)]
  | (k', v') :: m' =>
      if eqb k k' then (k, v) :: m' else (k', v') :: map_set eqb k v m'
  end.

Fixpoint bytes_eqb (a b : list byte) : bool :=
  match a, b with
  | [], [] => true
  | x :: a', y :: b' => Byte.eqb x y && bytes_eqb a' b'
  | _, _ => false
  end.

Definition any_eqb (a b : any) : bool :=
  match a, b with
  | any_nil, any_nil => true
  | any_bool x, any_bool y => Bool.eqb x y
  | any_uint64 x, any_uint64 y => x =? y
  | any_int x, any_int y => x =? y
  | any_bytes x, any_bytes y => bytes_eqb x y
  | any_string x, any_string y => bytes_eqb x y
  | any_Time x, any_Time y =>
      (time.sec x =? time.sec y) && (time.nsec x =? time.nsec y)
  | _, _ => false
  end.

(** ** Sinks of [unmarshal]

    The argument [i] of [unmarshal] is a pointer; a sink is the type of the
    pointer together with the value it points to, and [unmarshal] returns
    the value the pointer points to afterwards. *)
Inductive sink : Type :=
  | ptr_int (v : Z)
  | ptr_uint64 (v : Z)
  | ptr_uint32 (v : Z)
  | ptr_uint16 (v : Z)
  | ptr_uint8 (v : Z)
  | ptr_string (v : list byte)
  | ptr_Symbols (v : list (list byte))
  | ptr_Symbol (v : list byte)
  | ptr_bytes (v : list byte)
  | ptr_bool (v : bool)
  | ptr_Time (v : time.Time)
  | ptr_mapAnyAny (v : list (any * any))
  | ptr_mapStringAny (v : list (list byte * any))
  | ptr_mapSymbolAny (v : list (list byte * any))
  | ptr_any (v : any)
  (* *milliseconds, an unmarshaler of this file; the duration in ns *)
  | ptr_milliseconds (v : Z)
  (* any other unmarshaler, given by what it does to the reader *)
  | ptr_unmarshaler (u : reader -> reader * option error)
  (* **T whose *T is nil; [fresh] is the sink of [new(T)] *)
  | ptr_nil (fresh : sink)
  (* **T whose *T is the sink [p] *)
  | ptr_to (p : sink)
  (* anything else *)
  | unsupported.

Definition sink_any (s : sink) : any :=
  match s with ptr_any v => v | _ => any_nil end.

Definition sink_string (s : sink) : list byte :=
  match s with ptr_string v | ptr_Symbol v => v | _ => [] end.

Definition sink_uint32 (s : sink) : Z :=
  match s with ptr_uint32 v => v | _ => 0 end.

Definition unmarshalResult : Type := reader * sink * bool * option error.

Section Unmarshalers.
(** The functions below call [unmarshal], which in turn dispatches to
    them. *)
Variable unmarshal : reader -> sink -> unmarshalResult.

Definition next (mr : mapReader) (key value : sink)
  : mapReader * (sink * sink) * option error :=
  match unmarshal (mr_r mr) key with
  | (r, key, _, Some e) =>
      (mkMapReader r (mr_count mr) (mr_read mr), (key, value), Some e)
  | (r, key, _, None) =>
      let mr := mkMapReader r (mr_count mr) (mr_read mr + 1) in
      match unmarshal (mr_r mr) value with
      | (r, value, _, Some e) =>
          (mkMapReader r (mr_count mr) (mr_read mr), (key, value), Some e)
      | (r, value, _, None) =>
          (mkMapReader r (mr_count mr) (mr_read mr + 1), (key, value), None)
      end
  end.

(** The loop [for mr.more() { ... mr.next(&key, &value) ... mm[key] = value }]
    of the three map decoders: [key] is the fresh key sink, [accept] the
    check on the decoded key and [store] the map assignment.  Every round
    without an error advances [mr.read] by two, so [mr.count] rounds are
    never exhausted. *)
Fixpoint mapLoop {M : Type} (rounds : nat) (mr : mapReader) (key : sink)
    (accept : sink -> option error) (store : sink -> any -> M -> M) (mm : M)
  : mapReader * M * option error :=
  match rounds with
  | O => (mr, mm, None)
  | S rounds' =>
      if more mr then
        let? (mr, kv) := next mr key (ptr_any any_nil) or mm in
        match accept (fst kv) with
        | Some e => (mr, mm, Some e)
        | None =>
            mapLoop rounds' mr key accept store
                    (store (fst kv) (sink_any (snd kv)) mm)
        end
      else (mr, mm, None)
  end.

(** The decoders hand back the caller's reader, which the [limitReader]
    shares, and the map to store in [*m] when there is no error. *)
Definition mapUnmarshal {M : Type} (r : reader) (key : sink)
    (accept : sink -> option error) (store : sink -> any -> M -> M)
    (old empty : M) : reader * M * option error :=
  match newMapReader r with
  | (r, _, Some e) => (r, old, Some e)
  | (r, None, None) => (r, old, None)
  | (r, Some mr, None) =>
      match mapLoop (Z.to_nat (mr_count mr)) mr key accept store empty with
      | (mr, _, Some e) => (underlying (mr_r mr), old, Some e)
      | (mr, mm, None) => (underlying (mr_r mr), mm, None)
      end
  end.

Definition mapAnyAny_unmarshal (m : list (any * any)) (r : reader)
  : reader * list (any * any) * option error :=
  mapUnmarshal r (ptr_any any_nil)
    (fun key =>
       match sink_any key with
       | any_bytes _ => Some (errorNew "invalid map key")
       | _ => None
       end)
    (fun key value mm => map_set any_eqb (sink_any key) value mm)
    m [].

Definition mapStringAny_unmarshal (m : list (list byte * any)) (r : reader)
  : reader * list (list byte * any) * option error :=
  mapUnmarshal r (ptr_string [])
    (fun _ => None)
    (fun key value mm => map_set bytes_eqb (sink_string key) value mm)
    m [].

Definition mapSymbolAny_unmarshal (f : list (list byte * any)) (r : reader)
  : reader * list (list byte * any) * option error :=
  mapUnmarshal r (ptr_Symbol [])
    (fun _ => None)
    (fun key value mm => map_set bytes_eqb (sink_string key) value mm)
    f [].

(** [milliseconds.unmarshal]: [*m] is set whether or not there was an
    error. *)
Definition milliseconds_unmarshal (r : reader) : reader * Z * option error :=
  let '(r, n, _, err) := unmarshal r (ptr_uint32 0) in
  (r, int64 (sink_uint32 n * 1000000), err).
End Unmarshalers.

(** ** The dispatcher [unmarshal] *)

(** The deferred function of [unmarshal]: [errNull] is not passed up. *)
Definition catchNull (res : unmarshalResult) : unmarshalResult :=
  match res with
  | (r, i, _, Some errNull) => (r, i, true, None)
  | _ => res
  end.

(** [assign read mk r i]: [val, err := read(r); if err != nil { return null,
    err }; *t = mk(val)]. *)
Definition assign {A : Type} (m : reader * A * option error) (mk : A -> sink)
    (i : sink) : unmarshalResult :=
  match m with
  | (r, _, Some e) => (r, i, false, Some e)
  | (r, val, None) => (r, mk val, false, None)
  end.

(** [unmarshal] calls itself through the map decoders, [milliseconds] and
    the pointer-to-pointer case; [depth] bounds the nesting of these
    calls. *)
Fixpoint unmarshal (depth : nat) (r : reader) (i : sink) : unmarshalResult :=
  match depth with
  | O => (r, i, false, Some errDepth)
  | S depth' =>
      catchNull
        match i with
        (* case unmarshaler *)
        | ptr_unmarshaler u => let '(r, err) := u r in (r, i, false, err)
        | ptr_milliseconds _ =>
            let '(r, m, err) := milliseconds_unmarshal (unmarshal depth') r in
            (r, ptr_milliseconds m, false, err)
        | ptr_int _ => assign (readInt r) ptr_int i
        | ptr_uint64 _ => assign (readUint r) (fun val => ptr_uint64 (uint64 val)) i
        | ptr_uint32 _ => assign (readUint r) (fun val => ptr_uint32 (uint32 val)) i
        | ptr_uint16 _ => assign (readUint r) (fun val => ptr_uint16 (uint16 val)) i
        | ptr_uint8 _ => assign (readUint r) (fun val => ptr_uint8 (uint8 val)) i
        | ptr_string _ => assign (readString r) ptr_string i
        | ptr_Symbols _ => assign (readSymbolArray r) ptr_Symbols i
        | ptr_Symbol _ => assign (readString r) ptr_Symbol i
        | ptr_bytes _ => assign (readBinary r) ptr_bytes i
        | ptr_bool _ => assign (readBool r) ptr_bool i
        | ptr_Time _ => assign (readTimestamp r) ptr_Time i
        | ptr_mapAnyAny m =>
            let '(r, m, err) := mapAnyAny_unmarshal (unmarshal depth') m r in
            (r, ptr_mapAnyAny m, false, err)
        | ptr_mapStringAny m =>
            let '(r, m, err) := mapStringAny_unmarshal (unmarshal depth') m r in
            (r, ptr_mapStringAny m, false, err)
        | ptr_mapSymbolAny m =>
            let '(r, m, err) := mapSymbolAny_unmarshal (unmarshal depth') m r in
            (r, ptr_mapSymbolAny m, false, err)
        | ptr_any _ => assign (readAny r) ptr_any i
        (* default *)
        | ptr_nil fresh =>
            let '(r, p, null, err) := unmarshal depth' r fresh in
            (r, ptr_to p, null, err)
        | ptr_to p =>
            let '(r, p, null, err) := unmarshal depth' r p in
            (r, ptr_to p, null, err)
        | unsupported =>
            (r, i, false, Some (errorErrorf "unable to unmarshal %T" []))
        end
  end.

(** ** Composites *)

(** The caller's variables that the fields of a composite point to; a
    pointer is an index into the store, and a pointer outside the store is
    nil. *)
Definition store : Type := list sink.

Definition load (st : store) (p : nat) : sink := default unsupported (st !! p).

(** A [nullHandler] is a closure over pointers of the caller. *)
Definition nullHandler : Type := store -> store * option error.

Record unmarshalField : Type := mkUnmarshalField {
  field : nat;
  handleNull : option nullHandler
}.

Definition required (name : string) : nullHandler :=
  fun st => (st, Some (errorNew (name ++ " is required")%string)).

Definition defaultUint32 (n : nat) (defaultValue : Z) : nullHandler :=
  fun st => (<[n := ptr_uint32 defaultValue]> st, None).

Definition defaultUint16 (n : nat) (defaultValue : Z) : nullHandler :=
  fun st => (<[n := ptr_uint16 defaultValue]> st, None).

Definition defaultUint8 (n : nat) (defaultValue : Z) : nullHandler :=
  fun st => (<[n := ptr_uint8 defaultValue]> st, None).

Definition defaultSymbol (s : nat) (defaultValue : list byte) : nullHandler :=
  fun st => (<[s := ptr_Symbol defaultValue]> st, None).

(** [readCompositeHeader] returns [(type, fields)]. *)
Definition readCompositeHeader (r : reader)
  : reader * (amqpType * Z) * option error :=
  let? (r, byt) := ReadByte r or (x00, 0) in
  if Byte.eqb byt typeCodeNull then (r, (x00, 0), Some errNull)
  else if negb (Byte.eqb byt x00) then
    (r, (x00, 0),
     Some (errorErrorf "invalid composite header %0x" [byte_to_Z byt]))
  else
    let? (r, v) := readInt r or (x00, 0) in
    let '(r, (fields, _), err) := readHeaderSlice r in
    (r, (byte_of_Z v, fields), err).

(** The first loop of [unmarshalComposite], from index [i] on. *)
Fixpoint unmarshalFields (depth : nat) (i : Z) (fields : list unmarshalField)
    (r : reader) (st : store) : reader * store * option error :=
  match fields with
  | [] => (r, st, None)
  | f :: fields' =>
      match unmarshal depth r (load st (field f)) with
      | (r, s, _, Some e) =>
          (r, <[field f := s]> st,
           Some (errorWrapf e "unmarshaling field %d" [i]))
      | (r, s, null, None) =>
          let st := <[field f := s]> st in
          match (if null then handleNull f else None) with
          | Some h =>
              match h st with
              | (st, Some e) => (r, st, Some e)
              | (st, None) => unmarshalFields depth (i + 1) fields' r st
              end
          | None => unmarshalFields depth (i + 1) fields' r st
          end
      end
  end.

(** The second loop: the null handlers of the fields that were not sent. *)
Fixpoint handleNulls (fields : list unmarshalField) (st : store)
  : store * option error :=
  match fields with
  | [] => (st, None)
  | f :: fields' =>
      match handleNull f with
      | Some h =>
          match h st with
          | (st, Some e) => (st, Some e)
          | (st, None) => handleNulls fields' st
          end
      | None => handleNulls fields' st
      end
  end.

Definition unmarshalComposite (depth : nat) (r : reader) (typ : amqpType)
    (fields : list unmarshalField) (st : store) : reader * store * option error :=
  match readCompositeHeader r with
  | (r, _, Some e) => (r, st, Some e)
  | (r, (t, numFields), None) =>
      (* check type matches expectation *)
      if negb (Byte.eqb t typ) then
        (r, st, Some (errorErrorf "invalid header %#0x for %#0x"
                                  [byte_to_Z t; byte_to_Z typ]))
      else if len fields <? numFields then
        (r, st, Some (errorErrorf "invalid field count %d for %#0x"
                                  [numFields; byte_to_Z typ]))
      else
        match unmarshalFields depth 0 (take (Z.to_nat numFields) fields) r st with
        | (r, st, Some e) => (r, st, Some e)
        | (r, st, None) =>
            let '(st, err) := handleNulls (drop (Z.to_nat numFields) fields) st in
            (r, st, err)
        end
  end.

(** ** Encoding

    A [writer] is a [*bytes.Buffer]: the octets written so far.  Its
    [Write] and [WriteByte] never return an error, so the only errors are
    those the encoder raises itself. *)
Definition writer : Type := list byte.

(** [binary.Write(wr, binary.BigEndian, v)] for an integer of [n] octets. *)
Definition binary_Write (wr : writer) (n : nat) (v : Z) : writer :=
  bytes.Write wr (binary.BigEndian_PutUint n v).

Definition writeSymbol (wr : writer) (sym : list byte) (typ : amqpType)
  : writer * option error :=
  if negb (utf8.ValidString sym) then
    (wr, Some (errorNew "not a valid UTF-8 string"))
  else
    let l := len sym in
    match typ with
    | xa3 (* Sym8 *) =>
        (bytes.Write (bytes.WriteByte wr (byte_of_Z l)) sym, None)
    | xb3 (* Sym32 *) =>
        (bytes.Write (binary_Write wr 4 (uint32 l)) sym, None)
    | _ => (wr, Some (errorNew "invalid symbol type"))
    end.

Definition writeString (wr : writer) (str : list byte) : writer * option error :=
  if negb (utf8.ValidString str) then
    (wr, Some (errorNew "not a valid UTF-8 string"))
  else
    let l := len str in
    (* Str8 *)
    if l <? 256 then
      (bytes.Write wr ([typeCodeStr8; byte_of_Z l] ++ str), None)
    (* Str32 *)
    else if l <? math.MaxUint32 then
      let wr := bytes.WriteByte wr typeCodeStr32 in
      let wr := binary_Write wr 4 (uint32 l) in
      (bytes.Write wr str, None)
    else (wr, Some (errorNew "too long")).

Definition writeBinary (wr : writer) (bin : list byte) : writer * option error :=
  let l := len bin in
  if l <? 256 then
    (bytes.Write wr ([typeCodeVbin8; byte_of_Z l] ++ bin), None)
  else if l <? math.MaxUint32 then
    let wr := bytes.WriteByte wr typeCodeVbin32 in
    let wr := binary_Write wr 4 (uint32 l) in
    (bytes.Write wr bin, None)
  else (wr, Some (errorNew "too long")).

(** [size] is the sum of the lengths of the fields. *)
Definition fieldsSize (fields : list (list byte)) : Z :=
  fold_left (fun size field => size + len field) fields 0.

Definition writeSlice (wr : writer) (isArray : bool) (of_ : amqpType)
    (fields : list (list byte)) : writer * option error :=
  let size := fieldsSize fields in
  let size8 := if isArray then typeCodeArray8 else typeCodeList8 in
  let size32 := if isArray then typeCodeArray32 else typeCodeList32 in
  let l := len fields in
  let body (wr : writer) : writer * option error :=
    let wr := if isArray then bytes.WriteByte wr of_ else wr in
    (* Write fields *)
    (fold_left (fun wr field => bytes.Write wr field) fields wr, None) in
  (* list0 *)
  if l =? 0 then
    if isArray then (wr, Some (errorNew "invalid array length 0"))
    else (bytes.WriteByte wr typeCodeList0, None)
  (* list8 *)
  else if (l <? 256) && (size <? 256) then
    body (bytes.Write wr [size8; byte_of_Z (size + 1); byte_of_Z l])
  (* list32 *)
  else if (l <? math.MaxUint32) && (size <? math.MaxUint32) then
    let wr := bytes.WriteByte wr size32 in
    let wr := binary_Write wr 4 (uint32 (size + 4)) in
    let wr := binary_Write wr 4 (uint32 l) in
    body wr
  else (wr, Some (errorNew "too many fields")).

Definition writeArray (wr : writer) (of_ : amqpType) (fields : list (list byte))
  : writer * option error :=
  writeSlice wr true of_ fields.

Definition writeList (wr : writer) (fields : list (list byte))
  : writer * option error :=
  writeSlice wr false x00 fields.

(** The second loop of [writeSymbolArray]: every symbol is encoded into the
    scratch buffer and copied to [elems]. *)
Fixpoint symbolElems (symbols : list (list byte)) (ofType : amqpType)
    (elems : list (list byte)) : list (list byte) * option error :=
  match symbols with
  | [] => (elems, None)
  | symbol :: symbols' =>
      match writeSymbol [] symbol ofType with
      | (_, Some e) => (elems, Some e)
      | (buf, None) => symbolElems symbols' ofType (elems ++ [buf])
      end
  end.

Definition writeSymbolArray (w : writer) (symbols : list (list byte))
  : writer * option error :=
  let ofType :=
    if existsb (fun symbol => math.MaxUint8 <? len symbol) symbols
    then typeCodeSym32 else typeCodeSym8 in
  match symbolElems symbols ofType [] with
  | (_, Some e) => (w, Some e)
  | (elems, None) => writeArray w ofType elems
  end.

Definition Symbol_marshal (s : list byte) (wr : writer) : writer * option error :=
  let l := len s in
  if l <? 256 then
    (bytes.Write wr ([typeCodeSym8; byte_of_Z l] ++ s), None)
  else if l <? math.MaxUint32 then
    (bytes.Write (binary_Write wr 4 (uint32 l)) s, None)
  else (wr, Some (errorNew "too long")).

(** The values [marshal] is called on. *)
Inductive value : Type :=
  (* Symbol and milliseconds, the marshalers of this file *)
  | v_Symbol (s : list byte)
  | v_milliseconds (m : Z)
  (* any other marshaler, given by what it writes and returns *)
  | v_marshaler (out : list byte) (err : option error)
  | v_bool (t : bool)
  | v_uint64 (t : Z)
  | v_uint32 (t : Z)
  | v_ptr_uint32 (t : option Z)
  | v_uint16 (t : Z)
  | v_uint8 (t : Z)
  | v_Symbols (t : list (list byte))
  | v_string (t : list byte)
  | v_bytes (t : list byte)
  | v_unsupported.

(** [milliseconds.marshal] calls [marshal] again, on a [uint32]; that case
    of the switch is [marshal_uint32]. *)
Definition marshal_uint32 (wr : writer) (t : Z) : writer * option error :=
  if t =? 0 then (bytes.WriteByte wr typeCodeUint0, None)
  else (binary_Write (bytes.WriteByte wr typeCodeUint) 4 t, None).

Definition milliseconds_marshal (m : Z) (wr : writer) : writer * option error :=
  marshal_uint32 wr (uint32 (Z.quot m 1000000)).

Definition marshal (wr : writer) (i : value) : writer * option error :=
  match i with
  (* case marshaler *)
  | v_Symbol s => Symbol_marshal s wr
  | v_milliseconds m => milliseconds_marshal m wr
  | v_marshaler out err => (bytes.Write wr out, err)
  | v_bool t =>
      if t then (bytes.WriteByte wr typeCodeBoolTrue, None)
      else (bytes.WriteByte wr typeCodeBoolFalse, None)
  | v_uint64 t =>
      if t =? 0 then (bytes.WriteByte wr typeCodeUlong0, None)
      else (binary_Write (bytes.WriteByte wr typeCodeUlong) 8 t, None)
  | v_uint32 t => marshal_uint32 wr t
  | v_ptr_uint32 None => (bytes.WriteByte wr typeCodeNull, None)
  | v_ptr_uint32 (Some t) => marshal_uint32 wr t
  | v_uint16 t => (binary_Write (bytes.WriteByte wr typeCodeUshort) 2 t, None)
  | v_uint8 t => (bytes.Write wr [typeCodeUbyte; byte_of_Z t], None)
  | v_Symbols t => writeSymbolArray wr t
  | v_string t => writeString wr t
  | v_bytes t => writeBinary wr t
  | v_unsupported => (wr, Some (errorErrorf "marshal not implemented for %T" []))
  end.

Definition writeMapHeader (wr : writer) (elements : Z) : writer * option error :=
  if elements <? math.MaxUint8 then
    (bytes.WriteByte (bytes.WriteByte wr typeCodeMap8) (byte_of_Z elements), None)
  else
    (binary_Write (bytes.WriteByte wr typeCodeMap32) 4 (uint32 elements), None).

Definition writeMapElement (wr : writer) (key value : value)
  : writer * option error :=
  match marshal wr key with
  | (wr, Some e) => (wr, Some e)
  | (wr, None) => marshal wr value
  end.

Record marshalField : Type := mkMarshalField {
  mf_value : value;
  omit : bool
}.

(** The first loop of [marshalComposite], from index [i] on: [rawFields]
    and [lastSetIdx] as they are after it.  A nil slice is the empty list
    (what is stored in [rawFields] is nil or not empty). *)
Fixpoint marshalFields (i : nat) (fields : list marshalField)
    (rawFields : list (list byte)) (lastSetIdx : Z)
  : list (list byte) * Z * option error :=
  match fields with
  | [] => (rawFields, lastSetIdx, None)
  | f :: fields' =>
      if omit f then marshalFields (S i) fields' rawFields lastSetIdx
      else
        match marshal [] (mf_value f) with
        | (_, Some e) => (rawFields, lastSetIdx, Some e)
        | (buf, None) =>
            marshalFields (S i) fields' (<[i := buf]> rawFields) (Z.of_nat i)
        end
  end.

(** The second loop: write null to each index up to [lastSetIdx]. *)
Definition writeNulls (rawFields : list (list byte)) (lastSetIdx : Z)
  : list (list byte) :=
  fold_left
    (fun rawFields i =>
       match rawFields !! i with
       | Some [] => <[i := [typeCodeNull]]> rawFields
       | _ => rawFields
       end)
    (seq 0 (Z.to_nat (lastSetIdx + 1))) rawFields.

Definition marshalComposite (wr : writer) (code : amqpType)
    (fields : list marshalField) : writer * option error :=
  match marshalFields 0 fields (replicate (length fields) []) (-1) with
  | (_, _, Some e) => (wr, Some e)
  | (rawFields, lastSetIdx, None) =>
      let rawFields := writeNulls rawFields lastSetIdx in
      (* write header *)
      let wr := bytes.Write wr [x00; typeCodeSmallUlong; code] in
      (* write fields *)
      writeList wr (take (Z.to_nat (lastSetIdx + 1)) rawFields)
  end.

(** ** What [marshalComposite] is expected to emit *)

(** [k] is the highest index of a non-omitted field, [-1] when every field
    is omitted. *)
Definition isLastSetIdx (fields : list marshalField) (k : Z) : Prop :=
  (forall (i : nat) (f : marshalField),
     fields !! i = Some f -> omit f = false -> Z.of_nat i <= k) /\
  (k = -1 \/
   exists (i : nat) (f : marshalField),
     fields !! i = Some f /\ omit f = false /\ k = Z.of_nat i).

(** A field that is nil in [rawFields] becomes the Null octet. *)
Definition nonNil (raw : list byte) : list byte :=
  match raw with
  | [] => [typeCodeNull]
  | _ => raw
  end.

(** The list element of a field up to [lastSetIdx]: Null when the field is
    omitted, else its encoding. *)
Definition fieldElement (f : marshalField) : list byte :=
  if omit f then [typeCodeNull] else nonNil (fst (marshal [] (mf_value f))).

(** [rawFields[i]] after the first loop of [marshalComposite]. *)
Definition rawOf (f : marshalField) : list byte :=
  if omit f then [] else fst (marshal [] (mf_value f)).

(** [lastSetIdx] after the first loop, run from index [i] on. *)
Fixpoint lastFrom (i : nat) (fields : list marshalField) (last : Z) : Z :=
  match fields with
  | [] => last
  | f :: fields' => lastFrom (S i) fields' (if omit f then last else Z.of_nat i)
  end.

(** ** The call depth a sink needs *)

(** [unmarshal] re-enters itself once for a map or for [milliseconds] and
    once for every pointer it follows. *)
Fixpoint sink_depth (i : sink) : nat :=
  match i with
  | ptr_nil fresh => S (sink_depth fresh)
  | ptr_to p => S (sink_depth p)
  | ptr_milliseconds _ | ptr_mapAnyAny _ | ptr_mapStringAny _
  | ptr_mapSymbolAny _ => 1
  | _ => 0
  end.

(** ** Notions used to state round trips *)

(** The buffer [b] after [k] more octets have been read. *)
Definition advance (b : bytes.Buffer) (k : nat) : bytes.Buffer :=
  bytes.mkBuffer (bytes.buf b) (bytes.off b + k) true.

(** [decodes f enc v]: on any buffer whose unread octets begin with [enc],
    the reader function [f] returns [v] without an error and consumes
    exactly [enc]. *)
Definition decodes {A : Type} (f : reader -> reader * A * option error)
    (enc : list byte) (v : A) : Prop :=
  forall (b : bytes.Buffer) (rest : list byte),
    bytes.Bytes b = enc ++ rest ->
    exists b' : bytes.Buffer,
      f (BufferReader b) = (BufferReader b', v, None) /\
      bytes.Bytes b' = rest.

(** [unmarshals enc old new]: on any buffer whose unread octets begin with
    [enc], the top-level [unmarshal] into the sink [old] succeeds without
    the null indicator, leaves [new] in the sink and consumes exactly
    [enc]. *)
Definition unmarshals (enc : list byte) (old new : sink) : Prop :=
  forall (depth : nat) (b : bytes.Buffer) (rest : list byte),
    bytes.Bytes b = enc ++ rest ->
    exists b' : bytes.Buffer,
      unmarshal (S depth) (BufferReader b) old
      = (BufferReader b', new, false, None) /\
      bytes.Bytes b' = rest.

(** The sinks whose readers signal a null value: the unsigned integers,
    booleans and timestamps. *)
Definition signalsNull (i : sink) : bool :=
  match i with
  | ptr_uint64 _ | ptr_uint32 _ | ptr_uint16 _ | ptr_uint8 _
  | ptr_bool _ | ptr_Time _ => true
  | _ => false
  end.


(** The element of a symbol array as [writeSymbol] writes it: the length,
    in one octet for Sym8 and in four for Sym32, and the octets of the
    symbol. *)
Definition symbolElem (ofType : amqpType) (sym : list byte) : list byte :=
  (if Byte.eqb ofType typeCodeSym8 then [byte_of_Z (len sym)]
   else binary.BigEndian_PutUint 4 (uint32 (len sym))) ++ sym.

(** A composite of [uint32] fields: every cell is the value of the field,
    its omit flag, and the value of the caller's variable before
    decoding. *)
Definition cellField (c : Z * bool * Z) : marshalField :=
  mkMarshalField (v_uint32 (fst (fst c))) (snd (fst c)).

Definition cellOld (c : Z * bool * Z) : sink := ptr_uint32 (snd c).

Definition cellNew (c : Z * bool * Z) : sink :=
  ptr_uint32 (if snd (fst c) then snd c else fst (fst c)).

(** The schema of [n] fields without null handlers, field [p] pointing to
    variable [p]. *)
Definition plainSchema (first n : nat) : list unmarshalField :=
  map (fun p => mkUnmarshalField p None) (seq first n).

(** ** Readers around a buffer *)

(** The buffer at the bottom of a reader. *)
Fixpoint bufferOf (r : reader) : bytes.Buffer :=
  match r with
  | BufferReader b => b
  | limitReader inner _ _ => bufferOf inner
  end.

(** The limits of the bounded readers around the buffer, outermost
    first. *)
Fixpoint limitsOf (r : reader) : list Z :=
  match r with
  | BufferReader _ => []
  | limitReader inner limit _ => limit :: limitsOf inner
  end.

(** No bounded reader around the buffer has reached its limit. *)
Fixpoint belowLimit (r : reader) : Prop :=
  match r with
  | BufferReader _ => True
  | limitReader inner limit read => read < limit /\ belowLimit inner
  end.

(** ** Null handlers in sequence *)

(** The null handlers of a schema, in the order of its fields. *)
Definition nullHandlers (fields : list unmarshalField) : list nullHandler :=
  omap handleNull fields.

(** The store after the first [j] of the handlers [hs] have run one after
    the other, each on the store the one before it left. *)
Definition afterHandlers (hs : list nullHandler) (j : nat) (st : store)
  : store :=
  fold_left (fun st h => fst (h st)) (take j hs) st.

(** * Properties *)

(** ** Octets *)

Lemma byte_to_Z_range (b : byte) : 0 <= byte_to_Z b <= 255.
Proof.
  unfold byte_to_Z. pose proof (Byte.to_N_bounded b). lia.
Qed.

Lemma byte_to_of_Z (z : Z) : 0 <= z < 256 -> byte_to_Z (byte_of_Z z) = z.
Proof.
  intros Hz. unfold byte_to_Z, byte_of_Z.
  rewrite Z.mod_small by lia.
  destruct (Byte.of_N (Z.to_N z)) as [b|] eqn:E.
  - apply Byte.to_of_N in E. lia.
  - pose proof (Byte.to_of_N_option_map (Z.to_N z)) as H.
    rewrite E in H. simpl in H.
    destruct (N.leb_spec (Z.to_N z) 255); [discriminate | lia].
Qed.

Lemma int_byte_to_Z (b : byte) : int (byte_to_Z b) = byte_to_Z b.
Proof.
  pose proof (byte_to_Z_range b) as H. unfold int, signed.
  rewrite Z.mod_small by lia.
  destruct (Z.ltb_spec (byte_to_Z b) (2 ^ (64 - 1))); lia.
Qed.

(** ** The bounds of the model are never reached

    The loop of [io.ReadAtLeast], the loop of the map decoders and the
    recursion of [unmarshal] are bounded in the model.  The bounds are
    large enough: the loops end by their own condition, and the result of
    [unmarshal] does not depend on the depth once it exceeds
    [sink_depth]. *)

Lemma Read_le (r : reader) :
  forall (n : nat) (r' : reader) (data : list byte) (err : option error),
    Read r n = (r', data, err) -> (length data <= n)%nat.
Proof.
  induction r as [b | inner IH limit read]; intros n r' data err H.
  - simpl in H. unfold bytes.Read in H.
    destruct (bytes.empty b).
    + destruct (n =? 0)%nat; injection H as _ <- _; simpl; lia.
    + injection H as _ <- _. rewrite length_take. lia.
  - simpl in H. destruct (limit <=? read).
    + injection H as _ <- _. simpl. lia.
    + destruct (Read inner n) as [[inner' d] e] eqn:Hr.
      injection H as _ <- _. eapply IH; eauto.
Qed.

Lemma Read_progress (r : reader) :
  forall (n : nat) (r' : reader) (data : list byte),
    Read r n = (r', data, None) -> (0 < n)%nat -> (0 < length data)%nat.
Proof.
  induction r as [b | inner IH limit read]; intros n r' data H Hn.
  - simpl in H. unfold bytes.Read in H.
    destruct (bytes.empty b) eqn:He.
    + destruct (Nat.eqb_spec n 0); [lia | discriminate].
    + injection H as _ <-.
      unfold bytes.empty in He. apply Nat.leb_gt in He.
      rewrite length_take, length_drop. lia.
  - simpl in H. destruct (limit <=? read); [discriminate |].
    destruct (Read inner n) as [[inner' d] err] eqn:Hr.
    injection H as _ <- ->. eapply IH; eauto.
Qed.

Lemma ReadAtLeast_loop_le (rounds : nat) :
  forall (r r' : reader) (min : nat) (got got' : list byte)
         (err : option error),
    (length got <= min)%nat ->
    io.ReadAtLeast_loop Read rounds r min got = (r', got', err) ->
    (length got' <= min)%nat.
Proof.
  induction rounds as [|rounds IH]; intros r r' min got got' err Hg H.
  - injection H as _ <- _. exact Hg.
  - simpl in H. destruct (Nat.ltb_spec (length got) min) as [Hlt | Hge].
    + destruct (Read r (min - length got)) as [[r1 data] [e|]] eqn:HR.
      * apply Read_le in HR. injection H as _ <- _. rewrite length_app. lia.
      * pose proof (Read_le _ _ _ _ _ HR).
        apply (IH r1 r' min (got ++ data) got' err); [| exact H].
        rewrite length_app. lia.
    + injection H as _ <- _. exact Hg.
Qed.

Lemma ReadAtLeast_loop_full (rounds : nat) :
  forall (r r' : reader) (min : nat) (got got' : list byte),
    (min - length got < rounds)%nat -> (length got <= min)%nat ->
    io.ReadAtLeast_loop Read rounds r min got = (r', got', None) ->
    length got' = min.
Proof.
  induction rounds as [|rounds IH]; intros r r' min got got' Hr Hg H.
  - lia.
  - simpl in H. destruct (Nat.ltb_spec (length got) min) as [Hlt | Hge].
    + destruct (Read r (min - length got)) as [[r1 data] [e|]] eqn:HR;
        [discriminate |].
      pose proof (Read_progress r _ _ _ HR ltac:(lia)) as Hp.
      pose proof (Read_le _ _ _ _ _ HR) as Hle.
      apply (IH r1 r' min (got ++ data) got'); [| | exact H];
        rewrite length_app; lia.
    + injection H as _ <-. lia.
Qed.

(** [io.ReadFull] returns without an error exactly when it has read all
    the octets asked for: the rounds of the loop are never used up. *)
Lemma ReadFull_length (r r' : reader) (n : nat) (got : list byte)
    (err : option error) :
  io.ReadFull Read r n = (r', got, err) ->
  (err = None /\ length got = n) \/ (err <> None /\ (length got < n)%nat).
Proof.
  unfold io.ReadFull.
  destruct (io.ReadAtLeast_loop Read (S n) r n []) as [[r1 g] e] eqn:HL.
  assert (Hle : (length g <= n)%nat).
  { eapply ReadAtLeast_loop_le; [| exact HL]. simpl. lia. }
  destruct (Nat.leb_spec n (length g)) as [Hge | Hlt].
  - intros [= _ <- <-]. left. split; [reflexivity | lia].
  - destruct e as [e|].
    + intros H. right.
      assert (got = g /\ err <> None) as [-> He].
      { destruct e;
          try (injection H as _ <- <-; split; [reflexivity | discriminate]).
        destruct (0 <? length g)%nat; injection H as _ <- <-;
          (split; [reflexivity | discriminate]). }
      split; [exact He | exact Hlt].
    + assert (length g = n); [| lia].
      eapply ReadAtLeast_loop_full; [| | exact HL]; simpl; lia.
Qed.

Section Rounds.
Variable u : reader -> sink -> unmarshalResult.

Lemma next_read (mr mr' : mapReader) (key value : sink) (kv : sink * sink) :
  next u mr key value = (mr', kv, None) ->
  mr_count mr' = mr_count mr /\ mr_read mr' = mr_read mr + 2.
Proof.
  unfold next.
  destruct (u (mr_r mr) key) as [[[r1 k1] n1] [e|]]; [discriminate |].
  simpl.
  destruct (u r1 value) as [[[r2 v2] n2] [e|]]; [discriminate |].
  intros [= <- _]. simpl. lia.
Qed.

Lemma mapLoop_done {M : Type} (rounds : nat) :
  forall (mr mr' : mapReader) (key : sink) (accept : sink -> option error)
         (store : sink -> any -> M -> M) (mm mm' : M),
    mr_count mr - mr_read mr <= Z.of_nat rounds ->
    mapLoop u rounds mr key accept store mm = (mr', mm', None) ->
    more mr' = false.
Proof.
  induction rounds as [|rounds IH]; intros mr mr' key accept store mm mm' Hr H.
  - injection H as <- _. unfold more. apply Z.ltb_ge. lia.
  - simpl in H. destruct (more mr) eqn:Hm.
    + unfold try in H.
      destruct (next u mr key (ptr_any any_nil)) as [[mr1 kv] [e|]] eqn:Hn;
        [discriminate |].
      apply next_read in Hn as [Hc Hd].
      destruct (accept (fst kv)); [discriminate |].
      apply IH in H; [exact H | lia].
    + injection H as <- _. exact Hm.
Qed.
End Rounds.

Section Ext.
Variables u1 u2 : reader -> sink -> unmarshalResult.
Variable key : sink.
Hypothesis Hkey : forall r, u1 r key = u2 r key.
Hypothesis Hval : forall r, u1 r (ptr_any any_nil) = u2 r (ptr_any any_nil).

Lemma next_ext (mr : mapReader) :
  next u1 mr key (ptr_any any_nil) = next u2 mr key (ptr_any any_nil).
Proof.
  unfold next. rewrite Hkey.
  destruct (u2 (mr_r mr) key) as [[[r1 k1] n1] [e|]]; [reflexivity |].
  simpl. rewrite Hval. reflexivity.
Qed.

Lemma mapLoop_ext {M : Type} (rounds : nat) :
  forall (mr : mapReader) (accept : sink -> option error)
         (store : sink -> any -> M -> M) (mm : M),
    mapLoop u1 rounds mr key accept store mm
    = mapLoop u2 rounds mr key accept store mm.
Proof.
  induction rounds as [|rounds IH]; intros mr accept store mm; simpl.
  - reflexivity.
  - rewrite next_ext. destruct (more mr); [| reflexivity].
    unfold try.
    destruct (next u2 mr key (ptr_any any_nil)) as [[mr1 kv] [e|]];
      [reflexivity |].
    destruct (accept (fst kv)); [reflexivity | apply IH].
Qed.

Lemma mapUnmarshal_ext {M : Type} (r : reader) (accept : sink -> option error)
    (store : sink -> any -> M -> M) (old empty : M) :
  mapUnmarshal u1 r key accept store old empty
  = mapUnmarshal u2 r key accept store old empty.
Proof.
  unfold mapUnmarshal.
  destruct (newMapReader r) as [[r1 [mr|]] [e|]]; try reflexivity.
  rewrite mapLoop_ext. reflexivity.
Qed.
End Ext.

(** Any two depths above [sink_depth i] give the same result. *)
Lemma unmarshal_depth (d1 : nat) :
  forall (d2 : nat) (r : reader) (i : sink),
    (sink_depth i < d1)%nat -> (sink_depth i < d2)%nat ->
    unmarshal d1 r i = unmarshal d2 r i.
Proof.
  induction d1 as [|d1 IH]; intros d2 r i H1 H2; [lia |].
  destruct d2 as [|d2]; [lia |].
  assert (Hleaf : forall (s : sink) (r0 : reader),
            sink_depth s = 0%nat -> (0 < d1)%nat -> (0 < d2)%nat ->
            unmarshal d1 r0 s = unmarshal d2 r0 s).
  { intros s r0 Hs Hd1 Hd2. apply IH; lia. }
  destruct i; simpl in H1, H2; simpl; try reflexivity.
  - unfold mapAnyAny_unmarshal.
    rewrite (mapUnmarshal_ext (unmarshal d1) (unmarshal d2)); [reflexivity | |];
      intros r0; apply Hleaf; simpl; lia.
  - unfold mapStringAny_unmarshal.
    rewrite (mapUnmarshal_ext (unmarshal d1) (unmarshal d2)); [reflexivity | |];
      intros r0; apply Hleaf; simpl; lia.
  - unfold mapSymbolAny_unmarshal.
    rewrite (mapUnmarshal_ext (unmarshal d1) (unmarshal d2)); [reflexivity | |];
      intros r0; apply Hleaf; simpl; lia.
  - unfold milliseconds_unmarshal.
    rewrite (Hleaf (ptr_uint32 0)) by (simpl; lia). reflexivity.
  - rewrite (IH d2 r i) by lia. reflexivity.
  - rewrite (IH d2 r i) by lia. reflexivity.
Qed.

(** ** Null into a typed or a dynamic sink *)

(** C5: when the next octet of the input is the Null code 0x40, the
    top-level [unmarshal] into a pointer to uint8, uint16, uint32 or uint64
    returns null = true and err = nil, and the value the pointer points to
    is unchanged, whatever it was. *)
Theorem unmarshal_null_uint (depth : nat) (r r' : reader) (v : Z) :
  ReadByte r = (r', typeCodeNull, None) ->
  unmarshal (S depth) r (ptr_uint8 v) = (r', ptr_uint8 v, true, None) /\
  unmarshal (S depth) r (ptr_uint16 v) = (r', ptr_uint16 v, true, None) /\
  unmarshal (S depth) r (ptr_uint32 v) = (r', ptr_uint32 v, true, None) /\
  unmarshal (S depth) r (ptr_uint64 v) = (r', ptr_uint64 v, true, None).
Proof.
  intros Hb.
  assert (Hu : readUint r = (r', 0, Some errNull)).
  { unfold readUint, try. rewrite Hb. reflexivity. }
  repeat split; simpl; rewrite Hu; reflexivity.
Qed.

Lemma unmarshal_null_uint_witness :
  let r := BufferReader (bytes.NewBuffer [x40; x01]) in
  let r' := BufferReader (bytes.mkBuffer [x40; x01] 1 true) in
  ReadByte r = (r', typeCodeNull, None) /\
  unmarshal 1 r (ptr_uint16 7) = (r', ptr_uint16 7, true, None).
Proof.
  split; [reflexivity |].
  apply (unmarshal_null_uint 0 _ _ 7). reflexivity.
Defined.

(** C10: when the sink is a pointer to [interface{}] and the next octet is
    the Null code 0x40, [readAny] consumes that octet and [unmarshal]
    returns err = nil with null = false and stores nil in the sink: the
    dynamic decoder does not raise the null indicator. *)
Theorem unmarshal_null_any (depth : nat) (r r' : reader) (v : any) :
  ReadByte r = (r', typeCodeNull, None) ->
  readAny r = (r', any_nil, None) /\
  unmarshal (S depth) r (ptr_any v) = (r', ptr_any any_nil, false, None).
Proof.
  intros Hb.
  assert (Ha : readAny r = (r', any_nil, None)).
  { unfold readAny, try. rewrite Hb. reflexivity. }
  split; [exact Ha |]. simpl. rewrite Ha. reflexivity.
Qed.

Lemma unmarshal_null_any_witness :
  let r := BufferReader (bytes.NewBuffer [x40; x01]) in
  let r' := BufferReader (bytes.mkBuffer [x40; x01] 1 true) in
  ReadByte r = (r', typeCodeNull, None) /\
  unmarshal 1 r (ptr_any (any_bool true)) = (r', ptr_any any_nil, false, None).
Proof.
  split; [reflexivity |].
  apply (unmarshal_null_any 0 _ _ (any_bool true)). reflexivity.
Defined.

(** ** Composites with more fields than the schema *)

(** C8: if the field count declared in the list header of the composite
    exceeds the number of fields the caller supplied, [unmarshalComposite]
    returns an error; the reader is left just behind the header and the
    caller's variables are as they were: no field is unmarshaled and no
    null handler runs.  The same holds when the header itself cannot be
    read. *)
Theorem unmarshalComposite_too_many_fields (depth : nat) (r r' : reader)
    (typ : amqpType) (fields : list unmarshalField) (st : store) :
  (forall (t : amqpType) (numFields : Z),
     readCompositeHeader r = (r', (t, numFields), None) ->
     len fields < numFields ->
     exists e, unmarshalComposite depth r typ fields st = (r', st, Some e)) /\
  (forall (h : amqpType * Z) (e : error),
     readCompositeHeader r = (r', h, Some e) ->
     unmarshalComposite depth r typ fields st = (r', st, Some e)).
Proof.
  split.
  - intros t numFields Hh Hn. unfold unmarshalComposite. rewrite Hh.
    destruct (negb (Byte.eqb t typ)); [eauto |].
    destruct (Z.ltb_spec (len fields) numFields); [eauto | lia].
  - intros [t numFields] e Hh. unfold unmarshalComposite. rewrite Hh.
    reflexivity.
Qed.

(** A composite that declares two fields, decoded with a schema of one. *)
Lemma unmarshalComposite_too_many_fields_witness :
  let r := BufferReader
             (bytes.NewBuffer [x00; x53; x10; xc0; x03; x02; x41; x42]) in
  exists e,
    unmarshalComposite 2 r x10 [mkUnmarshalField 0 None] [ptr_bool false]
    = (BufferReader
         (bytes.mkBuffer [x00; x53; x10; xc0; x03; x02; x41; x42] 6 true),
       [ptr_bool false], Some e).
Proof.
  apply (proj1 (unmarshalComposite_too_many_fields 2 _ _ x10 _ _) x10 2).
  - reflexivity.
  - reflexivity.
Defined.

Arguments binary.BigEndian_Uint : simpl never.

(** ** The map writer *)

(** C1 (does not hold): the map writer, called as a map marshaler calls it
    on the map with the entries "a": true and "b": false ([writeMapHeader]
    with element count 4, then [writeMapElement] for each pair), produces
    the ten octets c1 04 a1 01 61 41 a1 01 62 42.  [writeMapHeader] writes
    the Map8 code and the count and no size octet, so the result is not
    c1 0b 04 a1 01 61 41 a1 01 62 42; [newMapReader], which expects the
    size before the count, reads the output as a map of declared size 4
    with 161 elements. *)
Theorem writeMap_omits_size :
  exists w1 w2 w3 : writer,
    writeMapHeader [] 4 = (w1, None) /\
    writeMapElement w1 (v_string [x61]) (v_bool true) = (w2, None) /\
    writeMapElement w2 (v_string [x62]) (v_bool false) = (w3, None) /\
    w3 = [xc1; x04; xa1; x01; x61; x41; xa1; x01; x62; x42] /\
    w3 <> [xc1; x0b; x04; xa1; x01; x61; x41; xa1; x01; x62; x42] /\
    exists r' mr,
      newMapReader (BufferReader (bytes.NewBuffer w3)) = (r', Some mr, None) /\
      mr_r mr = limitReader r' 4 0 /\ mr_count mr = 161.
Proof.
  eexists _, _, _.
  split; [reflexivity |]. split; [reflexivity |]. split; [reflexivity |].
  split; [reflexivity |]. split; [discriminate |].
  eexists _, _. split; [reflexivity |]. split; reflexivity.
Qed.

(** ** The size octet of the 8-bit list and array headers *)

(** C2 (does not hold): for the list of 255 one-octet fields, of total
    payload 255, [writeSlice] chooses List8 and writes the size octet
    [uint8(255 + 1)], which is 0x00, in front of the count octet 0xff and
    the 255 octets of the fields: 256 octets follow a size octet that says
    0.  For an array the size octet is payload + 1 as well, while the
    count, the element type code and the payload follow it: the array of
    the one symbol "a" gets the size octet 3 with 4 octets behind it. *)
Theorem writeSlice_size8_at_255 :
  (exists rest : list byte,
     writeSlice [] false x00 (replicate 255 [x40])
     = (typeCodeList8 :: x00 :: rest, None) /\
     rest = xff :: replicate 255 x40 /\
     len rest = 256 /\
     byte_of_Z (fieldsSize (replicate 255 [x40]) + 1) = x00) /\
  (exists rest : list byte,
     writeSymbolArray [] [[x61]] = (typeCodeArray8 :: x03 :: rest, None) /\
     rest = [x01; xa3; x01; x61] /\
     fieldsSize [[x01; x61]] + 1 = 3 /\
     len rest = 4).
Proof.
  split.
  - eexists. split; [vm_compute; reflexivity |].
    split; [reflexivity |]. split; vm_compute; reflexivity.
  - eexists. split; [vm_compute; reflexivity |].
    split; [reflexivity |]. split; reflexivity.
Qed.

(** ** The bounded reader of a map *)

(** C3 (does not hold): the map c1 05 02 a1 01 61 a1 02 62 63 declares a
    size of 5 and two elements; its entries, the strings "a" and "bc", take
    7 octets.  Decoding it into a [map[string]interface{}] succeeds with
    the entry "a": "bc" and consumes all 7 octets, the two beyond the
    declared size included: there is no limit-reached error.  On the way
    the [limitReader] counts 3 octets read, those of the two [Read] calls;
    the four octets taken by [ReadByte] pass it by. *)
Theorem limitReader_lets_map_overrun :
  let data := [xc1; x05; x02; xa1; x01; x61; xa1; x02; x62; x63] in
  let r := BufferReader (bytes.NewBuffer data) in
  (exists r0 mr mr',
     newMapReader r = (r0, Some mr, None) /\
     mr_r mr = limitReader r0 5 0 /\ Len r0 = 7 /\
     next (unmarshal 1) mr (ptr_string []) (ptr_any any_nil)
     = (mr', (ptr_string [x61], ptr_any (any_string [x62; x63])), None) /\
     mr_r mr' = limitReader (BufferReader (bytes.mkBuffer data 10 true)) 5 3) /\
  unmarshal 2 r (ptr_mapStringAny [])
  = (BufferReader (bytes.mkBuffer data 10 true),
     ptr_mapStringAny [([x61], any_string [x62; x63])], false, None).
Proof.
  split.
  - eexists _, _, _. split; [reflexivity |]. split; [reflexivity |].
    split; [reflexivity |]. split; reflexivity.
  - reflexivity.
Qed.

(** [ReadByte] on a [limitReader] is the wrapped reader's [ReadByte]: it
    neither consults nor advances the count of octets read. *)
Lemma limitReader_ReadByte (inner : reader) (limit read : Z) :
  ReadByte (limitReader inner limit read) =
  let '(inner', c, err) := ReadByte inner in
  (limitReader inner' limit read, c, err).
Proof. reflexivity. Qed.

(** ** Timestamps *)

Lemma BigEndian_Uint_from (bs : list byte) (acc : Z) :
  0 <= acc -> 0 <= fold_left (fun acc b => acc * 256 + byte_to_Z b) bs acc.
Proof.
  revert acc. induction bs as [|b bs IH]; intros acc Ha; simpl.
  - exact Ha.
  - apply IH. pose proof (byte_to_Z_range b). lia.
Qed.

Lemma BigEndian_Uint_nonneg (bs : list byte) : 0 <= binary.BigEndian_Uint bs.
Proof. apply BigEndian_Uint_from. lia. Qed.

Lemma int64_small (z : Z) : 0 <= z < 2 ^ 63 -> int64 z = z.
Proof.
  intros Hz. unfold int64, signed.
  change (2 ^ (64 - 1)) with (2 ^ 63).
  rewrite Z.mod_small by (change (2 ^ 64) with (2 * 2 ^ 63); lia).
  destruct (Z.ltb_spec z (2 ^ 63)); lia.
Qed.

Arguments time.Unix : simpl never.
Arguments int64 : simpl never.

(** For a count that is not negative the instant is the one asked for. *)
Lemma readTimestamp_nonnegative (b7 b6 b5 b4 b3 b2 b1 b0 : byte)
    (rest : list byte) :
  let data := x83 :: b7 :: b6 :: b5 :: b4 :: b3 :: b2 :: b1 :: b0 :: rest in
  let n := binary.BigEndian_Uint [b7; b6; b5; b4; b3; b2; b1; b0] in
  n < 2 ^ 63 ->
  readTimestamp (BufferReader (bytes.NewBuffer data))
  = (BufferReader (bytes.mkBuffer data 9 true), time.ofMilli n, None).
Proof.
  intros data n Hn.
  pose proof (BigEndian_Uint_nonneg [b7; b6; b5; b4; b3; b2; b1; b0]) as H0.
  fold n in H0.
  unfold readTimestamp, try. cbn. rewrite !take_0. cbn. fold n.
  rewrite (int64_small n) by lia.
  rewrite (int64_small (n mod 1000)).
  - unfold time.ofMilli. rewrite Z.rem_mod_nonneg by lia. reflexivity.
  - pose proof (Z.mod_pos_bound n 1000 ltac:(lia)).
    assert (1000 < 2 ^ 63) by reflexivity. lia.
Qed.

(** C4 (does not hold): the timestamp 83 ff ff ff ff ff ff ff ff carries
    the millisecond count -1.  [readTimestamp] takes the remainder of the
    unsigned value, 18446744073709551615 mod 1000 = 615, and the quotient
    of the signed one, -1 / 1000 = 0, and returns the instant 0.615 s
    after the epoch instead of the instant 1 ms before it. *)
Theorem readTimestamp_negative :
  let data := [x83; xff; xff; xff; xff; xff; xff; xff; xff] in
  exists r' t,
    readTimestamp (BufferReader (bytes.NewBuffer data)) = (r', t, None) /\
    int64 (binary.BigEndian_Uint (drop 1 data)) = -1 /\
    t = time.mkTime 0 615000000 /\
    time.UnixMilli t = 615 /\
    time.ofMilli (-1) = time.mkTime (-1) 999000000 /\
    t <> time.ofMilli (-1).
Proof.
  eexists _, _. split; [vm_compute; reflexivity |].
  split; [vm_compute; reflexivity |]. split; [reflexivity |].
  split; [reflexivity |]. split; [reflexivity |].
  vm_compute. discriminate.
Qed.

(** ** Strings *)

Lemma byte_to_of_Z_mod (z : Z) : byte_to_Z (byte_of_Z z) = z mod 256.
Proof.
  unfold byte_of_Z.
  pose proof (Z.mod_pos_bound z 256 ltac:(lia)) as H.
  pose proof (byte_to_of_Z (z mod 256) H) as H'. unfold byte_of_Z in H'.
  rewrite Z.mod_mod in H' by lia. exact H'.
Qed.

Lemma BigEndian_PutUint32_Uint (v : Z) :
  0 <= v < 2 ^ 32 ->
  binary.BigEndian_Uint (binary.BigEndian_PutUint 4 v) = v.
Proof.
  intros Hv. unfold binary.BigEndian_Uint. simpl.
  rewrite !byte_to_of_Z_mod. rewrite !Z.shiftr_div_pow2 by lia.
  change (2 ^ 24) with 16777216. change (2 ^ 16) with 65536.
  change (2 ^ 8) with 256. change (2 ^ 0) with 1.
  change (2 ^ 32) with 4294967296 in Hv.
  Z.div_mod_to_equations. lia.
Qed.

(** C7 as the claim states it fails: the one-octet string ff is not valid
    UTF-8, and [writeString] returns an error for it although its length
    is below 2^32. *)
Lemma writeString_error_below_limit :
  writeString [] [xff] = ([], Some (errorNew "not a valid UTF-8 string")) /\
  ~ ((exists e, snd (writeString [] [xff]) = Some e) <-> 2 ^ 32 <= len [xff]).
Proof.
  split; [reflexivity |].
  intros [H _].
  assert (Hlen : 2 ^ 32 <= len [xff]) by (apply H; eexists; reflexivity).
  vm_compute in Hlen. apply Hlen. reflexivity.
Qed.

(** C7, amended: [writeString] encodes every valid UTF-8 string of length
    below 256 (255 included) with the Str8 code and a one-octet length,
    every valid UTF-8 string of length from 256 up to below 2^32 - 1 with
    the Str32 code and a four-octet big-endian length, and returns an
    error, writing nothing, whenever the string is not valid UTF-8 or its
    length is at least 2^32. *)
Theorem writeString_variants (wr : writer) (str : list byte) :
  (utf8.ValidString str = true -> len str < 256 ->
   writeString wr str = (wr ++ [typeCodeStr8; byte_of_Z (len str)] ++ str, None)
   /\ byte_to_Z (byte_of_Z (len str)) = len str) /\
  (utf8.ValidString str = true -> 256 <= len str < 2 ^ 32 - 1 ->
   writeString wr str
   = (wr ++ [typeCodeStr32] ++ binary.BigEndian_PutUint 4 (len str) ++ str, None)
   /\ binary.BigEndian_Uint (binary.BigEndian_PutUint 4 (len str)) = len str) /\
  (utf8.ValidString str = false \/ 2 ^ 32 <= len str ->
   exists e, writeString wr str = (wr, Some e)).
Proof.
  unfold writeString, math.MaxUint32.
  change (2 ^ 32) with 4294967296.
  split; [| split].
  - intros Hv Hl. rewrite Hv. simpl. split.
    + destruct (Z.ltb_spec (len str) 256); [reflexivity | lia].
    + apply byte_to_of_Z. unfold len in *. lia.
  - intros Hv Hl. rewrite Hv. simpl. split.
    + destruct (Z.ltb_spec (len str) 256); [lia |].
      destruct (Z.ltb_spec (len str) 4294967295); [| lia].
      unfold binary_Write, bytes.Write, bytes.WriteByte, uint32.
      rewrite Z.mod_small by (change (2 ^ 32) with 4294967296; lia).
      rewrite <- !app_assoc. reflexivity.
    + apply BigEndian_PutUint32_Uint. change (2 ^ 32) with 4294967296. lia.
  - intros [H | H].
    + rewrite H. simpl. eauto.
    + destruct (utf8.ValidString str); simpl; [| eauto].
      destruct (Z.ltb_spec (len str) 256); [lia |].
      destruct (Z.ltb_spec (len str) 4294967295); [lia | eauto].
Qed.

(** The strings of 255 and of 256 letters "a", and the string ff. *)
Lemma writeString_variants_witness :
  (writeString [] (replicate 255 x61)
   = ([xa1; xff] ++ replicate 255 x61, None)) /\
  (writeString [] (replicate 256 x61)
   = ([xb1; x00; x00; x01; x00] ++ replicate 256 x61, None)) /\
  (exists e, writeString [] [xff] = ([], Some e)).
Proof.
  split; [| split].
  - apply (proj1 (writeString_variants [] (replicate 255 x61)));
      vm_compute; reflexivity.
  - apply (proj1 (proj2 (writeString_variants [] (replicate 256 x61)))).
    + vm_compute; reflexivity.
    + split; vm_compute; [discriminate | reflexivity].
  - apply (proj2 (proj2 (writeString_variants [] [xff]))).
    left. reflexivity.
Defined.

(** ** Trailing omitted fields of a composite *)

Lemma marshalFields_ok (fields : list marshalField) :
  forall (done : list (list byte)) (last : Z),
    (forall f, In f fields -> omit f = false ->
               snd (marshal [] (mf_value f)) = None) ->
    marshalFields (length done) fields
                  (done ++ replicate (length fields) []) last
    = (done ++ map rawOf fields, lastFrom (length done) fields last, None).
Proof.
  induction fields as [|f fields IH]; intros done last Hok.
  - reflexivity.
  - assert (Hrest : forall g, In g fields -> omit g = false ->
                              snd (marshal [] (mf_value g)) = None).
    { intros g Hg. apply Hok. right. exact Hg. }
    assert (Hstep : forall (raw : list byte) (last' : Z),
      marshalFields (S (length done)) fields
        (done ++ raw :: replicate (length fields) []) last'
      = (done ++ raw :: map rawOf fields,
         lastFrom (S (length done)) fields last', None)).
    { intros raw last'. specialize (IH (done ++ [raw]) last' Hrest).
      rewrite length_app, <- !app_assoc in IH. simpl in IH.
      rewrite Nat.add_1_r in IH. exact IH. }
    cbn [marshalFields lastFrom map length replicate].
    unfold rawOf at 1. destruct (omit f) eqn:Ho.
    + apply Hstep.
    + specialize (Hok f (or_introl eq_refl) Ho).
      destruct (marshal [] (mf_value f)) as [buf [e|]] eqn:Hm;
        simpl in Hok; [discriminate |].
      rewrite insert_app_r_alt by apply Nat.le_refl.
      rewrite Nat.sub_diag. cbn [fst]. apply Hstep.
Qed.

Lemma lastFrom_bounds (fields : list marshalField) :
  forall (i : nat) (last : Z),
    -1 <= last < Z.of_nat i ->
    -1 <= lastFrom i fields last < Z.of_nat (i + length fields).
Proof.
  induction fields as [|f fields IH]; intros i last Hl; simpl.
  - lia.
  - replace (i + S (length fields))%nat with (S i + length fields)%nat by lia.
    apply IH. destruct (omit f); lia.
Qed.

Lemma lastFrom_ge (fields : list marshalField) :
  forall (i : nat) (last : Z),
    last < Z.of_nat i -> last <= lastFrom i fields last.
Proof.
  induction fields as [|f fields IH]; intros i last Hl; simpl.
  - lia.
  - destruct (omit f).
    + apply IH. lia.
    + specialize (IH (S i) (Z.of_nat i)). lia.
Qed.

Lemma lastFrom_upper (fields : list marshalField) :
  forall (i : nat) (last : Z) (j : nat) (f : marshalField),
    last < Z.of_nat i ->
    fields !! j = Some f -> omit f = false ->
    Z.of_nat (i + j) <= lastFrom i fields last.
Proof.
  induction fields as [|g fields IH]; intros i last j f Hl Hj Ho; simpl.
  - discriminate.
  - destruct j as [|j]; simpl in Hj.
    + injection Hj as ->. rewrite Ho.
      pose proof (lastFrom_ge fields (S i) (Z.of_nat i)). lia.
    + replace (i + S j)%nat with (S i + j)%nat by lia.
      apply (IH (S i) _ j f); [destruct (omit g); lia | exact Hj | exact Ho].
Qed.

Lemma lastFrom_attained (fields : list marshalField) :
  forall (i : nat) (last : Z),
    lastFrom i fields last = last \/
    exists (j : nat) (f : marshalField),
      fields !! j = Some f /\ omit f = false /\
      lastFrom i fields last = Z.of_nat (i + j).
Proof.
  induction fields as [|g fields IH]; intros i last; simpl.
  - left. reflexivity.
  - destruct (IH (S i) (if omit g then last else Z.of_nat i))
      as [E | (j & f & Hj & Ho & E)].
    + destruct (omit g) eqn:Hg.
      * left. exact E.
      * right. exists 0%nat, g. rewrite E, Nat.add_0_r. auto.
    + right. exists (S j), f.
      replace (i + S j)%nat with (S i + j)%nat by lia. auto.
Qed.

Lemma lastFrom_isLastSetIdx (fields : list marshalField) :
  isLastSetIdx fields (lastFrom 0 fields (-1)).
Proof.
  split.
  - intros i f Hi Ho.
    apply (lastFrom_upper fields 0 (-1) i f); [lia | exact Hi | exact Ho].
  - destruct (lastFrom_attained fields 0 (-1)) as [E | (j & f & Hj & Ho & E)].
    + left. exact E.
    + right. exists j, f. auto.
Qed.

Lemma writeNulls_take (raw : list (list byte)) (n : nat) :
  (n <= length raw)%nat ->
  fold_left
    (fun (rawFields : list (list byte)) (i : nat) =>
       match rawFields !! i with
       | Some [] => <[i := [typeCodeNull]]> rawFields
       | _ => rawFields
       end)
    (seq 0 n) raw
  = map nonNil (take n raw) ++ drop n raw.
Proof.
  induction n as [|n IH]; intros Hn.
  - simpl. rewrite drop_0. reflexivity.
  - rewrite seq_S, fold_left_app. rewrite IH. 2:{ lia. } simpl.
    destruct (lookup_lt_is_Some_2 raw n ltac:(lia)) as [x Hx].
    assert (Hlen : length (map nonNil (take n raw)) = n).
    { rewrite length_map, length_take. lia. }
    rewrite (take_S_r raw n x Hx), (drop_S raw x n Hx), map_app.
    rewrite lookup_app_r by lia. rewrite Hlen, Nat.sub_diag. simpl.
    rewrite <- app_assoc. simpl.
    destruct x as [|c x]; [| reflexivity].
    rewrite (insert_app_r_alt (map nonNil (take n raw)) _ n)
      by (rewrite Hlen; apply Nat.le_refl).
    rewrite Hlen, Nat.sub_diag. reflexivity.
Qed.

Lemma map_rawOf_nonNil (fields : list marshalField) :
  map nonNil (map rawOf fields) = map fieldElement fields.
Proof.
  rewrite map_map. apply map_ext. intros f.
  unfold rawOf, fieldElement. destruct (omit f); reflexivity.
Qed.

Lemma marshalComposite_general (wr : writer) (code : amqpType)
    (fields : list marshalField) :
  (forall f, In f fields -> omit f = false ->
             snd (marshal [] (mf_value f)) = None) ->
  let k := lastFrom 0 fields (-1) in
  let elems := map fieldElement (take (Z.to_nat (k + 1)) fields) in
  isLastSetIdx fields k /\
  len elems = k + 1 /\
  marshalComposite wr code fields
  = writeList (wr ++ [x00; typeCodeSmallUlong; code]) elems.
Proof.
  intros Hok k elems.
  pose proof (lastFrom_bounds fields 0 (-1) ltac:(lia)) as Hk. fold k in Hk.
  simpl in Hk.
  split; [apply lastFrom_isLastSetIdx |]. split.
  - unfold elems, len. rewrite length_map, length_take. lia.
  - unfold marshalComposite.
    pose proof (marshalFields_ok fields [] (-1) Hok) as Hm. simpl in Hm.
    rewrite Hm. fold k. unfold writeNulls.
    rewrite writeNulls_take by (rewrite length_map; lia).
    rewrite take_app_le by (rewrite !length_map, length_take, length_map; lia).
    rewrite take_ge by (rewrite !length_map, length_take, length_map; lia).
    rewrite firstn_map, map_rawOf_nonNil. reflexivity.
Qed.

Lemma fieldsSize_from (fields : list (list byte)) (size : Z) :
  fold_left (fun size field => size + len field) fields size
  = size + len (concat fields).
Proof.
  revert size. induction fields as [|f fields IH]; intros size; simpl.
  - unfold len. simpl. lia.
  - rewrite IH. unfold len. rewrite length_app. lia.
Qed.

Lemma fieldsSize_concat (fields : list (list byte)) :
  fieldsSize fields = len (concat fields).
Proof. unfold fieldsSize. rewrite fieldsSize_from. lia. Qed.

Lemma write_fields (fields : list (list byte)) (wr : writer) :
  fold_left (fun wr field => bytes.Write wr field) fields wr
  = wr ++ concat fields.
Proof.
  revert wr. induction fields as [|f fields IH]; intros wr; simpl.
  - rewrite app_nil_r. reflexivity.
  - rewrite IH. unfold bytes.Write. rewrite <- app_assoc. reflexivity.
Qed.

Ltac written :=
  intros [= <-]; rewrite ?write_fields;
  unfold binary_Write, bytes.Write, bytes.WriteByte; simpl; discriminate.

(** Apart from a marshaler of another file, whatever [marshal] encodes
    without an error has at least one octet. *)
Lemma marshal_nonempty (v : value) (e : list byte) :
  (forall out err, v <> v_marshaler out err) ->
  marshal [] v = (e, None) -> e <> [].
Proof.
  intros Hv. destruct v; simpl.
  - unfold Symbol_marshal.
    destruct (len s <? 256); [written |].
    destruct (len s <? math.MaxUint32); [written | discriminate].
  - unfold milliseconds_marshal, marshal_uint32.
    destruct (_ =? 0); written.
  - exfalso. eapply Hv. reflexivity.
  - destruct t; written.
  - destruct (t =? 0); written.
  - unfold marshal_uint32. destruct (t =? 0); written.
  - destruct t as [t|]; [| written].
    unfold marshal_uint32. destruct (t =? 0); written.
  - written.
  - written.
  - unfold writeSymbolArray.
    destruct (symbolElems t _ []) as [elems [err|]]; [discriminate |].
    unfold writeArray, writeSlice.
    destruct (len elems =? 0); [discriminate |].
    destruct (_ && _); [written |].
    destruct (_ && _); [written | discriminate].
  - unfold writeString. destruct (negb _); [discriminate |].
    destruct (len t <? 256); [written |].
    destruct (len t <? math.MaxUint32); [written | discriminate].
  - unfold writeBinary.
    destruct (len t <? 256); [written |].
    destruct (len t <? math.MaxUint32); [written | discriminate].
  - discriminate.
Qed.

(** A list of 1 to 255 fields with a payload below 255 octets: the List8
    header carries the count and the size [payload + 1], which is the
    number of octets behind the size octet. *)
Lemma writeList_size8 (wr : writer) (fields : list (list byte)) :
  0 < len fields < 256 -> fieldsSize fields < 255 ->
  let size := byte_of_Z (fieldsSize fields + 1) in
  let count := byte_of_Z (len fields) in
  writeList wr fields
  = (wr ++ [typeCodeList8; size; count] ++ concat fields, None) /\
  byte_to_Z count = len fields /\
  byte_to_Z size = fieldsSize fields + 1 /\
  byte_to_Z size = len (count :: concat fields).
Proof.
  intros Hl Hs size count.
  assert (H0 : 0 <= fieldsSize fields).
  { rewrite fieldsSize_concat. unfold len. lia. }
  split; [| split; [| split]].
  - unfold writeList, writeSlice.
    destruct (Z.eqb_spec (len fields) 0); [lia |].
    destruct (Z.ltb_spec (len fields) 256); [| lia].
    destruct (Z.ltb_spec (fieldsSize fields) 256); [| lia].
    simpl. rewrite write_fields. unfold bytes.Write.
    rewrite <- app_assoc. reflexivity.
  - apply byte_to_of_Z. lia.
  - apply byte_to_of_Z. lia.
  - unfold size. rewrite byte_to_of_Z by lia.
    rewrite fieldsSize_concat. unfold len. simpl. lia.
Qed.

Lemma marshalComposite_five (wr : writer) (code : amqpType)
    (v0 v1 v2 v3 v4 : value) (e0 e2 : list byte) :
  marshal [] v0 = (e0, None) -> marshal [] v2 = (e2, None) ->
  e0 <> [] -> e2 <> [] ->
  marshalComposite wr code
    [mkMarshalField v0 false; mkMarshalField v1 true; mkMarshalField v2 false;
     mkMarshalField v3 true; mkMarshalField v4 true]
  = writeList (wr ++ [x00; typeCodeSmallUlong; code]) [e0; [typeCodeNull]; e2].
Proof.
  intros H0 H2 N0 N2.
  set (fields := [mkMarshalField v0 false; mkMarshalField v1 true;
                  mkMarshalField v2 false; mkMarshalField v3 true;
                  mkMarshalField v4 true]).
  assert (Hok : forall f, In f fields -> omit f = false ->
                          snd (marshal [] (mf_value f)) = None).
  { intros f [<- | [<- | [<- | [<- | [<- | []]]]]]; simpl; intros Ho;
      try discriminate; [rewrite H0 | rewrite H2]; reflexivity. }
  destruct (marshalComposite_general wr code fields Hok) as (_ & _ & ->).
  simpl. unfold fieldElement. simpl. rewrite H0, H2. simpl.
  destruct e0; [contradiction |]. destruct e2; [contradiction |]. reflexivity.
Qed.

(** ** Test vectors *)

Example encode_End : marshalComposite [] x17 [] = ([x00; x53; x17; x45], None).
Proof. reflexivity. Qed.

Example decode_uint_42 :
  readUint (BufferReader (bytes.NewBuffer [x70; x00; x00; x00; x2a]))
  = (BufferReader (bytes.mkBuffer [x70; x00; x00; x00; x2a] 5 true), 42, None).
Proof. reflexivity. Qed.

Example decode_ulong0 :
  readUint (BufferReader (bytes.NewBuffer [x44; x01]))
  = (BufferReader (bytes.mkBuffer [x44; x01] 1 true), 0, None).
Proof. reflexivity. Qed.

Example decode_null_composite :
  readCompositeHeader (BufferReader (bytes.NewBuffer [x40]))
  = (BufferReader (bytes.mkBuffer [x40] 1 true), (x00, 0), Some errNull).
Proof. reflexivity. Qed.

Example decode_str8_too_long :
  readString (BufferReader (bytes.NewBuffer [xa1; x0a; x61; x62; x63; x64]))
  = (BufferReader (bytes.mkBuffer [xa1; x0a; x61; x62; x63; x64] 2 true), [],
     Some errInvalidLength).
Proof. reflexivity. Qed.

Example encode_empty_list : writeList [] [] = ([x45], None).
Proof. reflexivity. Qed.

Example encode_Open :
  marshalComposite [] x10
    [mkMarshalField (v_string [x63; x2d; x31]) false]
  = ([x00; x53; x10; xc0; x06; x01; xa1; x03; x63; x2d; x31], None).
Proof. reflexivity. Qed.

Example required_field :
  unmarshalComposite 2
    (BufferReader (bytes.NewBuffer [x00; x53; x10; xc0; x02; x01; x40]))
    x10 [mkUnmarshalField 0 (Some (required "Handle"))] [ptr_uint32 0]
  = (BufferReader (bytes.mkBuffer [x00; x53; x10; xc0; x02; x01; x40] 7 true),
     [ptr_uint32 0], Some (errorNew "Handle is required")).
Proof. reflexivity. Qed.

Example limit_reached :
  snd (unmarshal 2
    (BufferReader (bytes.NewBuffer
       [xc1; x05; x02; xa1; x05; x61; x61; x61; x61; x61; xa1; x02; x62; x63]))
    (ptr_mapStringAny []))
  = Some errLimitReached.
Proof. reflexivity. Qed.

(** * Further properties of the codec *)

(** ** Reading from a buffer *)


Lemma Bytes_advance (b : bytes.Buffer) (k : nat) :
  bytes.Bytes (advance b k) = drop k (bytes.Bytes b).
Proof. unfold bytes.Bytes, advance. simpl. rewrite drop_drop. reflexivity. Qed.

Lemma Len_Bytes (b : bytes.Buffer) :
  Len (BufferReader b) = len (bytes.Bytes b).
Proof.
  unfold bytes.Bytes, len. simpl. unfold bytes.Len. rewrite length_drop.
  reflexivity.
Qed.

Lemma ReadByte_Bytes (b : bytes.Buffer) (c : byte) (rest : list byte) :
  bytes.Bytes b = c :: rest ->
  ReadByte (BufferReader b) = (BufferReader (advance b 1), c, None) /\
  bytes.Bytes (advance b 1) = rest.
Proof.
  intros H. split.
  - simpl. unfold bytes.ReadByte.
    assert (Hc : bytes.buf b !! bytes.off b = Some c).
    { pose proof (lookup_drop (bytes.buf b) (bytes.off b) 0) as Hl.
      unfold bytes.Bytes in H. rewrite H, Nat.add_0_r in Hl. simpl in Hl.
      symmetry. exact Hl. }
    rewrite Hc. reflexivity.
  - rewrite Bytes_advance, H. reflexivity.
Qed.

Lemma decodes_ReadByte (c : byte) : decodes ReadByte [c] c.
Proof.
  intros b rest H. exists (advance b 1). apply ReadByte_Bytes. exact H.
Qed.

Lemma Read_Bytes (b : bytes.Buffer) (n : nat) :
  (0 < n <= length (bytes.Bytes b))%nat ->
  Read (BufferReader b) n
  = (BufferReader (advance b n), take n (bytes.Bytes b), None).
Proof.
  intros Hn. simpl. unfold bytes.Read, bytes.empty.
  unfold bytes.Bytes in *. rewrite length_drop in Hn.
  destruct (Nat.leb_spec (length (bytes.buf b)) (bytes.off b)); [lia |].
  rewrite length_take, length_drop.
  replace (n `min` (length (bytes.buf b) - bytes.off b))%nat with n by lia.
  destruct (Nat.ltb_spec 0 n); [reflexivity | lia].
Qed.

Lemma ReadFull_Bytes (b : bytes.Buffer) (data rest : list byte) :
  bytes.Bytes b = data ++ rest ->
  exists b' : bytes.Buffer,
    io.ReadFull Read (BufferReader b) (length data)
    = (BufferReader b', data, None) /\
    bytes.Bytes b' = rest.
Proof.
  intros H. destruct data as [|c data].
  - exists b. split; [reflexivity | exact H].
  - exists (advance b (length (c :: data))). split.
    + unfold io.ReadFull.
      assert (HR : Read (BufferReader b) (length (c :: data))
                   = (BufferReader (advance b (length (c :: data))),
                      c :: data, None)).
      { rewrite Read_Bytes by (rewrite H, length_app; simpl; lia).
        rewrite H, take_app_length. reflexivity. }
      cbn [io.ReadAtLeast_loop]. 
      change (length (@nil byte)) with 0%nat. rewrite Nat.sub_0_r.
      destruct (Nat.ltb_spec 0 (length (c :: data))); [| simpl in *; lia].
      rewrite HR. cbn [app].
      destruct (length (c :: data)) eqn:E; [discriminate |].
      cbn [io.ReadAtLeast_loop]. rewrite <- E.
      rewrite Nat.ltb_irrefl, Nat.leb_refl. reflexivity.
    + rewrite Bytes_advance, H, drop_app_length. reflexivity.
Qed.

Lemma decodes_ReadFull (data : list byte) :
  decodes (fun r => io.ReadFull Read r (length data)) data data.
Proof. intros b rest H. apply ReadFull_Bytes. exact H. Qed.

Lemma decodes_binary_Read (bs : list byte) :
  decodes (fun r => binary_Read r (length bs)) bs (binary.BigEndian_Uint bs).
Proof.
  intros b rest H. destruct (ReadFull_Bytes b bs rest H) as (b' & HR & Hb').
  exists b'. unfold binary_Read. rewrite HR. split; [reflexivity | exact Hb'].
Qed.

(** Big endian round trip *)
Lemma BigEndian_from (n : nat) :
  forall (v acc : Z),
    fold_left (fun acc b => acc * 256 + byte_to_Z b)
              (binary.BigEndian_PutUint n v) acc
    = acc * 256 ^ Z.of_nat n + v mod 256 ^ Z.of_nat n.
Proof.
  induction n as [|n IH]; intros v acc.
  - simpl. rewrite Z.mod_1_r. lia.
  - cbn [binary.BigEndian_PutUint fold_left]. rewrite IH.
    rewrite byte_to_of_Z_mod, Z.shiftr_div_pow2 by lia.
    replace (2 ^ (8 * Z.of_nat n)) with (256 ^ Z.of_nat n)
      by (rewrite Z.pow_mul_r by lia; reflexivity).
    rewrite Nat2Z.inj_succ, Z.pow_succ_r by lia.
    rewrite (Z.mul_comm 256 (256 ^ Z.of_nat n)).
    rewrite (Z.rem_mul_r v (256 ^ Z.of_nat n) 256) by lia.
    lia.
Qed.

Lemma BigEndian_PutUint_Uint (n : nat) (v : Z) :
  0 <= v < 256 ^ Z.of_nat n ->
  binary.BigEndian_Uint (binary.BigEndian_PutUint n v) = v.
Proof.
  intros Hv. unfold binary.BigEndian_Uint. rewrite BigEndian_from.
  rewrite Z.mod_small by lia. lia.
Qed.

Lemma length_PutUint (n : nat) (v : Z) :
  length (binary.BigEndian_PutUint n v) = n.
Proof. induction n as [|n IH]; simpl; [reflexivity | rewrite IH; reflexivity]. Qed.

Lemma byte_of_to_Z (c : byte) : byte_of_Z (byte_to_Z c) = c.
Proof.
  unfold byte_of_Z. pose proof (byte_to_Z_range c) as H.
  rewrite Z.mod_small by lia. unfold byte_to_Z. rewrite N2Z.id.
  rewrite Byte.of_to_N. reflexivity.
Qed.

(** ** Round trips of the variable-width types *)

Lemma readVariableType_8 (code : amqpType) (data : list byte) :
  In code [typeCodeVbin8; typeCodeStr8; typeCodeSym8] ->
  len data < 256 ->
  decodes (fun r => readVariableType r code)
          (byte_of_Z (len data) :: data) data.
Proof.
  intros Hc Hl b rest H.
  destruct (ReadByte_Bytes b (byte_of_Z (len data)) (data ++ rest) H)
    as [HB Hb1].
  destruct (ReadFull_Bytes (advance b 1) data rest Hb1) as (b' & HR & Hb').
  exists b'. split; [| exact Hb'].
  assert (Hn : byte_to_Z (byte_of_Z (len data)) = len data).
  { apply byte_to_of_Z. unfold len in *. lia. }
  assert (Hfill :
    (if Len (BufferReader (advance b 1)) <? byte_to_Z (byte_of_Z (len data))
     then (BufferReader (advance b 1), [], Some errInvalidLength)
     else
       let '(r, got, err) :=
         io.ReadFull Read (BufferReader (advance b 1))
                     (Z.to_nat (byte_to_Z (byte_of_Z (len data)))) in
       (r, got ++ replicate
                    (Z.to_nat (byte_to_Z (byte_of_Z (len data))) - length got)
                    x00, err))
    = (BufferReader b', data, None)).
  { rewrite Hn, Len_Bytes, Hb1.
    destruct (Z.ltb_spec (len (data ++ rest)) (len data)) as [Hlt | _].
    - unfold len in Hlt. rewrite length_app in Hlt. lia.
    - unfold len. rewrite Nat2Z.id, HR, Nat.sub_diag. simpl.
      rewrite app_nil_r. reflexivity. }
  destruct Hc as [<- | [<- | [<- | []]]];
    unfold readVariableType, try; rewrite HB; exact Hfill.
Qed.

Lemma readVariableType_32 (code : amqpType) (data : list byte) :
  In code [typeCodeVbin32; typeCodeStr32; typeCodeSym32] ->
  len data < 2 ^ 32 ->
  decodes (fun r => readVariableType r code)
          (binary.BigEndian_PutUint 4 (len data) ++ data) data.
Proof.
  intros Hc Hl b rest H.
  rewrite <- app_assoc in H.
  destruct (decodes_binary_Read (binary.BigEndian_PutUint 4 (len data))
              b _ H) as (b1 & HB & Hb1).
  rewrite length_PutUint in HB.
  rewrite BigEndian_PutUint_Uint in HB
    by (change (256 ^ Z.of_nat 4) with (2 ^ 32); unfold len in *; lia).
  destruct (ReadFull_Bytes b1 data rest Hb1) as (b' & HR & Hb').
  exists b'. split; [| exact Hb'].
  assert (Hfill :
    (if Len (BufferReader b1) <? len data
     then (BufferReader b1, [], Some errInvalidLength)
     else
       let '(r, got, err) :=
         io.ReadFull Read (BufferReader b1) (Z.to_nat (len data)) in
       (r, got ++ replicate (Z.to_nat (len data) - length got) x00, err))
    = (BufferReader b', data, None)).
  { rewrite Len_Bytes, Hb1.
    destruct (Z.ltb_spec (len (data ++ rest)) (len data)) as [Hlt | _].
    - unfold len in Hlt. rewrite length_app in Hlt. lia.
    - unfold len. rewrite Nat2Z.id, HR, Nat.sub_diag. simpl.
      rewrite app_nil_r. reflexivity. }
  destruct Hc as [<- | [<- | [<- | []]]];
    unfold readVariableType, try; rewrite HB; exact Hfill.
Qed.

Lemma decodes_readString_8 (code : amqpType) (data : list byte) :
  In code [typeCodeVbin8; typeCodeStr8; typeCodeSym8] ->
  len data < 256 ->
  decodes readString (code :: byte_of_Z (len data) :: data) data.
Proof.
  intros Hc Hl b rest H.
  destruct (ReadByte_Bytes b code ((byte_of_Z (len data) :: data) ++ rest) H)
    as [HB Hb1].
  destruct (readVariableType_8 code data Hc Hl _ _ Hb1) as (b' & HV & Hb').
  exists b'. unfold readString, try. rewrite HB. split; assumption.
Qed.

Lemma decodes_readString_32 (code : amqpType) (data : list byte) :
  In code [typeCodeVbin32; typeCodeStr32; typeCodeSym32] ->
  len data < 2 ^ 32 ->
  decodes readString
          (code :: binary.BigEndian_PutUint 4 (len data) ++ data) data.
Proof.
  intros Hc Hl b rest H.
  destruct (ReadByte_Bytes b code
              ((binary.BigEndian_PutUint 4 (len data) ++ data) ++ rest) H)
    as [HB Hb1].
  destruct (readVariableType_32 code data Hc Hl _ _ Hb1) as (b' & HV & Hb').
  exists b'. unfold readString, try. rewrite HB. split; assumption.
Qed.

(** What [writeString] writes without an error. *)
Lemma writeString_ok (str enc : list byte) :
  writeString [] str = (enc, None) ->
  utf8.ValidString str = true /\
  ((len str < 256 /\ enc = typeCodeStr8 :: byte_of_Z (len str) :: str) \/
   (256 <= len str < 2 ^ 32 - 1 /\
    enc = typeCodeStr32 :: binary.BigEndian_PutUint 4 (len str) ++ str)).
Proof.
  unfold writeString, math.MaxUint32.
  destruct (utf8.ValidString str); simpl; [| discriminate].
  destruct (Z.ltb_spec (len str) 256).
  - intros [= <-]. split; [reflexivity |]. left. split; [lia | reflexivity].
  - destruct (Z.ltb_spec (len str) 4294967295); [| discriminate].
    intros [= <-]. split; [reflexivity |]. right.
    split; [change (2 ^ 32) with 4294967296; lia |].
    unfold binary_Write, bytes.Write, bytes.WriteByte, uint32.
    rewrite Z.mod_small
      by (change (2 ^ 32) with 4294967296; unfold len in *; lia).
    reflexivity.
Qed.

(** A string that [marshal] encodes without an error is read back by
    [readString], and by [unmarshal] into a [*string], as the same octets,
    under the Str8 and under the Str32 code; exactly the encoding is
    consumed. *)
Theorem string_round_trip (str enc : list byte) :
  marshal [] (v_string str) = (enc, None) ->
  decodes readString enc str /\
  forall (depth : nat) (old : list byte) (b : bytes.Buffer) (rest : list byte),
    bytes.Bytes b = enc ++ rest ->
    exists b' : bytes.Buffer,
      unmarshal (S depth) (BufferReader b) (ptr_string old)
      = (BufferReader b', ptr_string str, false, None) /\
      bytes.Bytes b' = rest.
Proof.
  simpl. intros Hw.
  assert (Hd : decodes readString enc str).
  { destruct (writeString_ok str enc Hw) as [_ [[Hl ->] | [Hl ->]]].
    - apply decodes_readString_8; [simpl; auto | exact Hl].
    - apply decodes_readString_32; [simpl; auto | lia]. }
  split; [exact Hd |].
  intros depth old b rest H. destruct (Hd b rest H) as (b' & HR & Hb').
  exists b'. simpl. rewrite HR. split; [reflexivity | exact Hb'].
Qed.

Lemma string_round_trip_witness :
  let enc := [xa1; x02; x68; x69] in
  exists b' : bytes.Buffer,
    unmarshal 1 (BufferReader (bytes.NewBuffer (enc ++ [x40]))) (ptr_string [])
    = (BufferReader b', ptr_string [x68; x69], false, None) /\
    bytes.Bytes b' = [x40].
Proof.
  apply (proj2 (string_round_trip [x68; x69] [xa1; x02; x68; x69] eq_refl)
           0%nat [] (bytes.NewBuffer [xa1; x02; x68; x69; x40]) [x40] eq_refl).
Defined.

(** ** Round trips of the unsigned integers and of booleans *)

Lemma decodes_readUint_0 (code : amqpType) :
  In code [typeCodeUint0; typeCodeUlong0] -> decodes readUint [code] 0.
Proof.
  intros Hc b rest H.
  destruct (ReadByte_Bytes b code rest H) as [HB Hb1].
  exists (advance b 1). split; [| exact Hb1].
  destruct Hc as [<- | [<- | []]]; unfold readUint, try; rewrite HB;
    reflexivity.
Qed.

Lemma decodes_readUint_1 (code c : byte) :
  In code [typeCodeUbyte; typeCodeSmallUint; typeCodeSmallUlong] ->
  decodes readUint [code; c] (byte_to_Z c).
Proof.
  intros Hc b rest H.
  destruct (ReadByte_Bytes b code (c :: rest) H) as [HB Hb1].
  destruct (ReadByte_Bytes (advance b 1) c rest Hb1) as [HB2 Hb2].
  exists (advance (advance b 1) 1). split; [| exact Hb2].
  assert (Hu : uint64 (byte_to_Z c) = byte_to_Z c).
  { pose proof (byte_to_Z_range c). unfold uint64. apply Z.mod_small.
    change (2 ^ 64) with 18446744073709551616. lia. }
  destruct Hc as [<- | [<- | [<- | []]]]; unfold readUint, try; rewrite HB;
    cbn match; rewrite HB2, Hu; reflexivity.
Qed.

Lemma BigEndian_Uint_lt (bs : list byte) :
  0 <= binary.BigEndian_Uint bs < 256 ^ len bs.
Proof.
  unfold binary.BigEndian_Uint, len.
  assert (H : forall acc k, 0 <= acc < 256 ^ k -> 0 <= k ->
            0 <= fold_left (fun acc b => acc * 256 + byte_to_Z b) bs acc
            < 256 ^ (k + Z.of_nat (length bs))).
  { induction bs as [|c bs IH]; intros acc k Ha Hk; simpl.
    - rewrite Z.add_0_r. exact Ha.
    - pose proof (byte_to_Z_range c) as Hc.
      replace (k + Z.of_nat (S (length bs)))
        with ((k + 1) + Z.of_nat (length bs)) by lia.
      apply IH; [| lia]. rewrite Z.pow_add_r by lia.
      change (256 ^ 1) with 256. nia. }
  apply (H 0 0); simpl; lia.
Qed.

Lemma decodes_readUint_n (code : amqpType) (bs : list byte) :
  (code = typeCodeUshort /\ length bs = 2%nat) \/
  (code = typeCodeUint /\ length bs = 4%nat) \/
  (code = typeCodeUlong /\ length bs = 8%nat) ->
  decodes readUint (code :: bs) (binary.BigEndian_Uint bs).
Proof.
  intros Hc b rest H.
  destruct (ReadByte_Bytes b code (bs ++ rest) H) as [HB Hb1].
  destruct (decodes_binary_Read bs (advance b 1) rest Hb1) as (b' & HR & Hb').
  exists b'. split; [| exact Hb'].
  pose proof (BigEndian_Uint_lt bs) as Hlt. unfold len in Hlt.
  destruct Hc as [[-> Hl] | [[-> Hl] | [-> Hl]]]; rewrite Hl in HR, Hlt;
    unfold readUint, try; rewrite HB; cbn match; rewrite HR;
    [| | reflexivity];
    (replace (uint64 (binary.BigEndian_Uint bs))
       with (binary.BigEndian_Uint bs); [reflexivity |]);
    unfold uint64; symmetry; apply Z.mod_small; simpl in Hlt;
    change (2 ^ 64) with 18446744073709551616; lia.
Qed.

Lemma assign_readUint (enc : list byte) (v : Z) (mk f : Z -> _) (o : sink) :
  decodes readUint enc v -> f v = v ->
  forall (b : bytes.Buffer) (rest : list byte),
    bytes.Bytes b = enc ++ rest ->
    exists b' : bytes.Buffer,
      catchNull (assign (readUint (BufferReader b)) (fun val => mk (f val)) o)
      = (BufferReader b', mk v, false, None) /\
      bytes.Bytes b' = rest.
Proof.
  intros Hd Hf b rest H.
  destruct (Hd b rest H) as (b' & HR & Hb'). exists b'.
  rewrite HR. simpl. rewrite Hf. split; [reflexivity | exact Hb'].
Qed.

Lemma decodes_marshal_uint32 (t : Z) :
  0 <= t < 2 ^ 32 -> decodes readUint (fst (marshal_uint32 [] t)) t.
Proof.
  intros Ht. unfold marshal_uint32.
  destruct (Z.eqb_spec t 0) as [-> | Hne]; simpl.
  - apply decodes_readUint_0. simpl. auto.
  - rewrite <- (BigEndian_PutUint_Uint 4 t) at 2 by exact Ht.
    apply decodes_readUint_n. right. left.
    split; [reflexivity | apply length_PutUint].
Qed.

Lemma decodes_marshal_uint64 (t : Z) :
  0 <= t < 2 ^ 64 -> decodes readUint (fst (marshal [] (v_uint64 t))) t.
Proof.
  intros Ht. simpl. destruct (Z.eqb_spec t 0) as [-> | Hne]; simpl.
  - apply decodes_readUint_0. simpl. auto.
  - rewrite <- (BigEndian_PutUint_Uint 8 t) at 2 by exact Ht.
    apply decodes_readUint_n. right. right.
    split; [reflexivity | apply length_PutUint].
Qed.

Lemma unmarshals_uint32 (t old : Z) :
  0 <= t < 2 ^ 32 ->
  unmarshals (fst (marshal_uint32 [] t)) (ptr_uint32 old) (ptr_uint32 t).
Proof.
  intros Ht depth b rest H.
  apply (assign_readUint _ t ptr_uint32 uint32 (ptr_uint32 old)
           (decodes_marshal_uint32 t Ht)); [| exact H].
  unfold uint32. apply Z.mod_small. lia.
Qed.

(** An unsigned integer written by [marshal] is read back by [unmarshal]
    into a sink of the same width. *)
Theorem unsigned_round_trip (t old : Z) :
  (0 <= t < 2 ^ 8 ->
   unmarshals (fst (marshal [] (v_uint8 t))) (ptr_uint8 old) (ptr_uint8 t)) /\
  (0 <= t < 2 ^ 16 ->
   unmarshals (fst (marshal [] (v_uint16 t))) (ptr_uint16 old) (ptr_uint16 t)) /\
  (0 <= t < 2 ^ 32 ->
   unmarshals (fst (marshal [] (v_uint32 t))) (ptr_uint32 old) (ptr_uint32 t) /\
   unmarshals (fst (marshal [] (v_ptr_uint32 (Some t))))
              (ptr_uint32 old) (ptr_uint32 t)) /\
  (0 <= t < 2 ^ 64 ->
   unmarshals (fst (marshal [] (v_uint64 t))) (ptr_uint64 old) (ptr_uint64 t)).
Proof.
  split; [| split; [| split]].
  - intros Ht depth b rest H. simpl in H.
    replace (ptr_uint8 t) with (ptr_uint8 (byte_to_Z (byte_of_Z t)))
      by (rewrite byte_to_of_Z by lia; reflexivity).
    apply (assign_readUint [typeCodeUbyte; byte_of_Z t] _ ptr_uint8 uint8);
      [apply decodes_readUint_1; simpl; auto | | exact H].
    rewrite byte_to_of_Z by lia. unfold uint8. apply Z.mod_small. lia.
  - intros Ht depth b rest H. simpl in H.
    replace (ptr_uint16 t)
      with (ptr_uint16
              (binary.BigEndian_Uint (binary.BigEndian_PutUint 2 t)))
      by (rewrite (BigEndian_PutUint_Uint 2) by exact Ht; reflexivity).
    apply (assign_readUint (typeCodeUshort :: binary.BigEndian_PutUint 2 t)
             _ ptr_uint16 uint16);
      [apply decodes_readUint_n; left;
       split; [reflexivity | apply length_PutUint] | | exact H].
    rewrite (BigEndian_PutUint_Uint 2) by exact Ht.
    unfold uint16. apply Z.mod_small. lia.
  - intros Ht. split; apply unmarshals_uint32; exact Ht.
  - intros Ht depth b rest H.
    apply (assign_readUint _ t ptr_uint64 uint64 (ptr_uint64 old)
             (decodes_marshal_uint64 t Ht)); [| exact H].
    unfold uint64. apply Z.mod_small. lia.
Qed.

Lemma unsigned_round_trip_witness :
  unmarshals [x70; x00; x00; x01; x00] (ptr_uint32 7) (ptr_uint32 256).
Proof.
  apply (proj1 (proj1 (proj2 (proj2 (unsigned_round_trip 256 7)))
                  ltac:(split; vm_compute; congruence))).
Defined.

(** ** Binary data and symbols *)

(** Binary data that [marshal] encodes without an error is read back by
    [readBinary], and by [unmarshal] into a [*[]byte], as the same octets,
    under the Vbin8 and under the Vbin32 code. *)
Theorem binary_round_trip (bin enc old : list byte) :
  marshal [] (v_bytes bin) = (enc, None) ->
  decodes readBinary enc bin /\
  unmarshals enc (ptr_bytes old) (ptr_bytes bin).
Proof.
  simpl. unfold writeBinary, math.MaxUint32. intros Hw.
  assert (Hd : decodes readString enc bin).
  { destruct (Z.ltb_spec (len bin) 256).
    - injection Hw as <-.
      apply decodes_readString_8; [simpl; auto | assumption].
    - destruct (Z.ltb_spec (len bin) 4294967295); [| discriminate].
      injection Hw as <-.
      unfold binary_Write, bytes.Write, bytes.WriteByte, uint32.
      rewrite Z.mod_small
        by (change (2 ^ 32) with 4294967296; unfold len in *; lia).
      apply decodes_readString_32;
        [simpl; auto | change (2 ^ 32) with 4294967296; lia]. }
  split; [exact Hd |].
  intros depth b rest H. destruct (Hd b rest H) as (b' & HR & Hb').
  exists b'. split; [| exact Hb'].
  simpl. unfold readBinary. unfold readString in HR. rewrite HR. reflexivity.
Qed.

Lemma binary_round_trip_witness :
  unmarshals [xa0; x02; x00; xff] (ptr_bytes []) (ptr_bytes [x00; xff]).
Proof.
  apply (proj2 (binary_round_trip [x00; xff] [xa0; x02; x00; xff] []
                  eq_refl)).
Defined.

(** A symbol of fewer than 256 octets is written with the Sym8 code and
    read back by [unmarshal] into a [*Symbol]. *)
Theorem Symbol_round_trip_short (s old : list byte) :
  len s < 256 ->
  exists enc : list byte,
    marshal [] (v_Symbol s) = (enc, None) /\
    enc = typeCodeSym8 :: byte_of_Z (len s) :: s /\
    unmarshals enc (ptr_Symbol old) (ptr_Symbol s).
Proof.
  intros Hl. eexists. split; [| split; [reflexivity |]].
  - simpl. unfold Symbol_marshal.
    destruct (Z.ltb_spec (len s) 256); [reflexivity | lia].
  - intros depth b rest H.
    destruct (decodes_readString_8 typeCodeSym8 s ltac:(simpl; auto) Hl
                b rest H) as (b' & HR & Hb').
    exists b'. split; [| exact Hb']. simpl. rewrite HR. reflexivity.
Qed.

Lemma Symbol_round_trip_short_witness :
  unmarshals [xa3; x02; x68; x69] (ptr_Symbol []) (ptr_Symbol [x68; x69]).
Proof.
  destruct (Symbol_round_trip_short [x68; x69] [] eq_refl)
    as (enc & _ & -> & Hu).
  exact Hu.
Defined.

(** A symbol of 256 octets or more is written by [Symbol.marshal] as its
    four-octet length and its octets, with no type code in front.  Up to
    2^24 - 1 octets the first octet written is 0x00, and [unmarshal] into
    a [*Symbol] refuses the encoding as an unknown type code. *)
Theorem Symbol_marshal_long_not_decodable (s old : list byte) :
  256 <= len s < 2 ^ 24 ->
  exists enc : list byte,
    marshal [] (v_Symbol s) = (enc, None) /\
    enc = binary.BigEndian_PutUint 4 (len s) ++ s /\
    forall (depth : nat) (b : bytes.Buffer) (rest : list byte),
      bytes.Bytes b = enc ++ rest ->
      unmarshal (S depth) (BufferReader b) (ptr_Symbol old)
      = (BufferReader (advance b 1), ptr_Symbol old, false,
         Some (errorErrorf
                 "type code %#00x is not a recognized variable length type"
                 [0])).
Proof.
  intros Hl. change (2 ^ 24) with 16777216 in Hl.
  assert (Hw : Symbol_marshal s []
               = (binary.BigEndian_PutUint 4 (len s) ++ s, None)).
  { unfold Symbol_marshal, math.MaxUint32.
    destruct (Z.ltb_spec (len s) 256); [lia |].
    destruct (Z.ltb_spec (len s) 4294967295); [| lia].
    unfold binary_Write, bytes.Write, uint32.
    rewrite Z.mod_small by (change (2 ^ 32) with 4294967296; lia).
    reflexivity. }
  eexists. split; [exact Hw |]. split; [reflexivity |].
  intros depth b rest H.
  assert (H0 : byte_of_Z (Z.shiftr (len s) (8 * Z.of_nat 3)) = x00).
  { rewrite Z.shiftr_div_pow2 by lia.
    change (2 ^ (8 * Z.of_nat 3)) with 16777216.
    rewrite Z.div_small by lia. reflexivity. }
  cbn [binary.BigEndian_PutUint] in H. rewrite H0 in H.
  destruct (ReadByte_Bytes b x00 _ H) as [HB _].
  simpl. unfold readString, try. rewrite HB. reflexivity.
Qed.

Lemma Symbol_marshal_long_not_decodable_witness :
  exists e,
    snd (unmarshal 1
           (BufferReader
              (bytes.NewBuffer (fst (marshal [] (v_Symbol (replicate 256 x61))))))
           (ptr_Symbol []))
    = Some e.
Proof.
  destruct (Symbol_marshal_long_not_decodable (replicate 256 x61) [])
    as (enc & Hm & He & Hu).
  - split; vm_compute; [discriminate | reflexivity].
  - rewrite Hm. simpl fst.
    rewrite (Hu 0%nat (bytes.NewBuffer enc) []).
    + eexists. reflexivity.
    + unfold bytes.Bytes, bytes.NewBuffer. simpl. rewrite app_nil_r.
      reflexivity.
Defined.

(** ** Booleans *)

(** A boolean written by [marshal] is read back by [unmarshal] into a
    [*bool], whatever the variable held before. *)
Theorem bool_round_trip (t old : bool) :
  unmarshals (fst (marshal [] (v_bool t))) (ptr_bool old) (ptr_bool t).
Proof.
  intros depth b rest H. exists (advance b 1).
  destruct t; simpl in H;
    destruct (ReadByte_Bytes b _ rest H) as [HB Hb1];
    (split; [| exact Hb1]); simpl; unfold readBool, try; rewrite HB;
    reflexivity.
Qed.

(** ** Where the null sentinel comes from *)

Lemma ReadByte_err (r : reader) :
  forall (r' : reader) (c : byte) (e : error),
    ReadByte r = (r', c, Some e) -> e = io_EOF.
Proof.
  induction r as [b | inner IH limit read]; intros r' c e H; simpl in H.
  - unfold bytes.ReadByte in H.
    destruct (bytes.buf b !! bytes.off b); [discriminate |].
    injection H as _ _ <-. reflexivity.
  - destruct (ReadByte inner) as [[inner' c'] err] eqn:E.
    injection H as _ _ ->. eapply IH. reflexivity.
Qed.

Lemma Read_err (r : reader) :
  forall (n : nat) (r' : reader) (data : list byte) (e : error),
    Read r n = (r', data, Some e) -> e = io_EOF \/ e = errLimitReached.
Proof.
  induction r as [b | inner IH limit read]; intros n r' data e H; simpl in H.
  - unfold bytes.Read in H. destruct (bytes.empty b); [| discriminate].
    destruct (n =? 0)%nat; [discriminate |]. injection H as _ _ <-. auto.
  - destruct (limit <=? read).
    + injection H as _ _ <-. auto.
    + destruct (Read inner n) as [[inner' d] err] eqn:E.
      injection H as _ _ ->. eapply IH. exact E.
Qed.

Lemma ReadAtLeast_loop_err (rounds : nat) :
  forall (r r' : reader) (min : nat) (got got' : list byte) (e : error),
    io.ReadAtLeast_loop Read rounds r min got = (r', got', Some e) ->
    e = io_EOF \/ e = errLimitReached.
Proof.
  induction rounds as [|rounds IH]; intros r r' min got got' e H; simpl in H.
  - discriminate.
  - destruct (length got <? min)%nat; [| discriminate].
    destruct (Read r (min - length got)) as [[r1 data] [e1|]] eqn:E.
    + injection H as _ _ <-. eapply Read_err. exact E.
    + eapply IH. exact H.
Qed.

Lemma ReadFull_err (r r' : reader) (n : nat) (got : list byte) (e : error) :
  io.ReadFull Read r n = (r', got, Some e) ->
  e = io_EOF \/ e = io_ErrUnexpectedEOF \/ e = errLimitReached.
Proof.
  unfold io.ReadFull.
  destruct (io.ReadAtLeast_loop Read (S n) r n []) as [[r1 g] err] eqn:E.
  destruct (n <=? length g)%nat; [discriminate |].
  destruct err as [e1|]; [| discriminate].
  apply ReadAtLeast_loop_err in E.
  destruct E as [-> | ->].
  - destruct (0 <? length g)%nat; intros [= _ _ <-]; auto.
  - intros [= _ _ <-]. auto.
Qed.

Lemma binary_Read_err (r r' : reader) (n : nat) (v : Z) (e : error) :
  binary_Read r n = (r', v, Some e) -> e <> errNull.
Proof.
  unfold binary_Read.
  destruct (io.ReadFull Read r n) as [[r1 bs] [e1|]] eqn:E; [| discriminate].
  intros [= _ _ <-]. apply ReadFull_err in E.
  destruct E as [-> | [-> | ->]]; discriminate.
Qed.

Lemma ReadByte_not_null (r r' : reader) (c : byte) :
  ReadByte r <> (r', c, Some errNull).
Proof. intros H. apply ReadByte_err in H. discriminate. Qed.

Lemma binary_Read_not_null (r r' : reader) (n : nat) (v : Z) :
  binary_Read r n <> (r', v, Some errNull).
Proof. intros H. apply binary_Read_err in H. congruence. Qed.

(** Closes a case of a reader that cannot yield [errNull]. *)
Ltac no_null :=
  try discriminate;
  match goal with
  | |- context [ReadByte ?r] =>
      let E := fresh "E" in
      destruct (ReadByte r) as [[? ?] [?|]] eqn:E; intros [= ? ? ?]; subst;
      try discriminate; exfalso; exact (ReadByte_not_null _ _ _ E)
  | |- context [binary_Read ?r ?n] =>
      let E := fresh "E" in
      destruct (binary_Read r n) as [[? ?] [?|]] eqn:E; intros [= ? ? ?]; subst;
      try discriminate; exfalso; exact (binary_Read_not_null _ _ _ _ E)
  end.

Lemma readUint_null (r r' : reader) (v : Z) :
  readUint r = (r', v, Some errNull) -> ReadByte r = (r', typeCodeNull, None).
Proof.
  unfold readUint, try.
  destruct (ReadByte r) as [[r1 b] [e|]] eqn:E.
  - intros [= _ _ ->]. exfalso. exact (ReadByte_not_null _ _ _ E).
  - destruct b; try (intros [= <- _]; reflexivity); no_null.
Qed.

Lemma readBool_null (r r' : reader) (v : bool) :
  readBool r = (r', v, Some errNull) -> ReadByte r = (r', typeCodeNull, None).
Proof.
  unfold readBool, try.
  destruct (ReadByte r) as [[r1 b] [e|]] eqn:E.
  - intros [= _ _ ->]. exfalso. exact (ReadByte_not_null _ _ _ E).
  - destruct b; try (intros [= <- _]; reflexivity); no_null.
Qed.

Lemma readTimestamp_null (r r' : reader) (v : time.Time) :
  readTimestamp r = (r', v, Some errNull) ->
  ReadByte r = (r', typeCodeNull, None).
Proof.
  unfold readTimestamp, try.
  destruct (ReadByte r) as [[r1 b] [e|]] eqn:E.
  - intros [= _ _ ->]. exfalso. exact (ReadByte_not_null _ _ _ E).
  - destruct b; try (intros [= <- _]; reflexivity); no_null.
Qed.

(** The null indicator of [unmarshal] into an unsigned integer, a boolean
    or a timestamp is raised exactly when the next octet is the Null code;
    the sink is then unchanged and only that octet is consumed. *)
Theorem null_exactly_on_Null_code (depth : nat) (r r' : reader) (i i' : sink) :
  signalsNull i = true ->
  (unmarshal (S depth) r i = (r', i', true, None) <->
   ReadByte r = (r', typeCodeNull, None) /\ i' = i).
Proof.
  assert (Hc : forall (A : Type) (m : reader * A * option error)
                 (mk : A -> sink),
    (forall r1 v, m = (r1, v, Some errNull) ->
                  ReadByte r = (r1, typeCodeNull, None)) ->
    catchNull (assign m mk i) = (r', i', true, None) ->
    ReadByte r = (r', typeCodeNull, None) /\ i' = i).
  { intros A [[r1 v] [e|]] mk Hm; simpl.
    - destruct e; simpl; try discriminate.
      intros [= <- <-]. split; [| reflexivity]. eapply Hm. reflexivity.
    - discriminate. }
  intros Hs. split.
  - destruct i; try discriminate; simpl; apply Hc; intros r1 v0 Hm;
      first [ eapply readUint_null; exact Hm
            | eapply readBool_null; exact Hm
            | eapply readTimestamp_null; exact Hm ].
  - intros [Hb ->].
    assert (Hu : readUint r = (r', 0, Some errNull)).
    { unfold readUint, try. rewrite Hb. reflexivity. }
    assert (Ho : readBool r = (r', false, Some errNull)).
    { unfold readBool, try. rewrite Hb. reflexivity. }
    assert (Ht : readTimestamp r = (r', time.zero, Some errNull)).
    { unfold readTimestamp, try. rewrite Hb. reflexivity. }
    destruct i; try discriminate; simpl; rewrite ?Hu, ?Ho, ?Ht; reflexivity.
Qed.

Lemma null_exactly_on_Null_code_witness :
  ReadByte (BufferReader (bytes.NewBuffer [x40; x41]))
  = (BufferReader (bytes.mkBuffer [x40; x41] 1 true), typeCodeNull, None).
Proof.
  apply (proj1 (null_exactly_on_Null_code 0
                  (BufferReader (bytes.NewBuffer [x40; x41]))
                  (BufferReader (bytes.mkBuffer [x40; x41] 1 true))
                  (ptr_bool true) (ptr_bool true) eq_refl) eq_refl).
Defined.









(** ** Narrowing and wrap-around *)

(** A 64-bit unsigned value decoded into a narrower unsigned sink is
    reduced modulo the width of the sink; no error is reported. *)
Theorem unsigned_narrowing (t old : Z) :
  0 <= t < 2 ^ 64 ->
  let enc := fst (marshal [] (v_uint64 t)) in
  unmarshals enc (ptr_uint8 old) (ptr_uint8 (t mod 2 ^ 8)) /\
  unmarshals enc (ptr_uint16 old) (ptr_uint16 (t mod 2 ^ 16)) /\
  unmarshals enc (ptr_uint32 old) (ptr_uint32 (t mod 2 ^ 32)).
Proof.
  intros Ht enc. pose proof (decodes_marshal_uint64 t Ht) as Hd.
  repeat split; intros depth b rest H;
    destruct (Hd b rest H) as (b' & HR & Hb'); exists b';
    (split; [| exact Hb']); simpl; rewrite HR; reflexivity.
Qed.

Lemma unsigned_narrowing_witness :
  unmarshals [x80; x00; x00; x00; x00; x00; x00; x01; x05]
             (ptr_uint8 0) (ptr_uint8 5).
Proof.
  apply (proj1 (unsigned_narrowing 261 0 ltac:(split; vm_compute; congruence))).
Defined.

Lemma decodes_readInt_Ulong (bs : list byte) :
  length bs = 8%nat ->
  decodes readInt (typeCodeUlong :: bs) (int (binary.BigEndian_Uint bs)).
Proof.
  intros Hl b rest H.
  destruct (ReadByte_Bytes b typeCodeUlong (bs ++ rest) H) as [HB Hb1].
  destruct (decodes_binary_Read bs (advance b 1) rest Hb1) as (b' & HR & Hb').
  rewrite Hl in HR.
  exists b'. split; [| exact Hb'].
  unfold readInt, try. rewrite HB. cbn match. rewrite HR. reflexivity.
Qed.

(** An unsigned 64-bit value of 2^63 or more decoded into an [*int] comes
    out negative, lowered by 2^64; no error is reported. *)
Theorem int_sink_wraps (t old : Z) :
  2 ^ 63 <= t < 2 ^ 64 ->
  unmarshals (fst (marshal [] (v_uint64 t))) (ptr_int old)
             (ptr_int (t - 2 ^ 64)).
Proof.
  intros Ht depth b rest H.
  assert (Hne : (t =? 0) = false) by (apply Z.eqb_neq; lia).
  simpl in H. rewrite Hne in H. simpl in H.
  destruct (decodes_readInt_Ulong (binary.BigEndian_PutUint 8 t)
              (length_PutUint 8 t) b rest H) as (b' & HR & Hb').
  rewrite (BigEndian_PutUint_Uint 8 t) in HR
    by (change (256 ^ Z.of_nat 8) with (2 ^ 64); lia).
  exists b'. split; [| exact Hb']. simpl. rewrite HR. simpl.
  assert (Hi : int t = t - 2 ^ 64).
  { unfold int, signed. rewrite Z.mod_small by lia.
    change (2 ^ (64 - 1)) with (2 ^ 63).
    destruct (Z.ltb_spec t (2 ^ 63)); [lia | reflexivity]. }
  rewrite Hi. reflexivity.
Qed.

Lemma int_sink_wraps_witness :
  unmarshals [x80; xff; xff; xff; xff; xff; xff; xff; xff]
             (ptr_int 0) (ptr_int (-1)).
Proof.
  apply (int_sink_wraps 18446744073709551615 0).
  split; vm_compute; congruence.
Defined.

(** ** Declared lengths beyond the frame *)

(** A string, symbol or binary value whose declared length exceeds the
    octets left in the buffer is refused with [errInvalidLength] right
    after the length field; nothing of the payload is consumed. *)
Theorem readString_length_beyond_frame (b : bytes.Buffer) (code : amqpType)
    (rest : list byte) :
  (forall n : byte,
     In code [typeCodeVbin8; typeCodeStr8; typeCodeSym8] ->
     bytes.Bytes b = code :: n :: rest ->
     len rest < byte_to_Z n ->
     readString (BufferReader b)
     = (BufferReader (advance (advance b 1) 1), [], Some errInvalidLength) /\
     bytes.Bytes (advance (advance b 1) 1) = rest) /\
  (forall bs : list byte,
     In code [typeCodeVbin32; typeCodeStr32; typeCodeSym32] ->
     length bs = 4%nat ->
     bytes.Bytes b = code :: bs ++ rest ->
     len rest < binary.BigEndian_Uint bs ->
     exists b' : bytes.Buffer,
       readString (BufferReader b) = (BufferReader b', [], Some errInvalidLength)
       /\ bytes.Bytes b' = rest).
Proof.
  split.
  - intros n Hc H Hl.
    destruct (ReadByte_Bytes b code (n :: rest) H) as [HB Hb1].
    destruct (ReadByte_Bytes (advance b 1) n rest Hb1) as [HB2 Hb2].
    split; [| exact Hb2].
    assert (Hlt : (Len (BufferReader (advance (advance b 1) 1)) <? byte_to_Z n)
                  = true).
    { rewrite Len_Bytes, Hb2. apply Z.ltb_lt. exact Hl. }
    destruct Hc as [<- | [<- | [<- | []]]];
      unfold readString, readVariableType, try; rewrite HB; cbn match;
      rewrite HB2, Hlt; reflexivity.
  - intros bs Hc Hbs H Hl.
    destruct (ReadByte_Bytes b code (bs ++ rest) H) as [HB Hb1].
    destruct (decodes_binary_Read bs (advance b 1) rest Hb1)
      as (b' & HR & Hb').
    rewrite Hbs in HR. exists b'. split; [| exact Hb'].
    assert (Hlt : (Len (BufferReader b') <? binary.BigEndian_Uint bs) = true).
    { rewrite Len_Bytes, Hb'. apply Z.ltb_lt. exact Hl. }
    destruct Hc as [<- | [<- | [<- | []]]];
      unfold readString, readVariableType, try; rewrite HB; cbn match;
      rewrite HR, Hlt; reflexivity.
Qed.

Lemma readString_length_beyond_frame_witness :
  readString (BufferReader (bytes.NewBuffer [xa1; x0a; x61; x62; x63; x64]))
  = (BufferReader (bytes.mkBuffer [xa1; x0a; x61; x62; x63; x64] 2 true), [],
     Some errInvalidLength).
Proof.
  apply (proj1 (readString_length_beyond_frame
                  (bytes.NewBuffer [xa1; x0a; x61; x62; x63; x64]) xa1
                  [x61; x62; x63; x64]) x0a).
  - simpl. auto.
  - reflexivity.
  - reflexivity.
Defined.

(** A map header whose declared size exceeds the octets left in the buffer
    is refused with [errInvalidLength] before the count is read. *)
Theorem newMapReader_size_beyond_frame (b : bytes.Buffer) (rest : list byte) :
  (forall s : byte,
     bytes.Bytes b = typeCodeMap8 :: s :: rest ->
     len rest < byte_to_Z s ->
     newMapReader (BufferReader b)
     = (BufferReader (advance (advance b 1) 1), None, Some errInvalidLength)
     /\ bytes.Bytes (advance (advance b 1) 1) = rest) /\
  (forall bs : list byte,
     length bs = 4%nat ->
     bytes.Bytes b = typeCodeMap32 :: bs ++ rest ->
     len rest < binary.BigEndian_Uint bs ->
     exists b' : bytes.Buffer,
       newMapReader (BufferReader b)
       = (BufferReader b', None, Some errInvalidLength) /\
       bytes.Bytes b' = rest).
Proof.
  split.
  - intros s H Hl.
    destruct (ReadByte_Bytes b typeCodeMap8 (s :: rest) H) as [HB Hb1].
    destruct (ReadByte_Bytes (advance b 1) s rest Hb1) as [HB2 Hb2].
    split; [| exact Hb2].
    assert (Hs : uint32 (byte_to_Z s) = byte_to_Z s).
    { pose proof (byte_to_Z_range s). unfold uint32. apply Z.mod_small. lia. }
    unfold newMapReader, try. rewrite HB. cbn match. rewrite HB2, Hs.
    rewrite Len_Bytes, Hb2.
    destruct (Z.ltb_spec (len rest) (byte_to_Z s)); [reflexivity | lia].
  - intros bs Hbs H Hl.
    destruct (ReadByte_Bytes b typeCodeMap32 (bs ++ rest) H) as [HB Hb1].
    destruct (decodes_binary_Read bs (advance b 1) rest Hb1)
      as (b' & HR & Hb').
    rewrite Hbs in HR. exists b'. split; [| exact Hb'].
    unfold newMapReader, try. rewrite HB. cbn match. rewrite HR.
    rewrite Len_Bytes, Hb'.
    destruct (Z.ltb_spec (len rest) (binary.BigEndian_Uint bs));
      [reflexivity | lia].
Qed.

Lemma newMapReader_size_beyond_frame_witness :
  newMapReader (BufferReader (bytes.NewBuffer [xc1; x05; x02; x41]))
  = (BufferReader (bytes.mkBuffer [xc1; x05; x02; x41] 2 true), None,
     Some errInvalidLength).
Proof.
  apply (proj1 (newMapReader_size_beyond_frame
                  (bytes.NewBuffer [xc1; x05; x02; x41]) [x02; x41]) x05).
  - reflexivity.
  - reflexivity.
Defined.

(** ** The element count of a map header *)

Lemma Len_bufferOf (r : reader) : Len r = len (bytes.Bytes (bufferOf r)).
Proof.
  induction r as [b | inner IH limit read]; [apply Len_Bytes | exact IH].
Qed.

Lemma ReadByte_bufferOf (r : reader) (c : byte) (rest : list byte) :
  bytes.Bytes (bufferOf r) = c :: rest ->
  exists r' : reader,
    ReadByte r = (r', c, None) /\
    bytes.Bytes (bufferOf r') = rest /\
    limitsOf r' = limitsOf r /\
    (belowLimit r -> belowLimit r').
Proof.
  induction r as [b | inner IH limit read]; intros H.
  - destruct (ReadByte_Bytes b c rest H) as [HB Hb].
    exists (BufferReader (advance b 1)). auto.
  - destruct (IH H) as (inner' & HR & Hb & Hl & Hbl).
    exists (limitReader inner' limit read). simpl. rewrite HR, Hl.
    split; [reflexivity |]. split; [exact Hb |]. split; [reflexivity |].
    intros [Hlt Hin]. auto.
Qed.

Lemma Read_bufferOf (r : reader) (n : nat) :
  belowLimit r ->
  (0 < n <= length (bytes.Bytes (bufferOf r)))%nat ->
  exists r' : reader,
    Read r n = (r', take n (bytes.Bytes (bufferOf r)), None) /\
    bytes.Bytes (bufferOf r') = drop n (bytes.Bytes (bufferOf r)) /\
    limitsOf r' = limitsOf r.
Proof.
  induction r as [b | inner IH limit read]; intros Hbl Hn.
  - exists (BufferReader (advance b n)).
    split; [apply Read_Bytes; exact Hn |].
    split; [apply Bytes_advance | reflexivity].
  - destruct Hbl as [Hlt Hin].
    destruct (IH Hin Hn) as (inner' & HR & Hb & Hl).
    exists (limitReader inner' limit
              (uint32 (read + len (take n (bytes.Bytes (bufferOf inner)))))).
    cbn [Read bufferOf limitsOf].
    destruct (Z.leb_spec limit read); [lia |].
    rewrite HR, Hl. auto.
Qed.

Lemma ReadFull_bufferOf (r : reader) (data rest : list byte) :
  belowLimit r ->
  data <> [] ->
  bytes.Bytes (bufferOf r) = data ++ rest ->
  exists r' : reader,
    io.ReadFull Read r (length data) = (r', data, None) /\
    bytes.Bytes (bufferOf r') = rest /\
    limitsOf r' = limitsOf r.
Proof.
  intros Hbl Hd H.
  assert (Hn : (0 < length data <= length (bytes.Bytes (bufferOf r)))%nat).
  { rewrite H, length_app. destruct data; [contradiction | simpl; lia]. }
  destruct (Read_bufferOf r (length data) Hbl Hn) as (r' & HR & Hb & Hl).
  rewrite H, take_app_length in HR. rewrite H, drop_app_length in Hb.
  exists r'. split; [| auto].
  unfold io.ReadFull. cbn [io.ReadAtLeast_loop].
  change (length (@nil byte)) with 0%nat. rewrite Nat.sub_0_r.
  destruct (Nat.ltb_spec 0 (length data)); [| lia].
  rewrite HR. cbn [app].
  destruct (length data) eqn:E; [lia |].
  cbn [io.ReadAtLeast_loop]. rewrite <- E.
  rewrite Nat.ltb_irrefl, Nat.leb_refl. reflexivity.
Qed.

Lemma newMapReader_count_range (r r' : reader) (mr : mapReader) :
  newMapReader r = (r', Some mr, None) -> 0 <= mr_count mr <= 255.
Proof.
  unfold newMapReader, try.
  destruct (ReadByte r) as [[r1 b] [e|]]; [discriminate |].
  assert (Hfin : forall (r0 : reader) (n : Z),
    (if Len r0 <? n then (r0, None, Some errInvalidLength)
     else match ReadByte r0 with
          | (s, _, Some e) => (s, None, Some e)
          | (s, a, None) =>
              (s, Some (mkMapReader (limitReader s n 0) (int (byte_to_Z a)) 0),
               None)
          end) = (r', Some mr, None) -> 0 <= mr_count mr <= 255).
  { intros r0 n. destruct (Len r0 <? n); [discriminate |].
    destruct (ReadByte r0) as [[r2 c] [e|]]; [discriminate |].
    intros [= _ <-]. simpl. rewrite int_byte_to_Z. apply byte_to_Z_range. }
  destruct b; try discriminate.
  - destruct (ReadByte r1) as [[r2 bn] [e|]]; [discriminate |]. apply Hfin.
  - destruct (binary_Read r1 4) as [[r2 n] [e|]]; [discriminate |]. apply Hfin.
Qed.

Lemma newMapReader_Map32 (r : reader) (s3 s2 s1 s0 c : byte)
    (rest : list byte) :
  let n := binary.BigEndian_Uint [s3; s2; s1; s0] in
  belowLimit r ->
  bytes.Bytes (bufferOf r)
  = typeCodeMap32 :: s3 :: s2 :: s1 :: s0 :: c :: rest ->
  n <= len (c :: rest) ->
  exists r' : reader,
    newMapReader r
    = (r', Some (mkMapReader (limitReader r' n 0) (byte_to_Z c) 0), None) /\
    bytes.Bytes (bufferOf r') = rest /\
    limitsOf r' = limitsOf r.
Proof.
  intros n Hbl H Hn.
  destruct (ReadByte_bufferOf r _ _ H) as (r1 & HB1 & Hb1 & Hl1 & Hbl1).
  destruct (ReadFull_bufferOf r1 [s3; s2; s1; s0] (c :: rest) (Hbl1 Hbl)
              ltac:(discriminate) Hb1) as (r2 & HR & Hb2 & Hl2).
  destruct (ReadByte_bufferOf r2 _ _ Hb2) as (r3 & HB3 & Hb3 & Hl3 & _).
  exists r3. split; [| split; [exact Hb3 | congruence]].
  unfold newMapReader, try. rewrite HB1. unfold typeCodeMap32. cbn match.
  unfold binary_Read. change 4%nat with (length [s3; s2; s1; s0]).
  rewrite HR. fold n. rewrite Len_bufferOf, Hb2.
  destruct (Z.ltb_spec (len (c :: rest)) n); [lia |].
  rewrite HB3, int_byte_to_Z. reflexivity.
Qed.

Lemma newMapReader_Map8 (r : reader) (s c : byte) (rest : list byte) :
  bytes.Bytes (bufferOf r) = typeCodeMap8 :: s :: c :: rest ->
  byte_to_Z s <= len (c :: rest) ->
  exists r' : reader,
    newMapReader r
    = (r', Some (mkMapReader (limitReader r' (byte_to_Z s) 0) (byte_to_Z c) 0),
       None) /\
    bytes.Bytes (bufferOf r') = rest /\
    limitsOf r' = limitsOf r.
Proof.
  intros H Hn.
  destruct (ReadByte_bufferOf r _ _ H) as (r1 & HB1 & Hb1 & Hl1 & _).
  destruct (ReadByte_bufferOf r1 _ _ Hb1) as (r2 & HB2 & Hb2 & Hl2 & _).
  destruct (ReadByte_bufferOf r2 _ _ Hb2) as (r3 & HB3 & Hb3 & Hl3 & _).
  exists r3. split; [| split; [exact Hb3 | congruence]].
  assert (Hs : uint32 (byte_to_Z s) = byte_to_Z s).
  { pose proof (byte_to_Z_range s). unfold uint32. apply Z.mod_small. lia. }
  unfold newMapReader, try. rewrite HB1. unfold typeCodeMap8. cbn match.
  rewrite HB2, Hs, Len_bufferOf, Hb2.
  destruct (Z.ltb_spec (len (c :: rest)) (byte_to_Z s)); [lia |].
  rewrite HB3, int_byte_to_Z. reflexivity.
Qed.

(** C9: [newMapReader] reads the element count as one octet under both
    headers.  On every reader whose unread octets begin with a Map8 code,
    a size octet and an octet [c], and on every reader (no bounded reader
    around it at its limit) whose unread octets begin with a Map32 code,
    the four octets of the big-endian size and an octet [c], with the
    declared size within what is left, it succeeds with the count [c] and
    has consumed exactly the code, the size and that one octet: what
    follows [c] is left unread and is not part of the count.  So the map
    reader of every map it accepts, from any reader, has a count of at
    most 255. *)
Theorem newMapReader_count_is_one_byte :
  (forall (r r' : reader) (mr : mapReader),
     newMapReader r = (r', Some mr, None) -> 0 <= mr_count mr <= 255) /\
  (forall (r : reader) (s3 s2 s1 s0 c : byte) (rest : list byte),
     let n := binary.BigEndian_Uint [s3; s2; s1; s0] in
     belowLimit r ->
     bytes.Bytes (bufferOf r)
     = typeCodeMap32 :: s3 :: s2 :: s1 :: s0 :: c :: rest ->
     n <= len (c :: rest) ->
     exists r' : reader,
       newMapReader r
       = (r', Some (mkMapReader (limitReader r' n 0) (byte_to_Z c) 0), None) /\
       bytes.Bytes (bufferOf r') = rest /\
       limitsOf r' = limitsOf r) /\
  (forall (r : reader) (s c : byte) (rest : list byte),
     bytes.Bytes (bufferOf r) = typeCodeMap8 :: s :: c :: rest ->
     byte_to_Z s <= len (c :: rest) ->
     exists r' : reader,
       newMapReader r
       = (r', Some (mkMapReader (limitReader r' (byte_to_Z s) 0)
                                (byte_to_Z c) 0), None) /\
       bytes.Bytes (bufferOf r') = rest /\
       limitsOf r' = limitsOf r).
Proof.
  split; [exact newMapReader_count_range |].
  split; [exact newMapReader_Map32 | exact newMapReader_Map8].
Qed.

(** A Map32 whose count octet is 0xff and is followed by 0x02: the count
    is 255, and the octets behind the count octet are left in the reader;
    the same header read through a bounded reader. *)
Lemma newMapReader_count_is_one_byte_witness :
  let data := [xd1; x00; x00; x00; x03; xff; x02; x41] in
  (exists r' : reader,
     newMapReader (BufferReader (bytes.NewBuffer data))
     = (r', Some (mkMapReader (limitReader r' 3 0) 255 0), None) /\
     bytes.Bytes (bufferOf r') = [x02; x41] /\
     limitsOf r' = []) /\
  (exists r' : reader,
     newMapReader (limitReader (BufferReader (bytes.NewBuffer data)) 8 0)
     = (r', Some (mkMapReader (limitReader r' 3 0) 255 0), None) /\
     bytes.Bytes (bufferOf r') = [x02; x41] /\
     limitsOf r' = [8]) /\
  forall r' mr,
    newMapReader (BufferReader (bytes.NewBuffer data)) = (r', Some mr, None) ->
    0 <= mr_count mr <= 255.
Proof.
  split; [| split].
  - apply (proj1 (proj2 newMapReader_count_is_one_byte)
             (BufferReader
                (bytes.NewBuffer [xd1; x00; x00; x00; x03; xff; x02; x41]))
             x00 x00 x00 x03 xff [x02; x41]).
    + exact I.
    + reflexivity.
    + vm_compute. discriminate.
  - apply (proj1 (proj2 newMapReader_count_is_one_byte)
             (limitReader
                (BufferReader
                   (bytes.NewBuffer [xd1; x00; x00; x00; x03; xff; x02; x41]))
                8 0)
             x00 x00 x00 x03 xff [x02; x41]).
    + simpl. split; [lia | exact I].
    + reflexivity.
    + vm_compute. discriminate.
  - apply (proj1 newMapReader_count_is_one_byte).
Defined.

(** ** The bounded reader once its limit is reached *)

(** When a [limitReader] has counted as many octets as its limit, every
    read of one octet or more through [Read], and so every fixed-width
    integer and every payload read through it, fails with
    [errLimitReached] and takes nothing from the wrapped reader. *)
Theorem limitReader_refuses_at_limit (inner : reader) (limit read : Z)
    (n : nat) :
  limit <= read -> (0 < n)%nat ->
  let r := limitReader inner limit read in
  Read r n = (r, [], Some errLimitReached) /\
  io.ReadFull Read r n = (r, [], Some errLimitReached) /\
  binary_Read r n = (r, 0, Some errLimitReached).
Proof.
  intros Hl Hn r.
  assert (HR : forall k, Read r k = (r, [], Some errLimitReached)).
  { intros k. simpl. destruct (Z.leb_spec limit read); [reflexivity | lia]. }
  assert (HF : io.ReadFull Read r n = (r, [], Some errLimitReached)).
  { unfold io.ReadFull. cbn [io.ReadAtLeast_loop].
    change (length (@nil byte)) with 0%nat.
    destruct (Nat.ltb_spec 0 n); [| lia].
    rewrite HR. cbn [app length].
    destruct (Nat.leb_spec n 0); [lia | reflexivity]. }
  split; [apply HR |]. split; [exact HF |].
  unfold binary_Read. rewrite HF. reflexivity.
Qed.

Lemma limitReader_refuses_at_limit_witness :
  let r := limitReader (BufferReader (bytes.NewBuffer [x01; x02])) 0 0 in
  binary_Read r 2 = (r, 0, Some errLimitReached).
Proof.
  apply (limitReader_refuses_at_limit
           (BufferReader (bytes.NewBuffer [x01; x02])) 0 0 2).
  - reflexivity.
  - apply le_n_S, le_0_n.
Defined.

(** ** Timestamps and durations *)

(** A timestamp whose millisecond count is not negative decodes to the
    instant that many milliseconds after the epoch. *)
Theorem timestamp_decodes_nonnegative (ms : Z) (old : time.Time) :
  0 <= ms < 2 ^ 63 ->
  let enc := typeCodeTimestamp :: binary.BigEndian_PutUint 8 ms in
  decodes readTimestamp enc (time.ofMilli ms) /\
  time.UnixMilli (time.ofMilli ms) = ms /\
  unmarshals enc (ptr_Time old) (ptr_Time (time.ofMilli ms)).
Proof.
  intros Hms enc.
  assert (Hd : decodes readTimestamp enc (time.ofMilli ms)).
  { intros b rest H.
    destruct (ReadByte_Bytes b typeCodeTimestamp
                (binary.BigEndian_PutUint 8 ms ++ rest) H) as [HB Hb1].
    destruct (decodes_binary_Read (binary.BigEndian_PutUint 8 ms)
                (advance b 1) rest Hb1) as (b' & HR & Hb').
    rewrite length_PutUint in HR.
    rewrite (BigEndian_PutUint_Uint 8 ms) in HR
      by (change (256 ^ Z.of_nat 8) with (2 ^ 64); lia).
    exists b'. split; [| exact Hb'].
    unfold readTimestamp, try. rewrite HB. cbn match. rewrite HR.
    rewrite (int64_small ms) by lia.
    rewrite (int64_small (ms mod 1000)).
    - unfold time.ofMilli. rewrite Z.rem_mod_nonneg by lia. reflexivity.
    - pose proof (Z.mod_pos_bound ms 1000 ltac:(lia)).
      assert (1000 < 2 ^ 63) by reflexivity. lia. }
  split; [exact Hd |]. split.
  - unfold time.ofMilli, time.Unix, time.UnixMilli.
    rewrite Z.rem_mod_nonneg by lia.
    pose proof (Z.mod_pos_bound ms 1000 ltac:(lia)) as Hm.
    destruct (Z.ltb_spec (ms mod 1000 * 1000000) 0); [lia |].
    destruct (Z.leb_spec 1000000000 (ms mod 1000 * 1000000)); [lia |].
    simpl. rewrite Z.div_mul by lia.
    rewrite Z.quot_div_nonneg by lia.
    pose proof (Z.div_mod ms 1000 ltac:(lia)). lia.
  - intros depth b rest H. destruct (Hd b rest H) as (b' & HR & Hb').
    exists b'. split; [| exact Hb']. simpl. rewrite HR. reflexivity.
Qed.

Lemma timestamp_decodes_nonnegative_witness :
  unmarshals [x83; x00; x00; x00; x00; x00; x00; x04; xd2]
             (ptr_Time time.zero) (ptr_Time (time.mkTime 1 234000000)).
Proof.
  apply (proj2 (proj2 (timestamp_decodes_nonnegative 1234 time.zero
                         ltac:(split; vm_compute; congruence)))).
Defined.

Lemma unmarshal_milliseconds (d : nat) (r : reader) (v : Z) :
  unmarshal (S d) r (ptr_milliseconds v)
  = catchNull
      (let '(r, m, err) := milliseconds_unmarshal (unmarshal d) r in
       (r, ptr_milliseconds m, false, err)).
Proof. reflexivity. Qed.

(** A duration written by [milliseconds.marshal] and read back by
    [milliseconds.unmarshal] is cut down to whole milliseconds; the Null
    code decodes to the zero duration without the null indicator. *)
Theorem milliseconds_round_trip (depth : nat) (m old : Z) (b : bytes.Buffer)
    (rest : list byte) :
  (0 <= m < 2 ^ 32 * 1000000 ->
   bytes.Bytes b = fst (marshal [] (v_milliseconds m)) ++ rest ->
   exists b' : bytes.Buffer,
     unmarshal (S (S depth)) (BufferReader b) (ptr_milliseconds old)
     = (BufferReader b', ptr_milliseconds (m - m mod 1000000), false, None) /\
     bytes.Bytes b' = rest) /\
  (bytes.Bytes b = typeCodeNull :: rest ->
   unmarshal (S (S depth)) (BufferReader b) (ptr_milliseconds old)
   = (BufferReader (advance b 1), ptr_milliseconds 0, false, None) /\
   bytes.Bytes (advance b 1) = rest).
Proof.
  split.
  - intros Hm H.
    set (t := Z.quot m 1000000).
    assert (Ht : 0 <= t < 2 ^ 32).
    { unfold t. rewrite Z.quot_div_nonneg by lia.
      split; [apply Z.div_pos; lia |].
      apply Z.div_lt_upper_bound; lia. }
    assert (Hu : uint32 t = t) by (unfold uint32; apply Z.mod_small; lia).
    simpl in H. unfold milliseconds_marshal in H. fold t in H.
    rewrite Hu in H.
    destruct (unmarshals_uint32 t 0 Ht depth b rest H) as (b' & HR & Hb').
    exists b'. split; [| exact Hb'].
    rewrite unmarshal_milliseconds. unfold milliseconds_unmarshal.
    rewrite HR. simpl.
    replace (int64 (t * 1000000)) with (m - m mod 1000000); [reflexivity |].
    unfold t. rewrite Z.quot_div_nonneg by lia.
    pose proof (Z.div_mod m 1000000 ltac:(lia)).
    pose proof (Z.mod_pos_bound m 1000000 ltac:(lia)).
    rewrite int64_small; [lia |].
    change (2 ^ 32) with 4294967296 in Hm.
    change (2 ^ 63) with 9223372036854775808. lia.
  - intros H. destruct (ReadByte_Bytes b typeCodeNull rest H) as [HB Hb1].
    split; [| exact Hb1].
    assert (H32 : unmarshal (S depth) (BufferReader b) (ptr_uint32 0)
                  = (BufferReader (advance b 1), ptr_uint32 0, true, None)).
    { simpl. unfold readUint, try. rewrite HB. reflexivity. }
    rewrite unmarshal_milliseconds. unfold milliseconds_unmarshal.
    rewrite H32. reflexivity.
Qed.

Lemma milliseconds_round_trip_witness :
  exists b' : bytes.Buffer,
    unmarshal 2 (BufferReader (bytes.NewBuffer [x70; x00; x00; x00; x02; x41]))
              (ptr_milliseconds 0)
    = (BufferReader b', ptr_milliseconds 2000000, false, None) /\
    bytes.Bytes b' = [x41].
Proof.
  apply (proj1 (milliseconds_round_trip 0 2999999 0
                  (bytes.NewBuffer [x70; x00; x00; x00; x02; x41]) [x41])).
  - split; vm_compute; congruence.
  - reflexivity.
Defined.

(** ** Trailing omitted fields on the wire *)

Lemma len_zero_nil (fields : list (list byte)) :
  len fields = 0 -> fields = [].
Proof. destruct fields; [reflexivity | unfold len; simpl; lia]. Qed.

Lemma writeList_image (wr : writer) (fields : list (list byte)) :
  let count := len fields in
  let payload := len (concat fields) in
  (count = 0 -> writeList wr fields = (wr ++ [typeCodeList0], None)) /\
  (0 < count < 256 -> payload < 256 ->
   writeList wr fields
   = (wr ++ [typeCodeList8; byte_of_Z (payload + 1); byte_of_Z count]
         ++ concat fields, None)) /\
  (0 < count < math.MaxUint32 -> payload < math.MaxUint32 ->
   256 <= count \/ 256 <= payload ->
   writeList wr fields
   = (wr ++ [typeCodeList32]
         ++ binary.BigEndian_PutUint 4 (uint32 (payload + 4))
         ++ binary.BigEndian_PutUint 4 count ++ concat fields, None)) /\
  (math.MaxUint32 <= count \/ math.MaxUint32 <= payload ->
   writeList wr fields = (wr, Some (errorNew "too many fields"))).
Proof.
  intros count payload.
  assert (Hp : fieldsSize fields = payload) by apply fieldsSize_concat.
  assert (H0 : count = 0 -> payload = 0).
  { intros H. unfold payload. rewrite (len_zero_nil fields H).
    reflexivity. }
  assert (Hc : 0 <= count) by (unfold count, len; lia).
  unfold writeList, writeSlice. rewrite Hp. fold count.
  unfold math.MaxUint32 in *.
  split; [| split; [| split]].
  - intros H. rewrite H. reflexivity.
  - intros Hl Hs.
    destruct (Z.eqb_spec count 0); [lia |].
    destruct (Z.ltb_spec count 256); [| lia].
    destruct (Z.ltb_spec payload 256); [| lia].
    simpl. rewrite write_fields. unfold bytes.Write.
    rewrite <- app_assoc. reflexivity.
  - intros Hl Hs Hbig.
    destruct (Z.eqb_spec count 0); [lia |].
    assert (E8 : (count <? 256) && (payload <? 256) = false).
    { apply andb_false_iff.
      destruct Hbig; [left | right]; apply Z.ltb_ge; lia. }
    rewrite E8.
    destruct (Z.ltb_spec count 4294967295); [| lia].
    destruct (Z.ltb_spec payload 4294967295); [| lia].
    cbn [andb]. rewrite write_fields.
    unfold binary_Write, bytes.Write, bytes.WriteByte.
    assert (Hu : uint32 count = count)
      by (unfold uint32; apply Z.mod_small; lia).
    rewrite Hu, <- !app_assoc. reflexivity.
  - intros Hbig.
    destruct (Z.eqb_spec count 0); [specialize (H0 e); lia |].
    assert (E8 : (count <? 256) && (payload <? 256) = false).
    { apply andb_false_iff.
      destruct Hbig; [left | right]; apply Z.ltb_ge; lia. }
    assert (E32 : (count <? 4294967295) && (payload <? 4294967295) = false).
    { apply andb_false_iff.
      destruct Hbig; [left | right]; apply Z.ltb_ge; lia. }
    rewrite E8, E32. reflexivity.
Qed.

(** C6: [marshalComposite] emits a list of exactly [lastSetIdx + 1]
    elements, where [lastSetIdx] is the highest index of a non-omitted
    field: for every index up to it the element is the Null octet when the
    field is omitted and the encoding of the field otherwise, and the
    fields behind it leave nothing on the wire.  The octets written are
    the descriptor 00 53 code, the list header carrying the count
    [lastSetIdx + 1] (45 for no element, c0 size count for an 8-bit list,
    d0 size count with four octets each for a 32-bit list) and the
    elements one after the other.  For five fields of which 0 and 2 are
    set and 1, 3 and 4 are omitted the list has exactly the three elements
    (field 0, Null, field 2): 00 53 code c0 size 03, or
    00 53 code d0 size 00 00 00 03, followed by the encoding of field 0,
    the octet 40 and the encoding of field 2. *)
Theorem marshalComposite_trims_trailing (wr : writer) (code : amqpType) :
  (forall fields : list marshalField,
     (forall f, In f fields -> omit f = false ->
                snd (marshal [] (mf_value f)) = None) ->
     exists (lastSetIdx : Z) (elems : list (list byte)),
       isLastSetIdx fields lastSetIdx /\
       len elems = lastSetIdx + 1 /\
       elems = map fieldElement (take (Z.to_nat (lastSetIdx + 1)) fields) /\
       marshalComposite wr code fields
       = writeList (wr ++ [x00; typeCodeSmallUlong; code]) elems /\
       let count := lastSetIdx + 1 in
       let payload := len (concat elems) in
       let head := wr ++ [x00; typeCodeSmallUlong; code] in
       (count = 0 ->
        marshalComposite wr code fields = (head ++ [typeCodeList0], None)) /\
       (0 < count < 256 -> payload < 256 ->
        marshalComposite wr code fields
        = (head ++ [typeCodeList8; byte_of_Z (payload + 1); byte_of_Z count]
                ++ concat elems, None) /\
        byte_to_Z (byte_of_Z count) = count) /\
       (0 < count < math.MaxUint32 -> payload < math.MaxUint32 ->
        256 <= count \/ 256 <= payload ->
        marshalComposite wr code fields
        = (head ++ [typeCodeList32]
                ++ binary.BigEndian_PutUint 4 (uint32 (payload + 4))
                ++ binary.BigEndian_PutUint 4 count ++ concat elems, None) /\
        binary.BigEndian_Uint (binary.BigEndian_PutUint 4 count) = count) /\
       (math.MaxUint32 <= count \/ math.MaxUint32 <= payload ->
        marshalComposite wr code fields
        = (head, Some (errorNew "too many fields")))) /\
  (forall (v0 v1 v2 v3 v4 : value) (e0 e2 : list byte),
     marshal [] v0 = (e0, None) -> marshal [] v2 = (e2, None) ->
     e0 <> [] -> e2 <> [] ->
     let fields :=
       [mkMarshalField v0 false; mkMarshalField v1 true;
        mkMarshalField v2 false; mkMarshalField v3 true;
        mkMarshalField v4 true] in
     let payload := len e0 + 1 + len e2 in
     let head := wr ++ [x00; typeCodeSmallUlong; code] in
     isLastSetIdx fields 2 /\
     marshalComposite wr code fields
     = writeList head [e0; [typeCodeNull]; e2] /\
     (payload < 256 ->
      marshalComposite wr code fields
      = (head ++ [typeCodeList8; byte_of_Z (payload + 1); x03]
              ++ e0 ++ [typeCodeNull] ++ e2, None)) /\
     (256 <= payload < math.MaxUint32 ->
      marshalComposite wr code fields
      = (head ++ [typeCodeList32]
              ++ binary.BigEndian_PutUint 4 (uint32 (payload + 4))
              ++ [x00; x00; x00; x03] ++ e0 ++ [typeCodeNull] ++ e2, None)) /\
     (math.MaxUint32 <= payload ->
      marshalComposite wr code fields
      = (head, Some (errorNew "too many fields")))).
Proof.
  split.
  - intros fields Hok.
    destruct (marshalComposite_general wr code fields Hok) as (Hk & Hl & Hm).
    eexists _, _. split; [exact Hk |]. split; [exact Hl |].
    split; [reflexivity |]. split; [exact Hm |].
    set (k := lastFrom 0 fields (-1)) in *.
    set (elems := map fieldElement (take (Z.to_nat (k + 1)) fields)) in *.
    destruct (writeList_image (wr ++ [x00; typeCodeSmallUlong; code]) elems)
      as (W0 & W8 & W32 & Werr).
    rewrite Hl in W0, W8, W32, Werr. cbv zeta. rewrite Hm.
    split; [exact W0 |]. split; [| split; [| exact Werr]].
    + intros Hc Hp. split; [apply W8; assumption |].
      apply byte_to_of_Z. lia.
    + intros Hc Hp Hbig. split; [apply W32; assumption |].
      apply BigEndian_PutUint_Uint. unfold math.MaxUint32 in Hc.
      change (256 ^ Z.of_nat 4) with 4294967296. lia.
  - intros v0 v1 v2 v3 v4 e0 e2 H0 H2 N0 N2 fields payload head.
    pose proof (marshalComposite_five wr code v0 v1 v2 v3 v4 e0 e2 H0 H2 N0 N2)
      as Hm.
    split; [exact (lastFrom_isLastSetIdx fields) |]. split; [exact Hm |].
    destruct (writeList_image head [e0; [typeCodeNull]; e2])
      as (_ & W8 & W32 & Werr).
    assert (Hp : len (concat [e0; [typeCodeNull]; e2]) = payload).
    { unfold payload, len. simpl. rewrite length_app. simpl.
      rewrite app_nil_r. simpl. lia. }
    assert (Hc : len [e0; [typeCodeNull]; e2] = 3) by reflexivity.
    assert (Hcat : concat [e0; [typeCodeNull]; e2]
                   = e0 ++ [typeCodeNull] ++ e2).
    { simpl. rewrite app_nil_r. reflexivity. }
    rewrite Hp, Hc, Hcat in W8, W32. rewrite Hp, Hc in Werr.
    change (byte_of_Z 3) with x03 in W8.
    change (binary.BigEndian_PutUint 4 3) with [x00; x00; x00; x03] in W32.
    unfold fields. rewrite Hm. unfold math.MaxUint32 in *.
    split; [| split].
    + intros Hs. apply W8; lia.
    + intros Hs. apply W32; lia.
    + intros Hs. apply Werr. right. exact Hs.
Qed.

(** The composite with the fields true, (omitted) writes a list of one
    element; the composite with the fields "a", (omitted), uint32 5,
    (omitted), (omitted) writes a list of three. *)
Lemma marshalComposite_trims_trailing_witness :
  marshalComposite [] x10
    [mkMarshalField (v_bool true) false; mkMarshalField (v_uint32 7) true]
  = ([x00; x53; x10; xc0; x02; x01; x41], None) /\
  marshalComposite [] x10
    [mkMarshalField (v_string [x61]) false; mkMarshalField (v_bool true) true;
     mkMarshalField (v_uint32 5) false; mkMarshalField (v_bool true) true;
     mkMarshalField v_unsupported true]
  = ([x00; x53; x10; xc0; x0a; x03; xa1; x01; x61; x40; x70; x00; x00; x00; x05],
     None).
Proof.
  split.
  - destruct (proj1 (marshalComposite_trims_trailing [] x10)
                [mkMarshalField (v_bool true) false;
                 mkMarshalField (v_uint32 7) true])
      as (k & elems & Hk & _ & -> & _ & _ & W8 & _).
    + intros f [<- | [<- | []]]; simpl; intros Ho;
        try discriminate; reflexivity.
    + assert (E : k = 0).
      { destruct Hk as [Hu [-> | (i & f & Hi & Ho & ->)]].
        - specialize (Hu 0%nat _ eq_refl eq_refl). lia.
        - destruct i as [|[|i]]; simpl in Hi; [reflexivity | | discriminate].
          injection Hi as <-. discriminate. }
      subst k. apply W8; [lia | reflexivity].
  - refine (proj1 (proj2 (proj2 (proj2 (marshalComposite_trims_trailing [] x10)
              (v_string [x61]) (v_bool true) (v_uint32 5) (v_bool true)
              v_unsupported [xa1; x01; x61] [x70; x00; x00; x00; x05]
              eq_refl eq_refl _ _))) _).
    + discriminate.
    + discriminate.
    + reflexivity.
Defined.

(** ** Lists, arrays and composites read back *)

(** [writeSlice] appends to the writer what it writes to an empty one. *)
Lemma writeSlice_prefix (wr : writer) (isArray : bool) (of_ : amqpType)
    (fields : list (list byte)) :
  writeSlice wr isArray of_ fields
  = (if snd (writeSlice [] isArray of_ fields) is None
     then wr ++ fst (writeSlice [] isArray of_ fields) else wr,
     snd (writeSlice [] isArray of_ fields)).
Proof.
  unfold writeSlice.
  destruct (len fields =? 0).
  - destruct isArray; reflexivity.
  - destruct (_ && _).
    + simpl. rewrite !write_fields. unfold bytes.Write, bytes.WriteByte.
      destruct isArray; simpl; rewrite <- ?app_assoc; reflexivity.
    + destruct (_ && _); [| reflexivity].
      simpl. rewrite !write_fields.
      unfold binary_Write, bytes.Write, bytes.WriteByte.
      destruct isArray; simpl; rewrite <- ?app_assoc; reflexivity.
Qed.

Lemma count_le_size (fields : list (list byte)) :
  Forall (fun field => field <> []) fields -> len fields <= fieldsSize fields.
Proof.
  rewrite fieldsSize_concat. unfold len.
  induction 1 as [|f fields Hf _ IH]; simpl; [lia |].
  rewrite length_app. destruct f; [contradiction |]. simpl. lia.
Qed.

Lemma slice_header_round_trip_aux (isArray : bool) (of_ : amqpType)
    (fields : list (list byte)) (enc : list byte) :
  writeSlice [] isArray of_ fields = (enc, None) ->
  Forall (fun field => field <> []) fields ->
  forall (b : bytes.Buffer) (rest : list byte),
    bytes.Bytes b = enc ++ rest ->
    exists (b' : bytes.Buffer) (length : Z),
      readHeaderSlice (BufferReader b)
      = (BufferReader b', (len fields, length), None) /\
      bytes.Bytes b'
      = (if isArray then [of_] else []) ++ concat fields ++ rest.
Proof.
  intros Hw Hne b rest H.
  pose proof (count_le_size fields Hne) as Hcs.
  assert (H0 : 0 <= len fields) by (unfold len; lia).
  set (tail := (if isArray then [of_] else []) ++ concat fields ++ rest).
  assert (Htail : len fields <= len tail).
  { unfold tail, len. rewrite !length_app.
    rewrite fieldsSize_concat in Hcs. unfold len in Hcs. lia. }
  unfold writeSlice, math.MaxUint32 in Hw.
  destruct (Z.eqb_spec (len fields) 0) as [Hz | Hnz].
  - destruct isArray; [discriminate |]. injection Hw as <-.
    destruct fields; [| unfold len in Hz; simpl in Hz; lia].
    destruct (ReadByte_Bytes b typeCodeList0 rest H) as [HB Hb1].
    exists (advance b 1), 0. unfold readHeaderSlice, try. rewrite HB.
    split; [reflexivity | exact Hb1].
  - destruct ((len fields <? 256) && (fieldsSize fields <? 256)) eqn:E8.
    + (* 8-bit header *)
      apply andb_prop in E8 as [Hl _]. apply Z.ltb_lt in Hl.
      simpl in Hw. rewrite write_fields in Hw. injection Hw as <-.
      assert (Ht : bytes.Bytes b
                   = (if isArray then typeCodeArray8 else typeCodeList8)
                     :: byte_of_Z (fieldsSize fields + 1)
                     :: byte_of_Z (len fields) :: tail).
      { rewrite H. unfold tail, bytes.Write, bytes.WriteByte.
        destruct isArray; simpl; rewrite <- ?app_assoc; reflexivity. }
      destruct (ReadByte_Bytes b _ _ Ht) as [HB Hb1].
      destruct (ReadByte_Bytes (advance b 1) _ _ Hb1) as [HB2 Hb2].
      destruct (ReadByte_Bytes (advance (advance b 1) 1) _ _ Hb2)
        as [HB3 Hb3].
      eexists _, _. split; [| exact Hb3].
      unfold readHeaderSlice, try. rewrite HB.
      assert (Hlen : (Len (BufferReader (advance (advance (advance b 1) 1) 1))
                      <? byte_to_Z (byte_of_Z (len fields))) = false).
      { rewrite Len_Bytes, Hb3, byte_to_of_Z by lia. apply Z.ltb_ge.
        exact Htail. }
      destruct isArray; cbn match; rewrite HB2, HB3, Hlen;
        rewrite byte_to_of_Z by lia; reflexivity.
    + (* 32-bit header *)
      destruct ((len fields <? 4294967295)
                && (fieldsSize fields <? 4294967295)) eqn:E32;
        [| discriminate].
      apply andb_prop in E32 as [Hl _]. apply Z.ltb_lt in Hl.
      simpl in Hw. rewrite write_fields in Hw. injection Hw as <-.
      set (sz := binary.BigEndian_PutUint 4 (uint32 (fieldsSize fields + 4))).
      set (ct := binary.BigEndian_PutUint 4 (uint32 (len fields))).
      assert (Ht : bytes.Bytes b
                   = (if isArray then typeCodeArray32 else typeCodeList32)
                     :: sz ++ ct ++ tail).
      { rewrite H. unfold tail, sz, ct, binary_Write, bytes.Write,
          bytes.WriteByte.
        destruct isArray; simpl; rewrite <- ?app_assoc; reflexivity. }
      destruct (ReadByte_Bytes b _ _ Ht) as [HB Hb1].
      destruct (decodes_binary_Read sz (advance b 1) _ Hb1)
        as (b2 & HR2 & Hb2).
      destruct (decodes_binary_Read ct b2 _ Hb2) as (b3 & HR3 & Hb3).
      unfold sz in HR2 at 1. unfold ct in HR3 at 1.
      rewrite length_PutUint in HR2, HR3.
      assert (Hu : uint32 (len fields) = len fields).
      { unfold uint32. apply Z.mod_small.
        change (2 ^ 32) with 4294967296. lia. }
      assert (Hct : binary.BigEndian_Uint ct = len fields).
      { unfold ct. rewrite Hu. apply BigEndian_PutUint_Uint.
        change (256 ^ Z.of_nat 4) with 4294967296. lia. }
      assert (Hi : int (len fields) = len fields).
      { unfold int, signed. rewrite Z.mod_small
          by (change (2 ^ 64) with 18446744073709551616; lia).
        change (2 ^ (64 - 1)) with 9223372036854775808.
        destruct (Z.ltb_spec (len fields) 9223372036854775808);
          [reflexivity | lia]. }
      rewrite Hct in HR3.
      exists b3, (int (binary.BigEndian_Uint sz)). split; [| exact Hb3].
      assert (Hlen : (Len (BufferReader b3) <? int (len fields)) = false).
      { rewrite Len_Bytes, Hb3, Hi. apply Z.ltb_ge. exact Htail. }
      unfold readHeaderSlice, try. rewrite HB.
      destruct isArray; cbn match; rewrite HR2, HR3, Hlen, Hi; reflexivity.
Qed.

(** The header of a list or array that [writeSlice] wrote is read back by
    [readHeaderSlice] with the number of fields written, when every field
    has at least one octet; the reader is left in front of the element
    type code (for an array) and the fields. *)
Theorem slice_header_round_trip (isArray : bool) (of_ : amqpType)
    (fields : list (list byte)) (enc : list byte) :
  writeSlice [] isArray of_ fields = (enc, None) ->
  Forall (fun field => field <> []) fields ->
  forall (b : bytes.Buffer) (rest : list byte),
    bytes.Bytes b = enc ++ rest ->
    exists (b' : bytes.Buffer) (length : Z),
      readHeaderSlice (BufferReader b)
      = (BufferReader b', (len fields, length), None) /\
      bytes.Bytes b'
      = (if isArray then [of_] else []) ++ concat fields ++ rest.
Proof. exact (slice_header_round_trip_aux isArray of_ fields enc). Qed.

Lemma writeSlice_prefix_list (wr : writer) (fields : list (list byte)) :
  writeList wr fields
  = (if snd (writeSlice [] false x00 fields) is None
     then wr ++ fst (writeSlice [] false x00 fields) else wr,
     snd (writeSlice [] false x00 fields)).
Proof. apply writeSlice_prefix. Qed.

Lemma slice_header_round_trip_witness :
  exists (b' : bytes.Buffer) (length : Z),
    readHeaderSlice (BufferReader (bytes.NewBuffer [xc0; x03; x02; x41; x42]))
    = (BufferReader b', (2, length), None) /\
    bytes.Bytes b' = [x41; x42].
Proof.
  apply (slice_header_round_trip false x00 [[x41]; [x42]]
           [xc0; x03; x02; x41; x42] eq_refl
           ltac:(repeat constructor; discriminate)
           (bytes.NewBuffer [xc0; x03; x02; x41; x42]) [] eq_refl).
Defined.

Lemma fieldElement_nonempty (f : marshalField) : fieldElement f <> [].
Proof.
  unfold fieldElement, nonNil. destruct (omit f); [discriminate |].
  destruct (fst (marshal [] (mf_value f))); discriminate.
Qed.

Lemma decodes_composite_prefix (code : amqpType) :
  forall (b : bytes.Buffer) (rest : list byte),
    bytes.Bytes b = [x00; typeCodeSmallUlong; code] ++ rest ->
    readCompositeHeader (BufferReader b)
    = (let '(r, (fields, _), err) :=
         readHeaderSlice (BufferReader (advance (advance (advance b 1) 1) 1))
       in (r, (code, fields), err)) /\
    bytes.Bytes (advance (advance (advance b 1) 1) 1) = rest.
Proof.
  intros b rest H.
  destruct (ReadByte_Bytes b x00 _ H) as [HB Hb1].
  destruct (ReadByte_Bytes (advance b 1) typeCodeSmallUlong _ Hb1)
    as [HB2 Hb2].
  destruct (ReadByte_Bytes (advance (advance b 1) 1) code _ Hb2)
    as [HB3 Hb3].
  split; [| exact Hb3].
  unfold readCompositeHeader, try. rewrite HB. simpl.
  unfold readInt, try. rewrite HB2. unfold typeCodeSmallUlong. cbn match.
  rewrite HB3. cbn match. rewrite int_byte_to_Z, byte_of_to_Z. reflexivity.
Qed.

Lemma composite_header_aux (code : amqpType)
    (fields : list marshalField) (enc : list byte) :
  marshalComposite [] code fields = (enc, None) ->
  exists (lastSetIdx : Z) (elems : list (list byte)),
    isLastSetIdx fields lastSetIdx /\
    -1 <= lastSetIdx < len fields /\
    elems = map fieldElement (take (Z.to_nat (lastSetIdx + 1)) fields) /\
    forall (b : bytes.Buffer) (rest : list byte),
      bytes.Bytes b = enc ++ rest ->
      exists b' : bytes.Buffer,
        readCompositeHeader (BufferReader b)
        = (BufferReader b', (code, lastSetIdx + 1), None) /\
        bytes.Bytes b' = concat elems ++ rest.
Proof.
  intros Hm.
  assert (Hok : forall f, In f fields -> omit f = false ->
                          snd (marshal [] (mf_value f)) = None).
  { intros f Hf Ho. unfold marshalComposite in Hm.
    destruct (marshalFields 0 fields (replicate (length fields) []) (-1))
      as [[raw last] [e|]] eqn:E; [discriminate |].
    clear Hm. revert E Hf. generalize (replicate (length fields) (@nil byte)).
    generalize (-1). generalize 0%nat.
    induction fields as [|g fields IH]; intros i last0 raw0 E Hf;
      [contradiction |].
    simpl in E. destruct Hf as [-> | Hf].
    - rewrite Ho in E.
      destruct (marshal [] (mf_value f)) as [buf [e|]]; [discriminate |].
      reflexivity.
    - destruct (omit g).
      + eapply IH; eauto.
      + destruct (marshal [] (mf_value g)) as [buf [e|]]; [discriminate |].
        eapply IH; eauto. }
  destruct (marshalComposite_general [] code fields Hok) as (Hk & Hl & He).
  set (k := lastFrom 0 fields (-1)) in *.
  set (elems := map fieldElement (take (Z.to_nat (k + 1)) fields)) in *.
  exists k, elems. split; [exact Hk |].
  split; [pose proof (lastFrom_bounds fields 0 (-1) ltac:(lia)) as Hb;
          fold k in Hb; unfold len; simpl in Hb; lia |].
  split; [reflexivity |].
  intros b rest H.
  rewrite He, writeSlice_prefix_list in Hm.
  destruct (writeSlice [] false x00 elems) as [lenc [e|]] eqn:Ew;
    simpl in Hm; [discriminate |].
  injection Hm as <-.
  change (bytes.Bytes b = [x00; typeCodeSmallUlong; code] ++ lenc ++ rest)
    in H.
  destruct (decodes_composite_prefix code b (lenc ++ rest) H) as [HC Hb3].
  assert (Hne : Forall (fun field => field <> []) elems).
  { unfold elems. apply Stdlib.Lists.List.Forall_forall. intros x Hx.
    apply in_map_iff in Hx as (f & <- & _). apply fieldElement_nonempty. }
  destruct (slice_header_round_trip_aux false x00 elems lenc Ew Hne _ rest Hb3)
    as (b' & length & HR & Hb').
  exists b'. rewrite HC, HR, Hl. split; [reflexivity | exact Hb'].
Qed.

(** What [marshalComposite] wrote is read back by [readCompositeHeader] as
    the descriptor it was given and a field count of [lastSetIdx + 1]; the
    reader is left in front of the elements. *)
Theorem composite_header_round_trip (code : amqpType)
    (fields : list marshalField) (enc : list byte) :
  marshalComposite [] code fields = (enc, None) ->
  exists (lastSetIdx : Z) (elems : list (list byte)),
    isLastSetIdx fields lastSetIdx /\
    elems = map fieldElement (take (Z.to_nat (lastSetIdx + 1)) fields) /\
    forall (b : bytes.Buffer) (rest : list byte),
      bytes.Bytes b = enc ++ rest ->
      exists b' : bytes.Buffer,
        readCompositeHeader (BufferReader b)
        = (BufferReader b', (code, lastSetIdx + 1), None) /\
        bytes.Bytes b' = concat elems ++ rest.
Proof.
  intros Hm.
  destruct (composite_header_aux code fields enc Hm)
    as (k & elems & Hk & _ & He & Hr).
  exists k, elems. auto.
Qed.

Lemma composite_header_round_trip_witness :
  exists b' : bytes.Buffer,
    readCompositeHeader
      (BufferReader
         (bytes.NewBuffer [x00; x53; x10; xc0; x04; x01; xa1; x01; x61]))
    = (BufferReader b', (x10, 1), None) /\
    bytes.Bytes b' = [xa1; x01; x61].
Proof.
  destruct (composite_header_round_trip x10
              [mkMarshalField (v_string [x61]) false;
               mkMarshalField (v_bool true) true]
              [x00; x53; x10; xc0; x04; x01; xa1; x01; x61] eq_refl)
    as (k & elems & Hk & -> & Hr).
  assert (E : k = 0).
  { destruct Hk as [Hu [-> | (i & f & Hi & Ho & ->)]].
    - specialize (Hu 0%nat _ eq_refl eq_refl). lia.
    - destruct i as [|[|i]]; simpl in Hi; [reflexivity | | discriminate].
      injection Hi as <-. discriminate. }
  subst k.
  apply (Hr (bytes.NewBuffer [x00; x53; x10; xc0; x04; x01; xa1; x01; x61])
            [] eq_refl).
Defined.

Lemma lastFrom_all_omitted (fields : list marshalField) :
  forall (i : nat) (last : Z),
    (forall f, In f fields -> omit f = true) ->
    lastFrom i fields last = last.
Proof.
  induction fields as [|f fields IH]; intros i last Ho; simpl.
  - reflexivity.
  - rewrite (Ho f (or_introl eq_refl)). apply IH.
    intros g Hg. apply Ho. right. exact Hg.
Qed.

Lemma handleNulls_all (fields : list unmarshalField) :
  forall st : store,
    let hs := nullHandlers fields in
    (forall (j : nat) (h : nullHandler),
       hs !! j = Some h -> snd (h (afterHandlers hs j st)) = None) ->
    handleNulls fields st = (afterHandlers hs (length hs) st, None).
Proof.
  induction fields as [|f fields IH]; intros st hs Hall.
  - reflexivity.
  - unfold hs, nullHandlers in *. cbn [omap list_omap handleNulls] in *.
    destruct (handleNull f) as [h|].
    + pose proof (Hall 0%nat h eq_refl) as H0.
      unfold afterHandlers in H0. simpl in H0.
      destruct (h st) as [st1 [e|]] eqn:Eh; [discriminate |].
      rewrite IH.
      * unfold afterHandlers. simpl. rewrite Eh. reflexivity.
      * intros j h' Hj. specialize (Hall (S j) h' Hj).
        unfold afterHandlers in *. simpl in Hall. rewrite Eh in Hall.
        exact Hall.
    + apply IH. exact Hall.
Qed.

Lemma handleNulls_first_failure (fields : list unmarshalField) :
  forall (st : store) (j : nat) (h : nullHandler) (e : error),
    let hs := nullHandlers fields in
    hs !! j = Some h ->
    (forall (i : nat) (h' : nullHandler),
       (i < j)%nat -> hs !! i = Some h' ->
       snd (h' (afterHandlers hs i st)) = None) ->
    snd (h (afterHandlers hs j st)) = Some e ->
    handleNulls fields st = (fst (h (afterHandlers hs j st)), Some e).
Proof.
  induction fields as [|f fields IH]; intros st j h e hs Hj Hbefore Hfail.
  - discriminate.
  - unfold hs, nullHandlers in *. cbn [omap list_omap handleNulls] in *.
    destruct (handleNull f) as [h0|].
    + destruct j as [|j].
      * injection Hj as <-. unfold afterHandlers in *. simpl in *.
        destruct (h0 st) as [st1 [e1|]]; simpl in *; [| discriminate].
        injection Hfail as <-. reflexivity.
      * pose proof (Hbefore 0%nat h0 ltac:(lia) eq_refl) as H0.
        unfold afterHandlers in H0. simpl in H0.
        destruct (h0 st) as [st1 [e1|]] eqn:Eh; [discriminate |].
        assert (Hs : forall i, afterHandlers (h0 :: omap handleNull fields)
                                 (S i) st
                               = afterHandlers (omap handleNull fields) i st1).
        { intros i. unfold afterHandlers. simpl. rewrite Eh. reflexivity. }
        rewrite Hs in Hfail. rewrite Hs.
        apply IH; [exact Hj | | exact Hfail].
        intros i h' Hi Hh'. rewrite <- Hs.
        apply (Hbefore (S i) h'); [lia | exact Hh'].
    + apply IH; assumption.
Qed.

(** A composite all of whose fields are omitted is written as the four
    octets 00 53 code 45, whatever the values of the fields.  Decoding
    these octets against any schema reads nothing beyond them and runs the
    null handlers of the schema in the order of the fields, each on the
    variables as the one before it left them: when none fails the result
    is what the last one left, and the first one that fails ends the
    decoding with its error, the handlers behind it not being run. *)
Theorem composite_without_fields (code : amqpType) :
  (forall fields : list marshalField,
     (forall f, In f fields -> omit f = true) ->
     marshalComposite [] code fields
     = ([x00; typeCodeSmallUlong; code; typeCodeList0], None)) /\
  (forall (depth : nat) (schema : list unmarshalField) (st : store)
          (b : bytes.Buffer) (rest : list byte),
     let hs := nullHandlers schema in
     bytes.Bytes b = [x00; typeCodeSmallUlong; code; typeCodeList0] ++ rest ->
     (forall (j : nat) (h : nullHandler),
        hs !! j = Some h -> snd (h (afterHandlers hs j st)) = None) ->
     exists b' : bytes.Buffer,
       unmarshalComposite depth (BufferReader b) code schema st
       = (BufferReader b', afterHandlers hs (length hs) st, None) /\
       bytes.Bytes b' = rest) /\
  (forall (depth : nat) (schema : list unmarshalField) (st : store)
          (b : bytes.Buffer) (rest : list byte)
          (j : nat) (h : nullHandler) (e : error),
     let hs := nullHandlers schema in
     bytes.Bytes b = [x00; typeCodeSmallUlong; code; typeCodeList0] ++ rest ->
     hs !! j = Some h ->
     (forall (i : nat) (h' : nullHandler),
        (i < j)%nat -> hs !! i = Some h' ->
        snd (h' (afterHandlers hs i st)) = None) ->
     snd (h (afterHandlers hs j st)) = Some e ->
     exists b' : bytes.Buffer,
       unmarshalComposite depth (BufferReader b) code schema st
       = (BufferReader b', fst (h (afterHandlers hs j st)), Some e) /\
       bytes.Bytes b' = rest).
Proof.
  assert (Hdec : forall (depth : nat) (schema : list unmarshalField)
                        (st : store) (b : bytes.Buffer) (rest : list byte),
    bytes.Bytes b = [x00; typeCodeSmallUlong; code; typeCodeList0] ++ rest ->
    exists b' : bytes.Buffer,
      unmarshalComposite depth (BufferReader b) code schema st
      = (BufferReader b', fst (handleNulls schema st),
         snd (handleNulls schema st)) /\
      bytes.Bytes b' = rest).
  { intros depth schema st b rest H.
    destruct (decodes_composite_prefix code b (typeCodeList0 :: rest) H)
      as [HC Hb3].
    destruct (ReadByte_Bytes _ typeCodeList0 rest Hb3) as [HB Hb4].
    eexists. split; [| exact Hb4].
    unfold unmarshalComposite. rewrite HC.
    unfold readHeaderSlice, try. rewrite HB. unfold typeCodeList0.
    cbn match. rewrite (Byte.byte_dec_lb eq_refl). simpl negb. cbn match.
    assert (Hl : (len schema <? 0) = false)
      by (apply Z.ltb_ge; unfold len; lia).
    rewrite Hl. simpl. change (Z.to_nat 0) with 0%nat. rewrite ?drop_0.
    destruct (handleNulls schema st) as [st' err]. reflexivity. }
  split; [| split].
  - intros fields Ho.
    destruct (marshalComposite_general [] code fields) as (_ & _ & ->).
    + intros f Hf Hn. rewrite (Ho f Hf) in Hn. discriminate.
    + rewrite (lastFrom_all_omitted fields 0 (-1) Ho). reflexivity.
  - intros depth schema st b rest hs H Hall.
    destruct (Hdec depth schema st b rest H) as (b' & HU & Hb').
    exists b'. split; [| exact Hb'].
    rewrite HU, (handleNulls_all schema st Hall). reflexivity.
  - intros depth schema st b rest j h e hs H Hj Hbefore Hfail.
    destruct (Hdec depth schema st b rest H) as (b' & HU & Hb').
    exists b'. split; [| exact Hb'].
    rewrite HU, (handleNulls_first_failure schema st j h e Hj Hbefore Hfail).
    reflexivity.
Qed.

(** The End performative without its only field; a schema whose first
    handler sets a default, whose second refuses and whose third is not
    run. *)
Lemma composite_without_fields_witness :
  marshalComposite [] x17 [mkMarshalField (v_string [x61]) true]
  = ([x00; x53; x17; x45], None) /\
  (exists b' : bytes.Buffer,
     unmarshalComposite 1 (BufferReader (bytes.NewBuffer [x00; x53; x17; x45]))
       x17
       [mkUnmarshalField 0 (Some (defaultUint32 0 512));
        mkUnmarshalField 1 None;
        mkUnmarshalField 2 (Some (defaultUint16 2 7))]
       [ptr_uint32 0; ptr_bool false; ptr_uint16 0]
     = (BufferReader b', [ptr_uint32 512; ptr_bool false; ptr_uint16 7], None)
     /\ bytes.Bytes b' = []) /\
  (exists b' : bytes.Buffer,
     unmarshalComposite 1 (BufferReader (bytes.NewBuffer [x00; x53; x17; x45]))
       x17
       [mkUnmarshalField 0 (Some (defaultUint32 0 512));
        mkUnmarshalField 1 (Some (required "Handle"));
        mkUnmarshalField 2 (Some (defaultUint16 2 7))]
       [ptr_uint32 0; ptr_bool false; ptr_uint16 0]
     = (BufferReader b', [ptr_uint32 512; ptr_bool false; ptr_uint16 0],
        Some (errorNew "Handle is required")) /\
     bytes.Bytes b' = []).
Proof.
  split; [| split].
  - apply (proj1 (composite_without_fields x17)).
    intros f [<- | []]. reflexivity.
  - apply (proj1 (proj2 (composite_without_fields x17)) 1%nat
             [mkUnmarshalField 0 (Some (defaultUint32 0 512));
              mkUnmarshalField 1 None;
              mkUnmarshalField 2 (Some (defaultUint16 2 7))]
             [ptr_uint32 0; ptr_bool false; ptr_uint16 0]
             (bytes.NewBuffer [x00; x53; x17; x45]) [] eq_refl).
    intros [|[|j]] h Hj; simpl in Hj; try discriminate;
      injection Hj as <-; reflexivity.
  - apply (proj2 (proj2 (composite_without_fields x17)) 1%nat
             [mkUnmarshalField 0 (Some (defaultUint32 0 512));
              mkUnmarshalField 1 (Some (required "Handle"));
              mkUnmarshalField 2 (Some (defaultUint16 2 7))]
             [ptr_uint32 0; ptr_bool false; ptr_uint16 0]
             (bytes.NewBuffer [x00; x53; x17; x45]) []
             1%nat (required "Handle") (errorNew "Handle is required")
             eq_refl eq_refl).
    + intros [|i] h' Hi Hh'; [| lia]. simpl in Hh'.
      injection Hh' as <-. reflexivity.
    + reflexivity.
Defined.

(** ** Arrays of symbols *)

Lemma symbolElems_ok (ofType : amqpType) (symbols : list (list byte)) :
  ofType = typeCodeSym8 \/ ofType = typeCodeSym32 ->
  forall acc elems : list (list byte),
    symbolElems symbols ofType acc = (elems, None) ->
    elems = acc ++ map (symbolElem ofType) symbols.
Proof.
  intros Ht. induction symbols as [|s symbols IH]; intros acc elems H;
    simpl in H.
  - injection H as <-. rewrite app_nil_r. reflexivity.
  - destruct (writeSymbol [] s ofType) as [buf [e|]] eqn:Ew; [discriminate |].
    apply IH in H. rewrite H, <- app_assoc. simpl. repeat f_equal.
    unfold writeSymbol in Ew.
    destruct (negb (utf8.ValidString s)); [discriminate |].
    destruct Ht as [-> | ->]; injection Ew as <-; reflexivity.
Qed.

Lemma symbolElem_nonempty (ofType : amqpType) (s : list byte) :
  symbolElem ofType s <> [].
Proof. unfold symbolElem. destruct (Byte.eqb _ _); discriminate. Qed.

Lemma readArrayElems_ok (ofType : amqpType) (symbols : list (list byte)) :
  (forall s, In s symbols ->
             decodes (fun r => readVariableType r ofType)
                     (symbolElem ofType s) s) ->
  forall (acc : list (list byte)) (b : bytes.Buffer) (rest : list byte),
    bytes.Bytes b = concat (map (symbolElem ofType) symbols) ++ rest ->
    exists b' : bytes.Buffer,
      readArrayElems (length symbols) (BufferReader b) ofType acc
      = (BufferReader b', acc ++ symbols, None) /\
      bytes.Bytes b' = rest.
Proof.
  induction symbols as [|s symbols IH]; intros Hd acc b rest H.
  - exists b. simpl. rewrite app_nil_r. split; [reflexivity | exact H].
  - simpl in H. rewrite <- app_assoc in H.
    destruct (Hd s (or_introl eq_refl) b _ H) as (b1 & HR & Hb1).
    destruct (IH (fun x Hx => Hd x (or_intror Hx)) (acc ++ [s]) b1 rest Hb1)
      as (b' & HA & Hb').
    exists b'. split; [| exact Hb'].
    cbn [readArrayElems length]. unfold try. rewrite HR, HA.
    rewrite <- app_assoc. reflexivity.
Qed.

Lemma elem_le_size (s : list byte) (symbols : list (list byte))
    (ofType : amqpType) :
  In s symbols ->
  len s <= fieldsSize (map (symbolElem ofType) symbols).
Proof.
  rewrite fieldsSize_concat. unfold len.
  induction symbols as [|x symbols IH]; intros Hin; [destruct Hin |].
  destruct Hin as [-> | Hin]; simpl; rewrite length_app.
  - unfold symbolElem. rewrite length_app. lia.
  - specialize (IH Hin). lia.
Qed.

(** An array of symbols written by [writeSymbolArray] is read back by
    [readSymbolArray], and by [unmarshal] into a [*[]Symbol], as the same
    symbols in the same order, under the Sym8 and under the Sym32 element
    code. *)
Theorem symbol_array_round_trip (symbols : list (list byte))
    (enc : list byte) (old : list (list byte)) :
  marshal [] (v_Symbols symbols) = (enc, None) ->
  decodes readSymbolArray enc symbols /\
  unmarshals enc (ptr_Symbols old) (ptr_Symbols symbols).
Proof.
  simpl. unfold writeSymbolArray. intros Hw.
  set (ofType := if existsb (fun symbol => math.MaxUint8 <? len symbol) symbols
                 then typeCodeSym32 else typeCodeSym8) in *.
  destruct (symbolElems symbols ofType []) as [elems [e|]] eqn:Es;
    [discriminate |].
  assert (Ht : ofType = typeCodeSym8 \/ ofType = typeCodeSym32).
  { unfold ofType. destruct (existsb _ _); auto. }
  apply (symbolElems_ok ofType symbols Ht) in Es. simpl in Es. subst elems.
  unfold writeArray in Hw.
  assert (Hsize : fieldsSize (map (symbolElem ofType) symbols) < 2 ^ 32).
  { revert Hw. unfold writeSlice, math.MaxUint32.
    change (2 ^ 32) with 4294967296.
    destruct (_ =? 0); [discriminate |].
    destruct (Z.ltb_spec (fieldsSize (map (symbolElem ofType) symbols)) 256);
      [lia |].
    rewrite andb_false_r.
    destruct (Z.ltb_spec (fieldsSize (map (symbolElem ofType) symbols))
                4294967295); [lia |].
    rewrite andb_false_r. discriminate. }
  assert (Hdec : forall s, In s symbols ->
                   decodes (fun r => readVariableType r ofType)
                           (symbolElem ofType s) s).
  { intros s Hs. unfold ofType in *.
    destruct (existsb _ symbols) eqn:Ex.
    - pose proof (elem_le_size s symbols typeCodeSym32 Hs) as Hle.
      assert (Hl : len s < 2 ^ 32) by lia.
      assert (He : symbolElem typeCodeSym32 s
                   = binary.BigEndian_PutUint 4 (len s) ++ s).
      { unfold symbolElem, uint32.
        rewrite Z.mod_small by (unfold len in *; lia). reflexivity. }
      rewrite He.
      apply (readVariableType_32 typeCodeSym32 s); [simpl; auto | exact Hl].
    - assert (Hl : len s < 256).
      { destruct (Z.ltb_spec math.MaxUint8 (len s)) as [Hgt | Hle];
          [| unfold math.MaxUint8 in Hle; lia].
        exfalso. rewrite <- Bool.not_true_iff_false in Ex. apply Ex.
        apply existsb_exists. exists s. split; [exact Hs |].
        apply Z.ltb_lt. exact Hgt. }
      apply (readVariableType_8 typeCodeSym8 s); [simpl; auto | exact Hl]. }
  assert (Hd : decodes readSymbolArray enc symbols).
  { intros b rest H.
    destruct (slice_header_round_trip_aux true ofType _ enc Hw
                ltac:(apply Stdlib.Lists.List.Forall_forall; intros x Hx;
                      apply in_map_iff in Hx as (s & <- & _);
                      apply symbolElem_nonempty)
                b rest H) as (b1 & l & HR & Hb1).
    destruct (ReadByte_Bytes b1 ofType _ Hb1) as [HB Hb2].
    destruct (readArrayElems_ok ofType symbols Hdec [] _ rest Hb2)
      as (b' & HA & Hb').
    exists b'. split; [| exact Hb'].
    unfold readSymbolArray, try. rewrite HR, HB. cbn [fst].
    unfold len. rewrite length_map, Nat2Z.id. exact HA. }
  split; [exact Hd |].
  intros depth b rest H. destruct (Hd b rest H) as (b' & HR & Hb').
  exists b'. split; [| exact Hb']. simpl. rewrite HR. reflexivity.
Qed.

Lemma symbol_array_round_trip_witness :
  unmarshals [xe0; x05; x02; xa3; x01; x61; x01; x62]
             (ptr_Symbols []) (ptr_Symbols [[x61]; [x62]]).
Proof.
  apply (proj2 (symbol_array_round_trip [[x61]; [x62]]
                  [xe0; x05; x02; xa3; x01; x61; x01; x62] [] eq_refl)).
Defined.

(** ** A composite of unsigned fields written and read back *)

Lemma handleNulls_plain (first n : nat) (st : store) :
  handleNulls (plainSchema first n) st = (st, None).
Proof.
  unfold plainSchema. revert first.
  induction n as [|n IH]; intros first; simpl; [reflexivity | apply IH].
Qed.

Lemma cellElement (c : Z * bool * Z) :
  fieldElement (cellField c)
  = if snd (fst c) then [typeCodeNull]
    else fst (marshal_uint32 [] (fst (fst c))).
Proof.
  unfold fieldElement, cellField. simpl. destruct (snd (fst c)); [reflexivity |].
  unfold marshal_uint32. destruct (_ =? 0); reflexivity.
Qed.

Lemma unmarshalFields_cells (depth : nat) (cells : list (Z * bool * Z)) :
  (forall c, In c cells -> 0 <= fst (fst c) < 2 ^ 32) ->
  forall (done tail : store) (i : Z) (b : bytes.Buffer) (rest : list byte),
    bytes.Bytes b
    = concat (map (fun c => fieldElement (cellField c)) cells) ++ rest ->
    exists b' : bytes.Buffer,
      unmarshalFields (S depth) i (plainSchema (length done) (length cells))
                      (BufferReader b) (done ++ map cellOld cells ++ tail)
      = (BufferReader b', done ++ map cellNew cells ++ tail, None) /\
      bytes.Bytes b' = rest.
Proof.
  induction cells as [|c cells IH]; intros Hr done tail i b rest H.
  - exists b. split; [reflexivity | exact H].
  - simpl in H. rewrite <- app_assoc, cellElement in H.
    assert (Hload : load (done ++ map cellOld (c :: cells) ++ tail)
                         (length done) = cellOld c).
    { unfold load, store. cbn [map app].
      rewrite (list_lookup_middle done _ (cellOld c)) by reflexivity.
      reflexivity. }
    assert (Hins : forall s,
      <[length done := s]> (done ++ map cellOld (c :: cells) ++ tail)
      = (done ++ [s]) ++ map cellOld cells ++ tail).
    { intros s. unfold store. cbn [map app].
      rewrite (insert_app_r_alt done) by apply Nat.le_refl.
      rewrite Nat.sub_diag, <- app_assoc. reflexivity. }
    assert (Hstep : forall b1,
      bytes.Bytes b1
      = concat (map (fun c => fieldElement (cellField c)) cells) ++ rest ->
      exists b' : bytes.Buffer,
        unmarshalFields (S depth) (i + 1)
          (plainSchema (S (length done)) (length cells))
          (BufferReader b1) ((done ++ [cellNew c]) ++ map cellOld cells ++ tail)
        = (BufferReader b', done ++ map cellNew (c :: cells) ++ tail, None) /\
        bytes.Bytes b' = rest).
    { intros b1 Hb1.
      destruct (IH (fun x Hx => Hr x (or_intror Hx)) (done ++ [cellNew c])
                  tail (i + 1) b1 rest Hb1) as (b' & HU & Hb').
      rewrite length_app, Nat.add_1_r in HU.
      exists b'. split; [| exact Hb'].
      rewrite <- (app_assoc done [cellNew c] (map cellNew cells ++ tail))
        in HU.
      exact HU. }
    change (plainSchema (length done) (length (c :: cells)))
      with (mkUnmarshalField (length done) None
            :: plainSchema (S (length done)) (length cells)).
    cbn [unmarshalFields field handleNull]. rewrite Hload.
    destruct c as [[v o] old]. unfold cellOld at 1. cbn [fst snd] in *.
    destruct o.
    + (* omitted: the Null octet, the variable keeps its value *)
      destruct (ReadByte_Bytes b typeCodeNull _ H) as [HB Hb1].
      assert (HU : unmarshal (S depth) (BufferReader b) (ptr_uint32 old)
                   = (BufferReader (advance b 1), ptr_uint32 old, true, None)).
      { simpl. unfold readUint, try. rewrite HB. reflexivity. }
      rewrite HU, Hins. cbn match.
      apply (Hstep (advance b 1) Hb1).
    + (* set: the value is stored *)
      destruct (unmarshals_uint32 v old
                  (Hr (v, false, old) (or_introl eq_refl))
                  depth b _ H) as (b1 & HU & Hb1).
      rewrite HU, Hins. cbn match.
      apply (Hstep b1 Hb1).
Qed.

Lemma In_take_In {A : Type} (x : A) (n : nat) (l : list A) :
  In x (take n l) -> In x l.
Proof.
  intros H. rewrite <- (take_drop n l). apply in_or_app. left. exact H.
Qed.

Lemma lookup_map_Some {A B : Type} (f : A -> B) (l : list A) :
  forall (i : nat) (x : A), l !! i = Some x -> map f l !! i = Some (f x).
Proof.
  induction l as [|y l IH]; intros [|i] x H; simpl in *;
    try discriminate.
  - injection H as ->. reflexivity.
  - apply IH. exact H.
Qed.

Lemma In_drop_lookup {A : Type} (x : A) (n : nat) (l : list A) :
  In x (drop n l) -> exists p : nat, l !! (n + p)%nat = Some x.
Proof.
  intros H. apply list_elem_of_In, list_elem_of_lookup_1 in H as (p & Hp).
  exists p. rewrite <- lookup_drop. exact Hp.
Qed.

(** A composite of [uint32] fields written by [marshalComposite] and read
    back by [unmarshalComposite] against the schema of as many [*uint32]
    variables: every variable whose field was set holds the value of the
    field, every variable whose field was omitted, in the middle (sent as
    Null) or at the end (not sent), keeps the value it had, and exactly the
    octets written are consumed. *)
Theorem composite_uint32_round_trip (code : amqpType)
    (cells : list (Z * bool * Z)) (enc : list byte) :
  (forall c, In c cells -> 0 <= fst (fst c) < 2 ^ 32) ->
  marshalComposite [] code (map cellField cells) = (enc, None) ->
  forall (depth : nat) (b : bytes.Buffer) (rest : list byte),
    bytes.Bytes b = enc ++ rest ->
    exists b' : bytes.Buffer,
      unmarshalComposite (S depth) (BufferReader b) code
        (plainSchema 0 (length cells)) (map cellOld cells)
      = (BufferReader b', map cellNew cells, None) /\
      bytes.Bytes b' = rest.
Proof.
  intros Hr Hm depth b rest H.
  destruct (composite_header_aux code _ enc Hm)
    as (k & elems & Hk & Hb & He & Hread).
  destruct (Hread b rest H) as (b1 & HC & Hb1).
  unfold len in Hb. rewrite length_map in Hb.
  set (K := Z.to_nat (k + 1)) in *.
  assert (HK : (K <= length cells)%nat) by (unfold K; lia).
  assert (Hk1 : k + 1 = Z.of_nat K) by (unfold K; lia).
  rewrite firstn_map, map_map in He. subst elems.
  destruct (unmarshalFields_cells depth (take K cells)
              (fun c Hc => Hr c (In_take_In c K cells Hc))
              [] (map cellOld (drop K cells)) 0 b1 rest Hb1)
    as (b' & HU & Hb').
  rewrite length_take in HU.
  replace (K `min` length cells)%nat with K in HU by lia.
  cbn [app length] in HU. rewrite <- !map_app, take_drop in HU.
  exists b'. split; [| exact Hb'].
  unfold unmarshalComposite. rewrite HC.
  rewrite (Byte.byte_dec_lb eq_refl). cbn [negb].
  assert (Hl : (len (plainSchema 0 (length cells)) <? k + 1) = false).
  { apply Z.ltb_ge. unfold len, plainSchema.
    rewrite length_map, length_seq. lia. }
  rewrite Hl, Hk1, Nat2Z.id.
  assert (Ht : take K (plainSchema 0 (length cells)) = plainSchema 0 K).
  { unfold plainSchema. rewrite firstn_map, take_seq.
    replace (K `min` length cells)%nat with K by lia. reflexivity. }
  assert (Hd : drop K (plainSchema 0 (length cells))
               = plainSchema K (length cells - K)).
  { unfold plainSchema. rewrite skipn_map, drop_seq. reflexivity. }
  rewrite Ht, Hd, HU, handleNulls_plain.
  repeat f_equal.
  rewrite <- (take_drop K cells) at 3. rewrite map_app. f_equal.
  apply map_ext_in. intros c Hc.
  destruct Hk as [Hup _].
  apply In_drop_lookup in Hc as (p & Hp).
  unfold cellOld, cellNew. destruct c as [[v o] old]. simpl.
  destruct o; [reflexivity |]. exfalso.
  pose proof (lookup_map_Some cellField cells _ _ Hp) as Hlk.
  specialize (Hup _ _ Hlk eq_refl). lia.
Qed.

Lemma composite_uint32_round_trip_witness :
  exists b' : bytes.Buffer,
    unmarshalComposite 1
      (BufferReader
         (bytes.NewBuffer
            [x00; x53; x11; xc0; x08; x03; x70; x00; x00; x00; x05; x40; x43]))
      x11 (plainSchema 0 4) [ptr_uint32 0; ptr_uint32 9; ptr_uint32 1; ptr_uint32 4]
    = (BufferReader b',
       [ptr_uint32 5; ptr_uint32 9; ptr_uint32 0; ptr_uint32 4], None) /\
    bytes.Bytes b' = [].
Proof.
  apply (composite_uint32_round_trip x11
           [(5, false, 0); (7, true, 9); (0, false, 1); (3, true, 4)]
           [x00; x53; x11; xc0; x08; x03; x70; x00; x00; x00; x05; x40; x43]).
  - intros c [<- | [<- | [<- | [<- | []]]]]; split; vm_compute; congruence.
  - reflexivity.
  - reflexivity.
Defined.

(** ** Maps without entries *)

(** The Null code in place of a map raises the null indicator and leaves
    the caller's map as it was; a map header that declares no elements
    replaces the caller's map by the empty map and consumes the header
    only.  This holds for the three kinds of map. *)
Theorem map_null_and_empty (depth : nat) (b : bytes.Buffer) (rest : list byte)
    (m1 : list (any * any)) (m2 m3 : list (list byte * any)) :
  (bytes.Bytes b = typeCodeNull :: rest ->
   let r' := BufferReader (advance b 1) in
   unmarshal (S depth) (BufferReader b) (ptr_mapAnyAny m1)
   = (r', ptr_mapAnyAny m1, true, None) /\
   unmarshal (S depth) (BufferReader b) (ptr_mapStringAny m2)
   = (r', ptr_mapStringAny m2, true, None) /\
   unmarshal (S depth) (BufferReader b) (ptr_mapSymbolAny m3)
   = (r', ptr_mapSymbolAny m3, true, None)) /\
  (forall s : byte,
     bytes.Bytes b = typeCodeMap8 :: s :: x00 :: rest ->
     byte_to_Z s <= len (x00 :: rest) ->
     let r' := BufferReader (advance (advance (advance b 1) 1) 1) in
     bytes.Bytes (advance (advance (advance b 1) 1) 1) = rest /\
     unmarshal (S depth) (BufferReader b) (ptr_mapAnyAny m1)
     = (r', ptr_mapAnyAny [], false, None) /\
     unmarshal (S depth) (BufferReader b) (ptr_mapStringAny m2)
     = (r', ptr_mapStringAny [], false, None) /\
     unmarshal (S depth) (BufferReader b) (ptr_mapSymbolAny m3)
     = (r', ptr_mapSymbolAny [], false, None)).
Proof.
  split.
  - intros H r'. destruct (ReadByte_Bytes b typeCodeNull rest H) as [HB _].
    assert (HN : newMapReader (BufferReader b) = (r', None, Some errNull)).
    { unfold newMapReader, try. rewrite HB. reflexivity. }
    repeat split; simpl;
      unfold mapAnyAny_unmarshal, mapStringAny_unmarshal,
        mapSymbolAny_unmarshal, mapUnmarshal;
      rewrite HN; reflexivity.
  - intros s H Hs r'.
    destruct (ReadByte_Bytes b typeCodeMap8 _ H) as [HB Hb1].
    destruct (ReadByte_Bytes (advance b 1) s _ Hb1) as [HB2 Hb2].
    destruct (ReadByte_Bytes (advance (advance b 1) 1) x00 _ Hb2)
      as [HB3 Hb3].
    split; [exact Hb3 |].
    assert (Hu : uint32 (byte_to_Z s) = byte_to_Z s).
    { pose proof (byte_to_Z_range s). unfold uint32. apply Z.mod_small. lia. }
    assert (HN : newMapReader (BufferReader b)
                 = (r', Some (mkMapReader (limitReader r' (byte_to_Z s) 0) 0 0),
                    None)).
    { unfold newMapReader, try. rewrite HB. unfold typeCodeMap8. cbn match.
      rewrite HB2, Hu, Len_Bytes, Hb2.
      destruct (Z.ltb_spec (len (x00 :: rest)) (byte_to_Z s)); [lia |].
      rewrite HB3. reflexivity. }
    repeat split; simpl;
      unfold mapAnyAny_unmarshal, mapStringAny_unmarshal,
        mapSymbolAny_unmarshal, mapUnmarshal;
      rewrite HN; reflexivity.
Qed.

Lemma map_null_and_empty_witness :
  unmarshal 1 (BufferReader (bytes.NewBuffer [xc1; x01; x00; x41]))
            (ptr_mapStringAny [([x61], any_bool true)])
  = (BufferReader (bytes.mkBuffer [xc1; x01; x00; x41] 3 true),
     ptr_mapStringAny [], false, None).
Proof.
  apply (proj2 (map_null_and_empty 0 (bytes.NewBuffer [xc1; x01; x00; x41])
                  [x41] [] [([x61], any_bool true)] []) x01 eq_refl).
  vm_compute. discriminate.
Defined.

(** ** The 8-bit list header within its range, and encodings are not empty *)

(** A list of 1 to 255 fields whose payload is below 255 octets gets the
    List8 code, a size octet equal to the payload plus one, which is the
    number of octets behind the size octet, and a count octet equal to the
    number of fields. *)
Theorem list8_size_covers_payload (wr : writer) (fields : list (list byte)) :
  0 < len fields < 256 -> fieldsSize fields < 255 ->
  let size := byte_of_Z (fieldsSize fields + 1) in
  let count := byte_of_Z (len fields) in
  writeList wr fields
  = (wr ++ [typeCodeList8; size; count] ++ concat fields, None) /\
  byte_to_Z count = len fields /\
  byte_to_Z size = fieldsSize fields + 1 /\
  byte_to_Z size = len (count :: concat fields).
Proof. exact (writeList_size8 wr fields). Qed.

Lemma list8_size_covers_payload_witness :
  writeList [] [[x41]; [x42]] = ([xc0; x03; x02; x41; x42], None).
Proof.
  apply (list8_size_covers_payload [] [[x41]; [x42]]);
    vm_compute; repeat split; congruence.
Defined.

(** Whatever [marshal] encodes without an error has at least one octet,
    for every type this file encodes (a marshaler of another file
    excepted). *)
Theorem marshal_output_not_empty (v : value) (e : list byte) :
  (forall out err, v <> v_marshaler out err) ->
  marshal [] v = (e, None) -> e <> [].
Proof. exact (marshal_nonempty v e). Qed.

Lemma marshal_output_not_empty_witness :
  fst (marshal [] (v_string [])) <> [].
Proof.
  apply (marshal_output_not_empty (v_string []) _).
  - intros out err. discriminate.
  - reflexivity.
Defined.

(** ** Pointers to pointers *)

(** [unmarshal] into a pointer to a nil pointer allocates the pointed-to
    value before it reads: when the next octet is the Null code and the
    value is an unsigned integer, a boolean or a timestamp, the null
    indicator is raised and the pointer is left allocated, pointing to the
    fresh value; a pointer that was not nil keeps its value. *)
Theorem null_through_pointer (depth : nat) (r r' : reader) (i : sink) :
  signalsNull i = true ->
  ReadByte r = (r', typeCodeNull, None) ->
  unmarshal (S (S depth)) r (ptr_nil i) = (r', ptr_to i, true, None) /\
  unmarshal (S (S depth)) r (ptr_to i) = (r', ptr_to i, true, None).
Proof.
  intros Hs Hb.
  assert (Hi : unmarshal (S depth) r i = (r', i, true, None)).
  { assert (Hu : readUint r = (r', 0, Some errNull)).
    { unfold readUint, try. rewrite Hb. reflexivity. }
    assert (Ho : readBool r = (r', false, Some errNull)).
    { unfold readBool, try. rewrite Hb. reflexivity. }
    assert (Ht : readTimestamp r = (r', time.zero, Some errNull)).
    { unfold readTimestamp, try. rewrite Hb. reflexivity. }
    destruct i; try discriminate; simpl; rewrite ?Hu, ?Ho, ?Ht; reflexivity. }
  assert (Hp :
    catchNull (let '(r0, p, null, err) := unmarshal (S depth) r i in
               (r0, ptr_to p, null, err)) = (r', ptr_to i, true, None)).
  { rewrite Hi. reflexivity. }
  split; exact Hp.
Qed.

Lemma null_through_pointer_witness :
  unmarshal 2 (BufferReader (bytes.NewBuffer [x40])) (ptr_nil (ptr_uint32 0))
  = (BufferReader (bytes.mkBuffer [x40] 1 true), ptr_to (ptr_uint32 0), true,
     None).
Proof.
  apply (proj1 (null_through_pointer 0 (BufferReader (bytes.NewBuffer [x40]))
                  (BufferReader (bytes.mkBuffer [x40] 1 true)) (ptr_uint32 0)
                  eq_refl eq_refl)).
Defined.
